(** * Secure-Chat-Application: relay, key-exchange pipeline and stego codec

    A shallow embedding of the three TypeScript/JavaScript sources of the
    repository:

    - the Socket.IO relay ([socketsByUser], [undeliveredMessages],
      [sendOrStore], the connection handler and its three listeners),
    - the Express endpoints of the same server (registration, login, friend
      requests) with the two authentication middlewares,
    - the React client's key-exchange and message pipeline ([ensureDHState],
      [emitPublicKey], [deriveSharedSecret], [decryptIncoming],
      [handleSendMessage], ...),
    - [utils/stego] ([numberToBits], [bitsToNumber], [textToBits],
      [embedTextInImage], [extractTextFromImage]) and [utils/crypto].

    JavaScript numbers used as 32-bit integers are [Z] with the wrap-around
    of the bit operators written out; strings are lists of UTF-16 code
    units; [Map]s are [gmap]s; arrays are lists updated by index; a call
    that can throw returns a [completion].

    The browser and Node functions the sources call are modelled from their
    standards: [TextEncoder]/[TextDecoder] (WHATWG Encoding), [btoa]/[atob]
    (forgiving base64), [Array.prototype.slice], typed-array stores.  Web
    Crypto is an interface.  A PNG data URL stands for the opaque pixel grid
    it encodes.  Handlers run one at a time, as on the single event loop of
    the relay and of the client. *)

From Stdlib Require Import ZArith Lia ZifyNat.
From stdpp Require Import base option list gmap strings.

(** ** Completions: a JavaScript call returns or throws *)

Inductive exn : Type :=
  | RangeError
  | IndexSizeError
  | InvalidCharacterError
  | DataError
  | OperationError
  | TypeError
  | Error (message : string).

Inductive completion (A : Type) : Type :=
  | Return (a : A)
  | Throw (e : exn).
Arguments Return {A} a.
Arguments Throw {A} e.

#[global] Instance completion_ret : MRet completion := fun A a => Return a.
#[global] Instance completion_bind : MBind completion := fun A B k c =>
  match c with
  | Return a => k a
  | Throw e => Throw e
  end.

(** A JavaScript string: its UTF-16 code units. *)
Abbreviation jsstring := (list Z).

(** ** The platform: integer operators, arrays, text codecs, base64 *)

Module JS.
Local Open Scope Z_scope.

(** *** 32-bit integer operators ([>>], [<<], [&], [|]) *)

Definition ToInt32 (x : Z) : Z := (x + 2 ^ 31) mod 2 ^ 32 - 2 ^ 31.

Definition shr (v i : Z) : Z := Z.shiftr (ToInt32 v) (i mod 32).
Definition shl (v i : Z) : Z := ToInt32 (Z.shiftl (ToInt32 v) (i mod 32)).
Definition band (a b : Z) : Z := Z.land (ToInt32 a) (ToInt32 b).
Definition bor (a b : Z) : Z := Z.lor (ToInt32 a) (ToInt32 b).

(** Stores into a [Uint8Array] wrap, stores into a [Uint8ClampedArray]
    clamp. *)
Definition ToUint8 (x : Z) : Z := x mod 256.
Definition ToUint8Clamp (x : Z) : Z := Z.max 0 (Z.min 255 x).

(** Reading an array element for a bit operator: a missing element is
    [undefined], which the operator coerces to 0. *)
Definition at0 (l : list Z) (i : nat) : Z := default 0 (l !! i).

(** [Array.prototype.slice(start, end)]: negative arguments count from
    the end, both are clamped to the array. *)
Definition rel_index (len : nat) (k : Z) : nat :=
  if k <? 0 then Z.to_nat (Z.max (Z.of_nat len + k) 0)
  else Z.to_nat (Z.min k (Z.of_nat len)).

Definition slice {A} (l : list A) (s e : Z) : list A :=
  let k := rel_index (length l) s in
  let final := rel_index (length l) e in
  take (final - k)%nat (drop k l).

(** *** [TextEncoder]: UTF-16 code units to scalar values to UTF-8 *)

Definition is_lead (c : Z) : bool := (0xD800 <=? c) && (c <=? 0xDBFF).
Definition is_trail (c : Z) : bool := (0xDC00 <=? c) && (c <=? 0xDFFF).

(** Conversion of a string to scalar values: a surrogate pair is one
    supplementary code point, an unpaired surrogate becomes U+FFFD. *)
Fixpoint to_scalars (s : jsstring) : list Z :=
  match s with
  | [] => []
  | c :: rest =>
      if is_lead c then
        match rest with
        | d :: rest' =>
            if is_trail d
            then (0x10000 + Z.shiftl (c - 0xD800) 10 + (d - 0xDC00)) :: to_scalars rest'
            else 0xFFFD :: to_scalars rest
        | [] => [0xFFFD]
        end
      else if is_trail c then 0xFFFD :: to_scalars rest
      else c :: to_scalars rest
  end.

(** The UTF-8 encoder: first byte [(cp >> 6*count) + offset], then
    [count] continuation bytes [0x80 | ((cp >> 6*k) & 0x3F)]. *)
Definition cont_byte (cp : Z) (k : Z) : Z :=
  Z.lor 0x80 (Z.land (Z.shiftr cp (6 * k)) 0x3F).

Definition utf8_encode_cp (cp : Z) : list Z :=
  if cp <=? 0x7F then [cp]
  else if cp <=? 0x7FF then [Z.shiftr cp 6 + 0xC0; cont_byte cp 0]
  else if cp <=? 0xFFFF then [Z.shiftr cp 12 + 0xE0; cont_byte cp 1; cont_byte cp 0]
  else [Z.shiftr cp 18 + 0xF0; cont_byte cp 2; cont_byte cp 1; cont_byte cp 0].

Definition utf8_encode (cps : list Z) : list Z := cps ≫= utf8_encode_cp.

Definition TextEncoder_encode (text : jsstring) : list Z :=
  utf8_encode (to_scalars text).

(** *** [TextDecoder] (default options: not fatal, BOM not ignored) *)

(** State of the UTF-8 decoder between two bytes of one sequence. *)
Record utf8_state := Utf8State {
  code_point : Z;
  bytes_needed : nat;
  lower_boundary : Z;
  upper_boundary : Z;
}.

(** A byte met with no sequence open: an ASCII byte is a code point, a
    lead byte opens a sequence, any other byte is an error (U+FFFD). *)
Definition utf8_start (b : Z) : list Z * option utf8_state :=
  if b <=? 0x7F then ([b], None)
  else if (0xC2 <=? b) && (b <=? 0xDF)
    then ([], Some (Utf8State (Z.land b 0x1F) 1 0x80 0xBF))
  else if (0xE0 <=? b) && (b <=? 0xEF)
    then ([], Some (Utf8State (Z.land b 0xF) 2
                     (if b =? 0xE0 then 0xA0 else 0x80)
                     (if b =? 0xED then 0x9F else 0xBF)))
  else if (0xF0 <=? b) && (b <=? 0xF4)
    then ([], Some (Utf8State (Z.land b 0x7) 3
                     (if b =? 0xF0 then 0x90 else 0x80)
                     (if b =? 0xF4 then 0x8F else 0xBF)))
  else ([0xFFFD], None).

(** One byte of input.  Inside a sequence, a byte outside the boundaries
    is an error and is then handled again as the start of a sequence. *)
Definition utf8_step (st : option utf8_state) (b : Z) : list Z * option utf8_state :=
  match st with
  | None => utf8_start b
  | Some s =>
      if (lower_boundary s <=? b) && (b <=? upper_boundary s) then
        let cp := Z.lor (Z.shiftl (code_point s) 6) (Z.land b 0x3F) in
        match bytes_needed s with
        | O | S O => ([cp], None)
        | S n => ([], Some (Utf8State cp n 0x80 0xBF))
        end
      else
        let '(out, st') := utf8_start b in (0xFFFD :: out, st')
  end.

Fixpoint utf8_decode_from (st : option utf8_state) (bytes : list Z) : list Z :=
  match bytes with
  | [] => match st with None => [] | Some _ => [0xFFFD] end
  | b :: rest =>
      let '(out, st') := utf8_step st b in out ++ utf8_decode_from st' rest
  end.

Definition utf8_decode (bytes : list Z) : list Z := utf8_decode_from None bytes.

(** With [ignoreBOM] false a leading U+FEFF is removed from the output. *)
Definition strip_bom (cps : list Z) : list Z :=
  match cps with
  | c :: rest => if c =? 0xFEFF then rest else cps
  | [] => []
  end.

Definition utf16_of_cp (cp : Z) : jsstring :=
  if cp <=? 0xFFFF then [cp]
  else [0xD800 + Z.shiftr (cp - 0x10000) 10; 0xDC00 + Z.land (cp - 0x10000) 0x3FF].

Definition TextDecoder_decode (bytes : list Z) : jsstring :=
  strip_bom (utf8_decode bytes) ≫= utf16_of_cp.

(** *** [btoa] and [atob] *)

(** The base64 alphabet: A-Z, a-z, 0-9, [+], [/]. *)
Definition b64_char (i : Z) : Z :=
  if i <? 26 then 65 + i
  else if i <? 52 then 97 + (i - 26)
  else if i <? 62 then 48 + (i - 52)
  else if i =? 62 then 43
  else 47.

Definition b64_index (c : Z) : option Z :=
  if (65 <=? c) && (c <=? 90) then Some (c - 65)
  else if (97 <=? c) && (c <=? 122) then Some (c - 97 + 26)
  else if (48 <=? c) && (c <=? 57) then Some (c - 48 + 52)
  else if c =? 43 then Some 62
  else if c =? 47 then Some 63
  else None.

(** Three bytes are four 6-bit groups; one or two trailing bytes are
    padded with zero bits to two or three groups. *)
Fixpoint b64_groups (bs : list Z) : list Z :=
  match bs with
  | [] => []
  | [a] => [a / 4; a mod 4 * 16]
  | [a; b] => [a / 4; a mod 4 * 16 + b / 16; b mod 16 * 4]
  | a :: b :: c :: rest =>
      [a / 4; a mod 4 * 16 + b / 16; b mod 16 * 4 + c / 64; c mod 64] ++ b64_groups rest
  end.

Definition b64_padding (n : nat) : nat := ((3 - n mod 3) mod 3)%nat.

(** [btoa] takes a string of code units up to 255 and throws otherwise. *)
Definition btoa (binary : jsstring) : completion jsstring :=
  if forallb (fun c => (0 <=? c) && (c <=? 255)) binary
  then Return ((b64_char <$> b64_groups binary) ++ replicate (b64_padding (length binary)) 61)
  else Throw InvalidCharacterError.

Definition is_ascii_whitespace (c : Z) : bool :=
  (c =? 9) || (c =? 10) || (c =? 12) || (c =? 13) || (c =? 32).

(** With a length divisible by four, one or two trailing [=] go. *)
Definition strip_padding (d : jsstring) : jsstring :=
  if (length d mod 4 =? 0)%nat then
    match reverse d with
    | c1 :: r1 =>
        if c1 =? 61 then
          match r1 with
          | c2 :: r2 => if c2 =? 61 then reverse r2 else reverse r1
          | [] => reverse r1
          end
        else d
    | [] => d
    end
  else d.

(** Four groups give three bytes; a rest of three groups gives two bytes
    and a rest of two groups one byte, the spare low bits dropped. *)
Fixpoint b64_ungroup (gs : list Z) : list Z :=
  match gs with
  | a :: b :: c :: d :: rest =>
      let buffer := ((a * 64 + b) * 64 + c) * 64 + d in
      [buffer / 65536; buffer / 256 mod 256; buffer mod 256] ++ b64_ungroup rest
  | [a; b; c] =>
      let buffer := ((a * 64 + b) * 64 + c) / 4 in
      [buffer / 256; buffer mod 256]
  | [a; b] => [(a * 64 + b) / 16]
  | _ => []
  end.

(** [atob]: the forgiving base64 decode. *)
Definition atob (encoded : jsstring) : completion jsstring :=
  let d := filter (fun c => is_ascii_whitespace c = false) encoded in
  let d := strip_padding d in
  if (length d mod 4 =? 1)%nat then Throw InvalidCharacterError
  else match mapM b64_index d with
       | None => Throw InvalidCharacterError
       | Some gs => Return (b64_ungroup gs)
       end.

(** [String.fromCharCode] and [charCodeAt]. *)
Definition fromCharCode (n : Z) : jsstring := [n mod 65536].

(** [String.prototype.trim]: white space and line terminators. *)
Definition is_white_space (c : Z) : bool :=
  ((9 <=? c) && (c <=? 13)) || (c =? 32) || (c =? 0xA0) || (c =? 0x1680)
  || ((0x2000 <=? c) && (c <=? 0x200A)) || (c =? 0x2028) || (c =? 0x2029)
  || (c =? 0x202F) || (c =? 0x205F) || (c =? 0x3000) || (c =? 0xFEFF).

Fixpoint trim_start (s : jsstring) : jsstring :=
  match s with
  | c :: rest => if is_white_space c then trim_start rest else s
  | [] => []
  end.

Definition trim (s : jsstring) : jsstring :=
  reverse (trim_start (reverse (trim_start s))).

End JS.

(** ** [utils/stego]: the LSB codec *)

(** What [getImageData] reports for a canvas: RGBA bytes in raster order.
    A PNG data URL is identified with the pixel grid it encodes (PNG is
    lossless, and the canvases here are opaque). *)
Record ImageData := mkImageData {
  width : nat;
  height : nat;
  data : list Z;
}.

Module Stego.
Local Open Scope Z_scope.

Definition CANVAS_SIZE : nat := 256.
Definition LENGTH_PREFIX_BITS : nat := 32.

(** [bits[length - 1 - i] = (value >> i) & 1] for [i] from 0 up. *)
Definition numberToBits (value : Z) (length : nat) : list Z :=
  foldl (fun bits i => <[(length - 1 - i)%nat := JS.band (JS.shr value (Z.of_nat i)) 1]> bits)
        (replicate length 0) (seq 0 length).

(** [value = (value << 1) | (bits[i] & 1)] from the first bit on. *)
Definition bitsToNumber (bits : list Z) : Z :=
  foldl (fun value b => JS.bor (JS.shl value 1) (JS.band b 1)) 0 bits.

Definition textToBits (text : jsstring) : list Z :=
  let bytes := JS.TextEncoder_encode text in
  let dataBits := foldl (fun dataBits byte => dataBits ++ numberToBits byte 8) [] bytes in
  numberToBits (Z.of_nat (length bytes)) LENGTH_PREFIX_BITS ++ dataBits.

(** The cover: [fillStyle = '#0b1120'] over the whole canvas. *)
Definition cover_pixel : list Z := [0x0b; 0x11; 0x20; 0xff].
Definition cover (w h : nat) : list Z := mjoin (replicate (w * h) cover_pixel).
(** A canvas that was never drawn on is transparent black. *)
Definition blank (w h : nat) : list Z := replicate (4 * (w * h)) 0.

(** The write loop of [embedTextInImage] on the blue channel. *)
Definition write_bits (bits : list Z) (pixels : list Z) : list Z :=
  foldl (fun d i =>
           let pixelOffset := (i * 4 + 2)%nat in
           <[pixelOffset := JS.ToUint8Clamp (JS.bor (JS.band (JS.at0 d pixelOffset) 0xfe) (JS.at0 bits i))]> d)
        pixels (seq 0 (length bits)).

(** [embedTextInImage], with the canvas it leaves behind.  [ctx2d] says
    whether [getContext('2d')] gives a context. *)
Definition embedTextInImage_run (ctx2d : bool) (text : jsstring)
    : list Z * completion ImageData :=
  let bits := textToBits text in
  let w := CANVAS_SIZE in
  let h := CANVAS_SIZE in
  if negb ctx2d then (blank w h, Throw (Error "Canvas context unavailable"))
  else
    let canvas := cover w h in
    let imageData := canvas in
    let maxBits := (w * h)%nat in
    if (maxBits <? length bits)%nat
    then (canvas, Throw (Error "Message is too long for the cover image"))
    else
      let imageData := write_bits bits imageData in
      let canvas := imageData in
      (canvas, Return (mkImageData w h canvas)).

Definition embedTextInImage (ctx2d : bool) (text : jsstring) : completion ImageData :=
  snd (embedTextInImage_run ctx2d text).

(** [extractTextFromImage]: [getImageData] refuses an empty rectangle;
    [new Uint8Array(n)] refuses a negative [n].  The bytes read are those
    of the image as given: drawing it on the canvas and reading it back is
    taken to return them, which holds for an image whose pixels are all
    opaque. *)
Definition read_bits (img : ImageData) : list Z :=
  let totalPixels := (width img * height img)%nat in
  foldl (fun bits i => bits ++ [JS.band (JS.at0 (data img) (i * 4 + 2)) 1])
        [] (seq 0 totalPixels).

Definition Uint8Array_new (n : Z) : completion (list Z) :=
  if n <? 0 then Throw RangeError else Return (replicate (Z.to_nat n) 0).

Definition read_bytes (payloadBits : list Z) (payloadLength : Z) (bytes : list Z) : list Z :=
  foldl (fun bytes i =>
           let chunk := JS.slice payloadBits (Z.of_nat i * 8) (Z.of_nat i * 8 + 8) in
           <[i := JS.ToUint8 (bitsToNumber chunk)]> bytes)
        bytes (seq 0 (Z.to_nat payloadLength)).

Definition extractTextFromImage (ctx2d : bool) (img : ImageData) : completion jsstring :=
  if negb ctx2d then Throw (Error "Canvas context unavailable")
  else if ((width img =? 0) || (height img =? 0))%nat then Throw IndexSizeError
  else
    let bits := read_bits img in
    let lengthBits := JS.slice bits 0 (Z.of_nat LENGTH_PREFIX_BITS) in
    let payloadLength := bitsToNumber lengthBits in
    let payloadBits := JS.slice bits (Z.of_nat LENGTH_PREFIX_BITS)
                                (Z.of_nat LENGTH_PREFIX_BITS + payloadLength * 8) in
    bytes ← Uint8Array_new payloadLength;
    let bytes := read_bytes payloadBits payloadLength bytes in
    Return (JS.TextDecoder_decode bytes).

End Stego.

(** ** [utils/crypto]: key helpers and base64 *)

(** The Web Crypto operations behind the helpers.  Key generation, nonces
    and UUIDs draw on an entropy counter; import, derivation, encryption
    ([encrypt key iv data]) and decryption ([decrypt key iv data]) can
    throw.  Generating a P-256 pair and exporting its public key as JWK are
    taken to succeed. *)
Class WebCrypto := {
  CryptoKey : Type;
  PrivateKey : Type;
  PublicKey : Type;
  JsonWebKey : Type;
  generateKey : nat -> PrivateKey * PublicKey;
  exportKey : PublicKey -> JsonWebKey;
  importKey : JsonWebKey -> completion PublicKey;
  deriveKey : PrivateKey -> PublicKey -> completion CryptoKey;
  getRandomValues : nat -> list Z;
  encrypt : CryptoKey -> list Z -> list Z -> completion (list Z);
  decrypt : CryptoKey -> list Z -> list Z -> completion (list Z);
  randomUUID : nat -> string;
}.

Module Crypto.
Local Open Scope Z_scope.

Section keys.
Context {wc : WebCrypto}.

Definition createKeyPair (n : nat) : PrivateKey * PublicKey := generateKey n.

Definition deriveSharedKey (privateKey : PrivateKey) (publicKey : PublicKey)
    : completion CryptoKey :=
  deriveKey privateKey publicKey.

Definition exportPublicKey (publicKey : PublicKey) : JsonWebKey := exportKey publicKey.

Definition importPublicKey (jwk : JsonWebKey) : completion PublicKey := importKey jwk.

Definition encryptWithKey (n : nat) (key : CryptoKey) (text : jsstring)
    : completion (list Z * list Z) :=
  let iv := getRandomValues n in
  let encoded := JS.TextEncoder_encode text in
  cipherBuffer ← encrypt key iv encoded;
  Return (cipherBuffer, iv).

Definition decryptWithKey (key : CryptoKey) (cipherBytes iv : list Z)
    : completion jsstring :=
  decrypted ← decrypt key iv cipherBytes;
  Return (JS.TextDecoder_decode decrypted).
End keys.

Definition bufferToBase64 (bytes : list Z) : completion jsstring :=
  let binary := foldl (fun binary byte => binary ++ JS.fromCharCode byte) [] bytes in
  JS.btoa binary.

Definition base64ToBytes (base64 : jsstring) : completion (list Z) :=
  binary ← JS.atob base64;
  let bytes := replicate (length binary) 0 in
  Return (foldl (fun bytes i => <[i := JS.ToUint8 (JS.at0 binary i)]> bytes)
                bytes (seq 0 (length binary))).

End Crypto.

(** ** The relay (Socket.IO server) *)

Module Relay.

(** A value carried in an event payload. *)
Inductive value : Type :=
  | VUndefined
  | VString (s : string)
  | VData (d : list Z).

(** A payload object: its own properties. *)
Abbreviation object := (gmap string value).

(** A connected socket; [socket_user] is [socket.user.id], set by the
    authentication middleware. *)
Record Socket := mkSocket {
  socket_id : nat;
  socket_user : string;
}.

#[global] Instance Socket_eq_dec : EqDecision Socket.
Proof. solve_decision. Defined.

Record message := mkMessage {
  event : string;
  payload : object;
}.

(** One [socket.emit(event, payload)] of the server. *)
Record emission := mkEmission {
  to_socket : Socket;
  emitted : message;
}.

(** The process-wide maps, the friend sets of the user records, and the
    log of what the server emitted so far (oldest first). *)
Record state := mkState {
  friends : gmap string (gset string);
  socketsByUser : gmap string Socket;
  undeliveredMessages : gmap string (list message);
  outbox : list emission;
}.

Definition emit (sock : Socket) (ev : string) (p : object) (st : state) : state :=
  mkState (friends st) (socketsByUser st) (undeliveredMessages st)
          (outbox st ++ [mkEmission sock (mkMessage ev p)]).

Definition sendOrStore (userId : string) (ev : string) (p : object) (st : state) : state :=
  match socketsByUser st !! userId with
  | Some targetSocket => emit targetSocket ev p st
  | None =>
      let bucket := default [] (undeliveredMessages st !! userId) in
      let bucket := bucket ++ [mkMessage ev p] in
      mkState (friends st) (socketsByUser st)
              (<[userId := bucket]> (undeliveredMessages st)) (outbox st)
  end.

(** [io.on('connection')]: register, flush the bucket in order, reset it. *)
Definition on_connection (socket : Socket) (st : state) : state :=
  let uid := socket_user socket in
  let st := mkState (friends st) (<[uid := socket]> (socketsByUser st))
                    (undeliveredMessages st) (outbox st) in
  let pending := default [] (undeliveredMessages st !! uid) in
  let st := foldl (fun st m => emit socket (event m) (payload m) st) st pending in
  mkState (friends st) (socketsByUser st)
          (<[uid := []]> (undeliveredMessages st)) (outbox st).

(** [socket.user.friends.has(toUserId)]; a [toUserId] that is not a
    string is in no friend set. *)
Definition has_friend (socket : Socket) (toUserId : option value) (st : state) : option string :=
  match toUserId with
  | Some (VString t) =>
      if decide (t ∈ default ∅ (friends st !! socket_user socket)) then Some t else None
  | _ => None
  end.

Definition on_dh_public (socket : Socket) (arg : object) (st : state) : state :=
  let toUserId := arg !! "toUserId" in
  let publicKey := default VUndefined (arg !! "publicKey") in
  match has_friend socket toUserId st with
  | None => st
  | Some t =>
      sendOrStore t "dh-public"
        (<["publicKey" := publicKey]> {["from" := VString (socket_user socket)]}) st
  end.

(** [{ from: socket.user.id, ...payload }]: the spread comes last. *)
Definition on_secure_message (socket : Socket) (arg : object) (st : state) : state :=
  let toUserId := arg !! "toUserId" in
  match has_friend socket toUserId st with
  | None => st
  | Some t =>
      sendOrStore t "secure-message"
        (arg ∪ {["from" := VString (socket_user socket)]}) st
  end.

Definition on_disconnect (socket : Socket) (st : state) : state :=
  mkState (friends st) (delete (socket_user socket) (socketsByUser st))
          (undeliveredMessages st) (outbox st).

(** What reaches the server, one handler run at a time.  [SetFriends]
    stands for the REST endpoints changing a user's friend set. *)
Inductive input : Type :=
  | Connection (socket : Socket)
  | DhPublic (socket : Socket) (arg : object)
  | SecureMessage (socket : Socket) (arg : object)
  | Disconnect (socket : Socket)
  | SetFriends (userId : string) (fs : gset string).

Definition step (st : state) (i : input) : state :=
  match i with
  | Connection s => on_connection s st
  | DhPublic s arg => on_dh_public s arg st
  | SecureMessage s arg => on_secure_message s arg st
  | Disconnect s => on_disconnect s st
  | SetFriends u fs =>
      mkState (<[u := fs]> (friends st)) (socketsByUser st)
              (undeliveredMessages st) (outbox st)
  end.

(** The messages emitted to one socket, in order. *)
Definition delivered_to (socket : Socket) (log : list emission) : list message :=
  emitted <$> filter (fun e => to_socket e = socket) log.

End Relay.

(** ** The client pipeline (the React component's handlers) *)

Module Client.
Section client.
Context {wc : WebCrypto}.

Record Friend := mkFriend {
  friend_id : string;
  username : string;
}.

Inductive direction := sent_status | received_status.

Record Message := mkMsg {
  id : string;
  from : string;
  text : jsstring;
  imageDataUrl : ImageData;
  createdAt : nat;
  msg_status : direction;
}.

Record DHState := mkDH {
  keyPair : option (PrivateKey * PublicKey);
  sharedKey : option CryptoKey;
  sentPublic : bool;
}.

(** An incoming ['secure-message'] payload. *)
Record SecurePayload := mkPayload {
  payload_from : string;
  payload_imageDataUrl : ImageData;
  payload_iv : jsstring;
}.

(** What the client emits on its socket. *)
Inductive outgoing : Type :=
  | EmitDhPublic (toUserId : string) (publicKey : JsonWebKey)
  | EmitSecureMessage (toUserId : string) (image : ImageData) (iv : jsstring).

(** The component's state and refs, the socket's outgoing log, and the
    environment the handlers read (entropy, clock, canvas support). *)
Record client := mkClient {
  token : option string;
  user : option string;
  friends : list Friend;
  selectedFriendId : option string;
  draft : jsstring;
  status : string;
  flowStage : nat;
  keyVersion : nat;
  messagesVersion : nat;
  threadsRef : gmap string (list Message);
  sharedKeys : gmap string DHState;
  pendingMessagesRef : gmap string (list SecurePayload);
  socketRef : bool;
  sent : list outgoing;
  entropy : nat;
  console : list string;
  now : nat;
  canvas2d : bool;
}.

Definition update_draft (f : jsstring -> jsstring) (c : client) : client :=
  mkClient (token c) (user c) (friends c) (selectedFriendId c) (f (draft c)) (status c) (flowStage c) (keyVersion c) (messagesVersion c) (threadsRef c) (sharedKeys c) (pendingMessagesRef c) (socketRef c) (sent c) (entropy c) (console c) (now c) (canvas2d c).
Definition update_status (f : string -> string) (c : client) : client :=
  mkClient (token c) (user c) (friends c) (selectedFriendId c) (draft c) (f (status c)) (flowStage c) (keyVersion c) (messagesVersion c) (threadsRef c) (sharedKeys c) (pendingMessagesRef c) (socketRef c) (sent c) (entropy c) (console c) (now c) (canvas2d c).
Definition update_flowStage (f : nat -> nat) (c : client) : client :=
  mkClient (token c) (user c) (friends c) (selectedFriendId c) (draft c) (status c) (f (flowStage c)) (keyVersion c) (messagesVersion c) (threadsRef c) (sharedKeys c) (pendingMessagesRef c) (socketRef c) (sent c) (entropy c) (console c) (now c) (canvas2d c).
Definition update_keyVersion (f : nat -> nat) (c : client) : client :=
  mkClient (token c) (user c) (friends c) (selectedFriendId c) (draft c) (status c) (flowStage c) (f (keyVersion c)) (messagesVersion c) (threadsRef c) (sharedKeys c) (pendingMessagesRef c) (socketRef c) (sent c) (entropy c) (console c) (now c) (canvas2d c).
Definition update_messagesVersion (f : nat -> nat) (c : client) : client :=
  mkClient (token c) (user c) (friends c) (selectedFriendId c) (draft c) (status c) (flowStage c) (keyVersion c) (f (messagesVersion c)) (threadsRef c) (sharedKeys c) (pendingMessagesRef c) (socketRef c) (sent c) (entropy c) (console c) (now c) (canvas2d c).
Definition update_threadsRef (f : gmap string (list Message) -> gmap string (list Message)) (c : client) : client :=
  mkClient (token c) (user c) (friends c) (selectedFriendId c) (draft c) (status c) (flowStage c) (keyVersion c) (messagesVersion c) (f (threadsRef c)) (sharedKeys c) (pendingMessagesRef c) (socketRef c) (sent c) (entropy c) (console c) (now c) (canvas2d c).
Definition update_sharedKeys (f : gmap string DHState -> gmap string DHState) (c : client) : client :=
  mkClient (token c) (user c) (friends c) (selectedFriendId c) (draft c) (status c) (flowStage c) (keyVersion c) (messagesVersion c) (threadsRef c) (f (sharedKeys c)) (pendingMessagesRef c) (socketRef c) (sent c) (entropy c) (console c) (now c) (canvas2d c).
Definition update_pendingMessagesRef (f : gmap string (list SecurePayload) -> gmap string (list SecurePayload)) (c : client) : client :=
  mkClient (token c) (user c) (friends c) (selectedFriendId c) (draft c) (status c) (flowStage c) (keyVersion c) (messagesVersion c) (threadsRef c) (sharedKeys c) (f (pendingMessagesRef c)) (socketRef c) (sent c) (entropy c) (console c) (now c) (canvas2d c).
Definition update_sent (f : list outgoing -> list outgoing) (c : client) : client :=
  mkClient (token c) (user c) (friends c) (selectedFriendId c) (draft c) (status c) (flowStage c) (keyVersion c) (messagesVersion c) (threadsRef c) (sharedKeys c) (pendingMessagesRef c) (socketRef c) (f (sent c)) (entropy c) (console c) (now c) (canvas2d c).
Definition update_entropy (f : nat -> nat) (c : client) : client :=
  mkClient (token c) (user c) (friends c) (selectedFriendId c) (draft c) (status c) (flowStage c) (keyVersion c) (messagesVersion c) (threadsRef c) (sharedKeys c) (pendingMessagesRef c) (socketRef c) (sent c) (f (entropy c)) (console c) (now c) (canvas2d c).
Definition update_console (f : list string -> list string) (c : client) : client :=
  mkClient (token c) (user c) (friends c) (selectedFriendId c) (draft c) (status c) (flowStage c) (keyVersion c) (messagesVersion c) (threadsRef c) (sharedKeys c) (pendingMessagesRef c) (socketRef c) (sent c) (entropy c) (f (console c)) (now c) (canvas2d c).

(** Handlers run one at a time: a call runs to its end before the next
    one starts, so nothing runs between an [await] and its resumption; a
    throw keeps the mutations made so far.  Calls that overlap are treated
    apart, with the functions split at their awaits. *)
Definition M (A : Type) : Type := client -> client * completion A.

#[global] Instance M_ret : MRet M := fun A a c => (c, Return a).
#[global] Instance M_bind : MBind M := fun A B k m c =>
  match m c with
  | (c', Return a) => k a c'
  | (c', Throw e) => (c', Throw e)
  end.

Definition get : M client := fun c => (c, Return c).
Definition modify (f : client -> client) : M unit := fun c => (f c, Return tt).
Definition lift {A} (r : completion A) : M A := fun c => (c, r).
Definition try_catch {A} (body : M A) (handler : exn -> M A) : M A := fun c =>
  match body c with
  | (c', Throw e) => handler e c'
  | r => r
  end.
Definition for_of {A} (l : list A) (body : A -> M unit) : M unit :=
  foldr (fun a rest => body a ≫= fun _ => rest) (mret tt) l.

(** The [DHState] object of a peer lives in [sharedKeys]; a handler that
    holds it reads and writes it through the map. *)
Definition emptyDH : DHState := mkDH None None false.
Definition dh_state (friendId : string) (c : client) : DHState :=
  default emptyDH (sharedKeys c !! friendId).
Definition dh_write (friendId : string) (f : DHState -> DHState) : M unit :=
  modify (fun c => update_sharedKeys (<[friendId := f (dh_state friendId c)]>) c).

Definition setStatus (s : string) : M unit := modify (update_status (fun _ => s)).
Definition setFlowStage (n : nat) : M unit := modify (update_flowStage (fun _ => n)).
Definition console_error (s : string) : M unit := modify (update_console (fun l => l ++ [s])).
Definition socket_emit (o : outgoing) : M unit :=
  modify (fun c => if socketRef c then update_sent (fun l => l ++ [o]) c else c).
Definition fresh : M nat :=
  fun c => (update_entropy S c, Return (entropy c)).

Definition finalFlowStageIndex : nat := 5.

Definition pushMessage (friendId : string) (m : Message) : M unit :=
  modify (fun c =>
    update_messagesVersion S
      (update_threadsRef (<[friendId := default [] (threadsRef c !! friendId) ++ [m]]>) c)).

Definition queuePendingMessage (friendId : string) (p : SecurePayload) : M unit :=
  modify (fun c =>
    let bucket := default [] (pendingMessagesRef c !! friendId) in
    update_pendingMessagesRef (<[friendId := bucket ++ [p]]>) c).

Definition ensureDHState (friendId : string) : M unit :=
  c ← get;
  (if sharedKeys c !! friendId is None
   then modify (update_sharedKeys (<[friendId := emptyDH]>))
   else mret tt);;
  c ← get;
  if keyPair (dh_state friendId c) is None then
    n ← fresh;
    dh_write friendId (fun s => mkDH (Some (Crypto.createKeyPair n)) (sharedKey s) (sentPublic s))
  else mret tt.

Definition emitPublicKey (friendId : string) : M unit :=
  ensureDHState friendId;;
  c ← get;
  let state := dh_state friendId c in
  match sentPublic state, keyPair state with
  | false, Some kp =>
      let exported := Crypto.exportPublicKey (snd kp) in
      socket_emit (EmitDhPublic friendId exported);;
      dh_write friendId (fun s => mkDH (keyPair s) (sharedKey s) true)
  | _, _ => mret tt
  end.

Definition getFriendName (friendId : string) (c : client) : string :=
  match List.find (fun f => bool_decide (friend_id f = friendId)) (friends c) with
  | Some f => username f
  | None => "Friend"
  end.

Definition decryptIncoming (p : SecurePayload) : M unit :=
  c ← get;
  let from := payload_from p in
  match sharedKey (dh_state from c) with
  | None =>
      queuePendingMessage from p;;
      emitPublicKey from;;
      setStatus "Waiting for peer key to decrypt message"
  | Some key =>
      try_catch
        (stegoPayload ← lift (Stego.extractTextFromImage (canvas2d c) (payload_imageDataUrl p));
         cipherBytes ← lift (Crypto.base64ToBytes stegoPayload);
         ivBytes ← lift (Crypto.base64ToBytes (payload_iv p));
         plain ← lift (Crypto.decryptWithKey key cipherBytes ivBytes);
         n ← fresh;
         c ← get;
         pushMessage from (mkMsg (randomUUID n) from plain (payload_imageDataUrl p)
                                 (now c) received_status);;
         setFlowStage finalFlowStageIndex)
        (fun _ => console_error "decrypt incoming failed")
  end.

Definition runPendingMessages (friendId : string) : M unit :=
  c ← get;
  match pendingMessagesRef c !! friendId with
  | None | Some [] => mret tt
  | Some bucket =>
      modify (update_pendingMessagesRef (delete friendId));;
      for_of bucket decryptIncoming
  end.

Definition deriveSharedSecret (friendId : string) (theirPublic : JsonWebKey) : M unit :=
  ensureDHState friendId;;
  imported ← lift (Crypto.importPublicKey theirPublic);
  c ← get;
  match keyPair (dh_state friendId c) with
  | None => lift (Throw TypeError)
  | Some kp =>
      key ← lift (Crypto.deriveSharedKey (fst kp) imported);
      dh_write friendId (fun s => mkDH (keyPair s) (Some key) (sentPublic s));;
      modify (update_keyVersion S);;
      c ← get;
      setStatus ("Secure channel established with " +:+ getFriendName friendId c);;
      runPendingMessages friendId;;
      c ← get;
      if sentPublic (dh_state friendId c) then mret tt else emitPublicKey friendId
  end.

Definition handleDhPayload (from : string) (publicKey : JsonWebKey) : M unit :=
  deriveSharedSecret from publicKey.

Definition handleIncomingPayload (p : SecurePayload) : M unit := decryptIncoming p.

Definition ensureSharedKey (friendId : string) : M (option CryptoKey) :=
  c ← get;
  match sharedKey (dh_state friendId c) with
  | Some key => mret (Some key)
  | None => emitPublicKey friendId;; mret None
  end.

(** A string is falsy when it is missing or empty. *)
Definition truthy (o : option string) : option string :=
  match o with
  | Some s => if bool_decide (s = "") then None else Some s
  | None => None
  end.

Definition handleSendMessage : M unit :=
  c ← get;
  match truthy (token c), truthy (selectedFriendId c), JS.trim (draft c) with
  | Some _, Some selected, (_ :: _) as messageText =>
      sharedKey ← ensureSharedKey selected;
      match sharedKey with
      | None => setStatus "Waiting for shared key exchange"
      | Some key =>
          setFlowStage 0;;
          try_catch
            (setFlowStage 1;;
             n ← fresh;
             '(cipherBytes, iv) ← lift (Crypto.encryptWithKey n key messageText);
             setFlowStage 2;;
             cipherBase64 ← lift (Crypto.bufferToBase64 cipherBytes);
             setFlowStage 3;;
             stegoImage ← lift (Stego.embedTextInImage (canvas2d c) cipherBase64);
             setFlowStage 4;;
             (if socketRef c
              then ivBase64 ← lift (Crypto.bufferToBase64 iv);
                   socket_emit (EmitSecureMessage selected stegoImage ivBase64)
              else mret tt);;
             n ← fresh;
             pushMessage selected
               (mkMsg (randomUUID n) (default "me" (user c)) messageText stegoImage
                      (now c) sent_status);;
             modify (update_draft (fun _ => []));;
             setStatus "Encrypted message sent via image";;
             setFlowStage finalFlowStageIndex)
            (fun _ =>
               console_error "send message error";;
               setStatus "Failed to send secure message";;
               setFlowStage finalFlowStageIndex)
      end
  | _, _, _ => mret tt
  end.

End client.
End Client.

(** ** A small instance of the platform, for running the handlers

    Diffie-Hellman in the multiplicative group modulo 23 with generator 5;
    an exported key is the public number, and a number outside 1..22 is a
    malformed key.  The cipher masks every byte with the key and appends
    the key as its tag. *)

Module Toy.
Local Open Scope Z_scope.

Definition toy_generate (n : nat) : Z * Z :=
  let a := Z.of_nat n mod 21 + 1 in (a, 5 ^ a mod 23).

Definition toy_import (jwk : Z) : completion Z :=
  if (0 <? jwk) && (jwk <? 23) then Return jwk else Throw DataError.

Definition toy_derive (a y : Z) : completion Z := Return (y ^ a mod 23).

Definition toy_encrypt (key : Z) (iv data : list Z) : completion (list Z) :=
  Return ((fun b => Z.lxor b key) <$> data ++ [key]).

Definition toy_decrypt (key : Z) (iv data : list Z) : completion (list Z) :=
  match reverse data with
  | tag :: body =>
      if tag =? key then Return ((fun b => Z.lxor b key) <$> reverse body)
      else Throw OperationError
  | [] => Throw OperationError
  end.

#[local] Instance toy_crypto : WebCrypto := {|
  CryptoKey := Z;
  PrivateKey := Z;
  PublicKey := Z;
  JsonWebKey := Z;
  generateKey := toy_generate;
  exportKey := fun y => y;
  importKey := toy_import;
  deriveKey := toy_derive;
  getRandomValues := fun n => replicate 12 (Z.of_nat n mod 256);
  encrypt := toy_encrypt;
  decrypt := toy_decrypt;
  randomUUID := fun _ => "00000000-0000-4000-8000-000000000000";
|}.

(** Alice's client: logged in, Bob selected, "hi" in the editor, no key
    exchanged yet. *)
Definition alice : Client.client :=
  Client.mkClient (Some "token") (Some "alice") [Client.mkFriend "bob" "Bob"]
    (Some "bob") [104; 105] "Ready" 0 0 0 ∅ ∅ ∅ true [] 0 [] 0 true.


(** Sockets of the relay: Alice's, and two of Bob's. *)
Definition alice_socket : Relay.Socket := Relay.mkSocket 1 "alice".
Definition bob_socket : Relay.Socket := Relay.mkSocket 2 "bob".
Definition bob_newer_socket : Relay.Socket := Relay.mkSocket 3 "bob".

(** A relay with nobody connected; Alice's only friend is Carol. *)
Definition relay0 : Relay.state :=
  Relay.mkState {["alice" := {["carol"]}]} ∅ ∅ [].

Definition event1 : Relay.message :=
  Relay.mkMessage "dh-public" {["from" := Relay.VString "alice"]}.
Definition event2 : Relay.message :=
  Relay.mkMessage "secure-message" {["from" := Relay.VString "alice"]}.
Definition event3 : Relay.message :=
  Relay.mkMessage "secure-message" {["from" := Relay.VString "carol"]}.

(** Three events stored for Bob, Alice connecting in between. *)
Definition relay_with_three : Relay.state :=
  Relay.sendOrStore "bob" (Relay.event event3) (Relay.payload event3)
    (Relay.sendOrStore "bob" (Relay.event event2) (Relay.payload event2)
       (Relay.step
          (Relay.sendOrStore "bob" (Relay.event event1) (Relay.payload event1) relay0)
          (Relay.Connection alice_socket))).

End Toy.

(** * The vocabulary of the properties *)

Section codec_vocabulary.
Local Open Scope Z_scope.
Import JS Stego.

(** A loop [for i < k: a[g i] = h a i]. *)
Definition fill {A} (g : nat -> nat) (h : list A -> nat -> A) (l : list A) (k : nat)
    : list A :=
  foldl (fun a i => <[g i := h a i]> a) l (seq 0 k).

(** The unsigned value of a bit list, first bit most significant; only
    the low bit of each element counts. *)
Definition bits_value (bits : list Z) : Z :=
  foldl (fun u b => 2 * u + b mod 2) 0 bits.

(** The [n] low bits of [v], most significant first. *)
Definition msb_bits (v : Z) (n : nat) : list Z :=
  (fun j => v / 2 ^ Z.of_nat (n - 1 - j) mod 2) <$> seq 0 n.

(** A string's code units are 16-bit. *)
Definition wf_string (s : jsstring) : Prop := Forall (fun c => 0 <= c <= 0xFFFF) s.

(** No unpaired surrogate. *)
Fixpoint well_paired (s : jsstring) : bool :=
  match s with
  | [] => true
  | c :: rest =>
      if is_lead c then
        match rest with
        | d :: rest' => is_trail d && well_paired rest'
        | [] => false
        end
      else negb (is_trail c) && well_paired rest
  end.

Definition is_scalar (c : Z) : Prop :=
  0 <= c <= 0x10FFFF /\ ~ (0xD800 <= c <= 0xDFFF).

Definition is_byte (b : Z) : Prop := 0 <= b < 256.

(** The part of [extractTextFromImage] after the pixels are read. *)
Definition decode_frame (bits : list Z) : completion jsstring :=
  let payloadLength := bitsToNumber (JS.slice bits 0 32) in
  let payloadBits := JS.slice bits 32 (32 + payloadLength * 8) in
  bytes ← Uint8Array_new payloadLength;
  Return (JS.TextDecoder_decode (read_bytes payloadBits payloadLength bytes)).

(** The error of a payload that does not fit the cover. *)
Definition capacity_error : exn := Error "Message is too long for the cover image".

(** The byte count the first 32 blue-channel low bits declare. *)
Definition declared_length (img : ImageData) : Z :=
  bitsToNumber (JS.slice (read_bits img) 0 32).

(** The bits available in the image: one per pixel. *)
Definition available_bits (img : ImageData) : Z :=
  Z.of_nat (width img * height img).

(** The bytes [extractTextFromImage] hands to the decoder. *)
Definition frame_bytes (img : ImageData) : list Z :=
  let n := declared_length img in
  read_bytes (JS.slice (read_bits img) 32 (32 + n * 8)) n (replicate (Z.to_nat n) 0).

(** A byte sequence is valid UTF-8 when it encodes some scalar values. *)
Definition valid_utf8 (bytes : list Z) : Prop :=
  exists cps, Forall is_scalar cps /\ JS.utf8_encode cps = bytes.

(** An 8x8 cover whose prefix declares 7 bytes: 88 bits wanted, 64 there. *)
Definition short_carrier : ImageData :=
  mkImageData 8 8 (write_bits (numberToBits 7 32) (cover 8 8)).

(** An 8x8 cover framing the single byte 0xFF. *)
Definition invalid_utf8_carrier : ImageData :=
  mkImageData 8 8 (write_bits (numberToBits 1 32 ++ numberToBits 0xFF 8) (cover 8 8)).

(** A 6-bit group of base64. *)
Definition is_group (g : Z) : Prop := 0 <= g < 64.
End codec_vocabulary.

Section relay_vocabulary.
Import Relay.

(** The undelivered bucket of a user; a missing bucket is empty. *)
Definition queue_of (u : string) (st : state) : list message :=
  default [] (undeliveredMessages st !! u).

(** The trust test of the two listeners: the sender's friend set holds
    the target. *)
Definition trusted (st : state) (a b : string) : Prop :=
  b ∈ default ∅ (friends st !! a).

(** An input that neither connects [u] nor is addressed to [u]. *)
Definition foreign (u : string) (i : input) : Prop :=
  match i with
  | Connection s => socket_user s <> u
  | DhPublic _ arg | SecureMessage _ arg => arg !! "toUserId" <> Some (VString u)
  | Disconnect _ | SetFriends _ _ => True
  end.

(** While [u] is offline: events are stored for [u], in this order, among
    inputs that do not concern [u]. *)
Inductive offline_trace (u : string) : state -> list message -> state -> Prop :=
  | offline_done st : offline_trace u st [] st
  | offline_store st ev p es st' :
      offline_trace u (sendOrStore u ev p st) es st' ->
      offline_trace u st (mkMessage ev p :: es) st'
  | offline_foreign st i es st' :
      foreign u i ->
      offline_trace u (step st i) es st' ->
      offline_trace u st es st'.
End relay_vocabulary.

Section client_vocabulary.
Context {wc : WebCrypto}.
Import Client.

(** [preserves R m]: running [m] relates the state before to the state
    after, whether [m] returns or throws. *)
Definition preserves {A} (R : client -> client -> Prop) (m : M A) : Prop :=
  forall c, R c (m c).1.

Definition is_announce (o : outgoing) : Prop :=
  match o with EmitDhPublic _ _ => True | EmitSecureMessage _ _ _ => False end.

(** Nothing but public-key announces was emitted, and the draft and the
    socket are as before. *)
Definition only_announces (c c' : client) : Prop :=
  draft c' = draft c /\ socketRef c' = socketRef c
  /\ exists l, sent c' = sent c ++ l /\ Forall is_announce l.

(** The buffers of the pipeline: pending payloads, threads and draft. *)
Definition keeps_buffers (c c' : client) : Prop :=
  pendingMessagesRef c' = pendingMessagesRef c
  /\ threadsRef c' = threadsRef c
  /\ draft c' = draft c.

(** The peer's key is malformed (import throws) or unusable (derivation
    throws whatever the private key). *)
Definition agreement_fails (theirPublic : JsonWebKey) (e : exn) : Prop :=
  match Crypto.importPublicKey theirPublic with
  | Throw e' => e' = e
  | Return imported => forall privateKey, Crypto.deriveSharedKey privateKey imported = Throw e
  end.

(** The shared key and the pending bucket of [peer] are as before. *)
Definition keeps_peer (peer : string) (c c' : client) : Prop :=
  sharedKey (dh_state peer c') = sharedKey (dh_state peer c)
  /\ pendingMessagesRef c' !! peer = pendingMessagesRef c !! peer.

(** A key exists for [peer] and its bucket is empty. *)
Definition key_no_bucket (peer : string) (c : client) : Prop :=
  is_Some (sharedKey (dh_state peer c))
  /\ default [] (pendingMessagesRef c !! peer) = [].

Definition keeps_key_no_bucket (peer : string) (c c' : client) : Prop :=
  key_no_bucket peer c -> key_no_bucket peer c'.

Definition is_secure_message (o : outgoing) : Prop :=
  match o with EmitSecureMessage _ _ _ => True | EmitDhPublic _ _ => False end.

#[global] Instance is_secure_message_dec o : Decision (is_secure_message o).
Proof. destruct o; simpl; apply _. Defined.

(** The ['secure-message'] events among the emitted ones. *)
Definition secure_messages (l : list outgoing) : list outgoing :=
  filter is_secure_message l.
End client_vocabulary.

(** ** Further vocabulary: the replay of held payloads *)

Section replay_vocabulary.
Context {wc : WebCrypto}.
Import Client.

(** The state [deriveSharedSecret] leaves when it has stored the derived
    key for [peer]: key, key version and status. *)
Definition with_key (peer : string) (key : CryptoKey) (c : client) : client :=
  update_status (fun _ => "Secure channel established with " +:+ getFriendName peer c)
    (update_keyVersion S
       (update_sharedKeys
          (<[peer := mkDH (keyPair (dh_state peer c)) (Some key)
                          (sentPublic (dh_state peer c))]>) c)).

(** [runPendingMessages] takes a bucket that holds payloads out of the
    buffer. *)
Definition take_out (peer : string) (c : client) : client :=
  match pendingMessagesRef c !! peer with
  | None | Some [] => c
  | Some _ => update_pendingMessagesRef (delete peer) c
  end.

(** The payloads of a bucket handed to [decryptIncoming], first to last. *)
Definition replay (bucket : list SecurePayload) (c : client) : client :=
  foldl (fun c p => (decryptIncoming p c).1) c bucket.

(** A set [sentPublic] mark of [peer] stays set. *)
Definition keeps_mark (peer : string) (c c' : client) : Prop :=
  sentPublic (dh_state peer c) = true -> sentPublic (dh_state peer c') = true.
End replay_vocabulary.

(** ** Further vocabulary: the codec *)

Section codec_coverage_vocabulary.
Local Open Scope Z_scope.
Import JS Stego.

(** The low bit of the blue channel of pixel [i], as the extractor reads
    it. *)
Definition blue_lsb (img : ImageData) (i : nat) : Z :=
  JS.band (JS.at0 (data img) (i * 4 + 2)) 1.

(** The number of leading pixels a frame declaring [n] bytes spans; a
    negative count spans the prefix only. *)
Definition frame_span (n : Z) : Z := 32 + 8 * Z.max n 0.

(** Every pixel is opaque.  What [getImageData] gives back after
    [drawImage] is then the image's own bytes: alpha is premultiplied on the
    canvas, which loses colour only where alpha is below 255. *)
Definition opaque (img : ImageData) : Prop :=
  Forall (fun i => data img !! (i * 4 + 3)%nat = Some 0xff)
         (seq 0 (width img * height img)).

(** Two opaque 8x8 images that frame the byte 65 and differ in red, green,
    the blue high bits and a blue low bit past the frame. *)
Definition framed_A : ImageData :=
  mkImageData 8 8 (write_bits (textToBits [65]) (cover 8 8)).

(** What embedding "hi" returns. *)
Definition embedded_hi : ImageData :=
  mkImageData CANVAS_SIZE CANVAS_SIZE
    (write_bits (textToBits [104; 105]) (cover CANVAS_SIZE CANVAS_SIZE)).

Definition framed_A_repainted : ImageData :=
  mkImageData 8 8
    (<[0%nat := 200]> (<[1%nat := 7]> (<[6%nat := 0xF4]>
       (<[202%nat := 0x21]> (write_bits (textToBits [65]) (cover 8 8)))))).

(** A code unit of base64 text: of the alphabet, or the padding [=]. *)
Definition is_b64_text (c : Z) : Prop := is_Some (b64_index c) \/ c = 61.

(** A 7-bit code unit. *)
Definition is_ascii (c : Z) : Prop := 0 <= c < 128.
End codec_coverage_vocabulary.

(** ** Further vocabulary: the relay *)

Section relay_coverage_vocabulary.
Import Relay.

(** The presence map and the buckets agree: a handle is filed under its
    own user, and a user with a handle has nothing waiting. *)
Definition consistent (st : state) : Prop :=
  forall u s, socketsByUser st !! u = Some s -> socket_user s = u /\ queue_of u st = [].


End relay_coverage_vocabulary.



(** Carol's socket, and what Alice sends her. *)
Definition carol_socket : Relay.Socket := Relay.mkSocket 4 "carol".

Definition note (n : string) : Relay.object :=
  {["toUserId" := Relay.VString "carol"; "iv" := Relay.VString n]}.


(** Alice is connected and her first note waits for Carol. *)
Definition relay_busy : Relay.state :=
  foldl Relay.step Toy.relay0
    [Relay.Connection Toy.alice_socket; Relay.SecureMessage Toy.alice_socket (note "1")].

(** ** The HTTP endpoints (Express server)

    The server in memory-only mode: [persistUser] returns at once, so a
    handler runs to its end before the next one starts.  A request carries
    its [Authorization] header and the fields of its JSON body, each a
    string or missing, as the client sends them. *)

(** What the endpoints take from Node: the SHA-256 hex digest and the
    strings' [toLowerCase].  Tokens and UUIDs are drawn by the runtime and
    come with the request. *)
Class Node := {
  sha256_hex : string -> string;
  toLowerCase : string -> string;
}.

Module Rest.
Section endpoints.
Context {node : Node}.

(** A JavaScript [Set] of strings keeps insertion order. *)
Definition set_has (x : string) (s : list string) : bool := bool_decide (x ∈ s).
Definition set_add (x : string) (s : list string) : list string :=
  if set_has x s then s else s ++ [x].
Definition set_delete (x : string) (s : list string) : list string :=
  filter (fun y => y <> x) s.

Record User := mkUser {
  id : string;
  username : string;
  passwordHash : string;
  friends : list string;
  incomingRequests : list string;
  outgoingRequests : list string;
}.

Definition with_friends (f : list string -> list string) (u : User) : User :=
  mkUser (id u) (username u) (passwordHash u) (f (friends u)) (incomingRequests u)
         (outgoingRequests u).
Definition with_incomingRequests (f : list string -> list string) (u : User) : User :=
  mkUser (id u) (username u) (passwordHash u) (friends u) (f (incomingRequests u))
         (outgoingRequests u).
Definition with_outgoingRequests (f : list string -> list string) (u : User) : User :=
  mkUser (id u) (username u) (passwordHash u) (friends u) (incomingRequests u)
         (f (outgoingRequests u)).

(** The [users] map, in insertion order; both [users.set] calls of the
    server file a record under its own [id]. *)
Definition users_get (userId : string) (us : list User) : option User :=
  List.find (fun u => bool_decide (id u = userId)) us.

Definition users_set (user : User) (us : list User) : list User :=
  match users_get (id user) us with
  | Some _ => (fun u => if bool_decide (id u = id user) then user else u) <$> us
  | None => us ++ [user]
  end.

(** The process-wide maps and the log of what the server emitted. *)
Record server := mkServer {
  users : list User;
  sessions : gmap string string;
  socketsByUser : gmap string Relay.Socket;
  undeliveredMessages : gmap string (list Relay.message);
  outbox : list Relay.emission;
}.

Definition set_users (us : list User) (sv : server) : server :=
  mkServer us (sessions sv) (socketsByUser sv) (undeliveredMessages sv) (outbox sv).

(** A mutation of the user object stored under [userId]. *)
Definition update_user (userId : string) (f : User -> User) (sv : server) : server :=
  set_users ((fun u => if bool_decide (id u = userId) then f u else u) <$> users sv) sv.

Definition emit (sock : Relay.Socket) (ev : string) (p : Relay.object) (sv : server) : server :=
  mkServer (users sv) (sessions sv) (socketsByUser sv) (undeliveredMessages sv)
           (outbox sv ++ [Relay.mkEmission sock (Relay.mkMessage ev p)]).

Record UserPayload := mkUserPayload {
  payload_id : string;
  payload_username : string;
  payload_friends : list string;
}.

(** The JSON bodies the endpoints answer with. *)
Inductive json : Type :=
  | JError (error : string)
  | JSuccess
  | JLogin (token : string) (user : UserPayload)
  | JUser (user : UserPayload)
  | JFriends (friends : list (string * string))
  | JIncoming (incoming : list (string * string))
  | JAccepted (friend : string * string).

Record response := mkResponse {
  status : nat;
  body : json;
}.

Definition res_json (b : json) : response := mkResponse 200 b.

Definition hashPassword (password : string) : string := sha256_hex password.

Definition buildUserPayload (user : User) : UserPayload :=
  mkUserPayload (id user) (username user) (friends user).

(** A string is falsy when it is missing or empty. *)
Definition truthy (o : option string) : option string :=
  match o with
  | Some s => if bool_decide (s = "") then None else Some s
  | None => None
  end.

Definition slice (start : nat) (s : string) : string :=
  String.substring start (String.length s - start) s.

(** The middleware: the response it ends the request with, or
    [req.user] and [req.token]. *)
Definition requireAuth (authorization : option string) (sv : server)
    : response + User * string :=
  match authorization with
  | Some authHeader =>
      if String.prefix "Bearer " authHeader then
        let token := slice 7 authHeader in
        match truthy (sessions sv !! token) with
        | None => inl (mkResponse 401 (JError "Invalid token"))
        | Some userId =>
            match users_get userId (users sv) with
            | None => inl (mkResponse 401 (JError "User no longer exists"))
            | Some user => inr (user, token)
            end
        end
      else inl (mkResponse 401 (JError "Missing token"))
  | None => inl (mkResponse 401 (JError "Missing token"))
  end.

(** [users.values()] searched by user name, letter case apart. *)
Definition find_by_name (name : string) (us : list User) : option User :=
  List.find (fun u => bool_decide (toLowerCase (username u) = toLowerCase name)) us.

(** [POST /api/register]; [uuid] is what [crypto.randomUUID()] returns. *)
Definition api_register (req_username req_password : option string) (uuid : string)
    (sv : server) : server * response :=
  match truthy req_username, truthy req_password with
  | Some name, Some password =>
      let normalized := toLowerCase name in
      if existsb (fun u => bool_decide (toLowerCase (username u) = normalized)) (users sv)
      then (sv, mkResponse 409 (JError "Username already exists"))
      else
        let user := mkUser uuid name (hashPassword password) [] [] [] in
        (set_users (users_set user (users sv)) sv, mkResponse 201 JSuccess)
  | _, _ => (sv, mkResponse 400 (JError "Username and password required"))
  end.

(** [POST /api/login]; [token] is what [createToken()] returns. *)
Definition api_login (req_username req_password : option string) (token : string)
    (sv : server) : server * response :=
  match truthy req_username, truthy req_password with
  | Some name, Some password =>
      match find_by_name name (users sv) with
      | Some user =>
          if bool_decide (passwordHash user = hashPassword password) then
            (mkServer (users sv) (<[token := id user]> (sessions sv)) (socketsByUser sv)
                      (undeliveredMessages sv) (outbox sv),
             res_json (JLogin token (buildUserPayload user)))
          else (sv, mkResponse 401 (JError "Invalid credentials"))
      | None => (sv, mkResponse 401 (JError "Invalid credentials"))
      end
  | _, _ => (sv, mkResponse 400 (JError "Username and password required"))
  end.

Definition api_me (authorization : option string) (sv : server) : server * response :=
  match requireAuth authorization sv with
  | inl res => (sv, res)
  | inr (user, _) => (sv, res_json (JUser (buildUserPayload user)))
  end.

(** The users behind a list of ids, those that no longer exist left out. *)
Definition entries (ids : list string) (sv : server) : list (string * string) :=
  omap (fun userId => u ← users_get userId (users sv); Some (id u, username u)) ids.

Definition api_friends (authorization : option string) (sv : server) : server * response :=
  match requireAuth authorization sv with
  | inl res => (sv, res)
  | inr (user, _) => (sv, res_json (JFriends (entries (friends user) sv)))
  end.

Definition api_requests (authorization : option string) (sv : server) : server * response :=
  match requireAuth authorization sv with
  | inl res => (sv, res)
  | inr (user, _) => (sv, res_json (JIncoming (entries (incomingRequests user) sv)))
  end.

(** The payload of the two notifications: [{ id, username }] of the
    requesting user. *)
Definition notice (user : User) : Relay.object :=
  <["username" := Relay.VString (username user)]> {["id" := Relay.VString (id user)]}.

Definition notify (userId : string) (ev : string) (p : Relay.object) (sv : server) : server :=
  match socketsByUser sv !! userId with
  | Some sock => emit sock ev p sv
  | None => sv
  end.

Definition api_friend_request (authorization : option string) (req_username : option string)
    (sv : server) : server * response :=
  match requireAuth authorization sv with
  | inl res => (sv, res)
  | inr (user, _) =>
      match truthy req_username with
      | None => (sv, mkResponse 400 (JError "Missing username"))
      | Some name =>
          match find_by_name name (users sv) with
          | None => (sv, mkResponse 404 (JError "Target user not found"))
          | Some target =>
              if bool_decide (id target = id user)
              then (sv, mkResponse 400 (JError "Cannot add yourself"))
              else if set_has (id target) (friends user)
              then (sv, mkResponse 400 (JError "Already friends"))
              else if set_has (id user) (incomingRequests target)
              then (sv, mkResponse 400 (JError "Request already sent"))
              else
                let sv := update_user (id target)
                            (with_incomingRequests (set_add (id user))) sv in
                let sv := update_user (id user)
                            (with_outgoingRequests (set_add (id target))) sv in
                let sv := notify (id target) "friend-request" (notice user) sv in
                (sv, res_json JSuccess)
          end
      end
  end.

Definition api_friend_accept (authorization : option string) (req_userId : option string)
    (sv : server) : server * response :=
  match requireAuth authorization sv with
  | inl res => (sv, res)
  | inr (user, _) =>
      match truthy req_userId with
      | Some userId =>
          if set_has userId (incomingRequests user) then
            match users_get userId (users sv) with
            | None =>
                (update_user (id user) (with_incomingRequests (set_delete userId)) sv,
                 mkResponse 404 (JError "Requesting user no longer exists"))
            | Some requester =>
                let sv := update_user (id user) (with_incomingRequests (set_delete userId)) sv in
                let sv := update_user (id user) (with_friends (set_add userId)) sv in
                let sv := update_user (id requester) (with_friends (set_add (id user))) sv in
                let sv := update_user (id requester)
                            (with_outgoingRequests (set_delete (id user))) sv in
                let sv := notify userId "friend-accepted" (notice user) sv in
                (sv, res_json (JAccepted (id requester, username requester)))
            end
          else (sv, mkResponse 400 (JError "No incoming request from that user"))
      | None => (sv, mkResponse 400 (JError "No incoming request from that user"))
      end
  end.

(** An HTTP request: the [Authorization] header and the fields of the JSON
    body, each a string or missing, and what the runtime draws for it. *)
Inductive request : Type :=
  | Register (req_username req_password : option string) (uuid : string)
  | Login (req_username req_password : option string) (token : string)
  | Me (authorization : option string)
  | Friends (authorization : option string)
  | Requests (authorization : option string)
  | FriendRequest (authorization : option string) (req_username : option string)
  | FriendAccept (authorization : option string) (req_userId : option string).

Definition handle (r : request) (sv : server) : server * response :=
  match r with
  | Register name password uuid => api_register name password uuid sv
  | Login name password token => api_login name password token sv
  | Me authorization => api_me authorization sv
  | Friends authorization => api_friends authorization sv
  | Requests authorization => api_requests authorization sv
  | FriendRequest authorization name => api_friend_request authorization name sv
  | FriendAccept authorization userId => api_friend_accept authorization userId sv
  end.

(** The socket middleware [io.use]: the error it refuses the handshake
    with, or [socket.user]. *)
Definition io_use (token : option string) (sv : server) : string + User :=
  match truthy token with
  | None => inl "token required"
  | Some token =>
      match truthy (sessions sv !! token) with
      | None => inl "invalid token"
      | Some userId =>
          match users_get userId (users sv) with
          | None => inl "user not found"
          | Some user => inr user
          end
      end
  end.

(** The relay's share of the server: the friend sets of the user records
    and the three socket-side fields. *)
Definition friends_view (us : list User) : gmap string (gset string) :=
  list_to_map ((fun u => (id u, list_to_set (friends u))) <$> us).

Definition relay_state (sv : server) : Relay.state :=
  Relay.mkState (friends_view (users sv)) (socketsByUser sv) (undeliveredMessages sv)
                (outbox sv).

Definition with_relay (st : Relay.state) (sv : server) : server :=
  mkServer (users sv) (sessions sv) (Relay.socketsByUser st) (Relay.undeliveredMessages st)
           (Relay.outbox st).

(** What reaches the server: an HTTP request, a socket handshake, or an
    event of a socket. *)
Inductive input : Type :=
  | Http (r : request)
  | Handshake (token : option string) (socket_id : nat)
  | OnDhPublic (socket : Relay.Socket) (arg : Relay.object)
  | OnSecureMessage (socket : Relay.Socket) (arg : Relay.object)
  | OnDisconnect (socket : Relay.Socket).

Definition step (sv : server) (i : input) : server :=
  match i with
  | Http r => (handle r sv).1
  | Handshake token socket_id =>
      match io_use token sv with
      | inl _ => sv
      | inr user =>
          with_relay (Relay.on_connection (Relay.mkSocket socket_id (id user)) (relay_state sv)) sv
      end
  | OnDhPublic socket arg => with_relay (Relay.on_dh_public socket arg (relay_state sv)) sv
  | OnSecureMessage socket arg =>
      with_relay (Relay.on_secure_message socket arg (relay_state sv)) sv
  | OnDisconnect socket => with_relay (Relay.on_disconnect socket (relay_state sv)) sv
  end.

End endpoints.
End Rest.

(** ** A small instance of the server's platform

    The digest is a stand-in that tags its input; [toLowerCase] maps the
    letters A to Z. *)

Module ToyServer.

Definition lower_ascii (a : Ascii.ascii) : Ascii.ascii :=
  let n := Ascii.nat_of_ascii a in
  if (65 <=? n)%nat && (n <=? 90)%nat then Ascii.ascii_of_nat (n + 32) else a.

Fixpoint toy_lower (s : string) : string :=
  match s with
  | EmptyString => EmptyString
  | String a rest => String (lower_ascii a) (toy_lower rest)
  end.

#[local] Instance toy_node : Node := {|
  sha256_hex := fun s => "sha256:" +:+ s;
  toLowerCase := toy_lower;
|}.

Definition alice : Rest.User := Rest.mkUser "id-a" "Alice" (sha256_hex "pw-a") [] [] [].
Definition bob : Rest.User := Rest.mkUser "id-b" "Bob" (sha256_hex "pw-b") [] ["id-a"] [].

(** Alice and Bob are registered and logged in; Alice has asked Bob. *)
Definition server0 : Rest.server :=
  Rest.mkServer [Rest.with_outgoingRequests (fun _ => ["id-b"]) alice; bob]
    {["tok-a" := "id-a"; "tok-b" := "id-b"]} ∅ ∅ [].

End ToyServer.

(** ** Further vocabulary: the server *)

Section server_vocabulary.
Context {node : Node}.
Import Rest.

(** The friend set of the record stored under an id; none without a
    record. *)
Definition friends_of (userId : string) (sv : server) : list string :=
  default [] (friends <$> users_get userId (users sv)).

(** Friendship is mutual. *)
Definition mutual (sv : server) : Prop :=
  forall a b, trusted (relay_state sv) a b -> trusted (relay_state sv) b a.

(** No two records share a user name, letter case apart. *)
Definition unique_names (sv : server) : Prop :=
  NoDup ((fun u => toLowerCase (username u)) <$> users sv).

(** The input is [b], authenticated, accepting the request of the
    existing user [a]. *)
Definition accepts (sv : server) (i : input) (a b : string) : Prop :=
  exists authorization me token,
    i = Http (FriendAccept authorization (Some a))
    /\ requireAuth authorization sv = inr (me, token)
    /\ id me = b
    /\ a <> ""
    /\ a ∈ incomingRequests me
    /\ is_Some (users_get a (users sv)).

(** Along the run, every UUID drawn for a registration is new. *)
Fixpoint fresh_ids (sv : server) (inputs : list input) : Prop :=
  match inputs with
  | [] => True
  | i :: rest =>
      match i with
      | Http (Register _ _ uuid) => users_get uuid (users sv) = None
      | _ => True
      end
      /\ fresh_ids (step sv i) rest
  end.

(** Along the run, every token drawn for a login is new. *)
Fixpoint fresh_tokens (sv : server) (inputs : list input) : Prop :=
  match inputs with
  | [] => True
  | i :: rest =>
      match i with
      | Http (Login _ _ token) => sessions sv !! token = None
      | _ => True
      end
      /\ fresh_tokens (step sv i) rest
  end.
End server_vocabulary.

(** ** Two clients that can talk

    The small instance with a cipher whose tag is checked on decryption:
    every byte is masked with the key, and the key itself is appended. *)

Module ToyPeers.
Local Open Scope Z_scope.

Definition tag_encrypt (key : Z) (iv data : list Z) : completion (list Z) :=
  Return (((fun b => Z.lxor b key) <$> data) ++ [key]).

#[local] Instance peers_crypto : WebCrypto := {|
  CryptoKey := Z;
  PrivateKey := Z;
  PublicKey := Z;
  JsonWebKey := Z;
  generateKey := Toy.toy_generate;
  exportKey := fun y => y;
  importKey := Toy.toy_import;
  deriveKey := Toy.toy_derive;
  getRandomValues := fun n => replicate 12 (Z.of_nat n mod 256);
  encrypt := tag_encrypt;
  decrypt := Toy.toy_decrypt;
  randomUUID := fun _ => "00000000-0000-4000-8000-000000000000";
|}.

(** Alice's client: logged in, Bob selected, "hi" in the editor; Bob's
    client, with Alice selected.  Nothing is exchanged yet. *)
Definition alice : Client.client :=
  Client.mkClient (Some "token-a") (Some "alice") [Client.mkFriend "bob" "Bob"]
    (Some "bob") [104; 105] "Ready" 0 0 0 ∅ ∅ ∅ true [] 0 [] 0 true.

Definition bob : Client.client :=
  Client.mkClient (Some "token-b") (Some "bob") [Client.mkFriend "alice" "Alice"]
    (Some "alice") [] "Ready" 0 0 0 ∅ ∅ ∅ true [] 3 [] 0 true.

(** Alice and Bob holding the key 4 their pairs agree on. *)
Definition alice_keyed : Client.client :=
  Client.update_sharedKeys
    (<["bob" := Client.mkDH (Some (Toy.toy_generate 0)) (Some 4) true]>) alice.

Definition bob_keyed : Client.client :=
  Client.update_sharedKeys
    (<["alice" := Client.mkDH (Some (Toy.toy_generate 3)) (Some 4) true]>) bob.

(** What Bob sent before Alice had his key: "hi" under the key 8, as base64
    text in an 8x8 carrier, with the nonce of twelve zero bytes. *)
Definition held_hi : Client.SecurePayload :=
  Client.mkPayload "bob"
    (mkImageData 8 8 (Stego.write_bits (Stego.textToBits [89; 71; 69; 73]) (Stego.cover 8 8)))
    (replicate 16 65).

(** Alice holding that payload. *)
Definition alice_holding : Client.client :=
  Client.mkClient (Some "token-a") (Some "alice") [Client.mkFriend "bob" "Bob"]
    (Some "bob") [104; 105] "Ready" 0 0 0 ∅ ∅ {["bob" := [held_hi]]} true [] 0 [] 0 true.

(** Alice with the key, in a browser whose canvas gives no 2D context. *)
Definition alice_no_canvas : Client.client :=
  Client.mkClient (Some "token-a") (Some "alice") [Client.mkFriend "bob" "Bob"]
    (Some "bob") [104; 105] "Ready" 0 0 0 ∅
    {["bob" := Client.mkDH (Some (Toy.toy_generate 0)) (Some 4) true]} ∅ true [] 0 [] 0 false.

End ToyPeers.

(** ** Further vocabulary: the client *)

Section client_coverage_vocabulary.
Context {wc : WebCrypto}.
Import Client.

(** The calls the socket listeners and the UI make into the pipeline. *)
Inductive handler : Type :=
  | HandleDhPayload (from : string) (publicKey : JsonWebKey)
  | HandleIncomingPayload (p : SecurePayload)
  | HandleSendMessage
  | EmitPublicKey (friendId : string).

Definition call (h : handler) : M unit :=
  match h with
  | HandleDhPayload from publicKey => handleDhPayload from publicKey
  | HandleIncomingPayload p => handleIncomingPayload p
  | HandleSendMessage => handleSendMessage
  | EmitPublicKey friendId => emitPublicKey friendId
  end.

(** The state after a run of calls that do not overlap: each call runs to
    its end, returning or throwing, before the next one starts. *)
Definition after (c : client) (hs : list handler) : client :=
  foldl (fun c h => (call h c).1) c hs.

Definition is_announce_to (friendId : string) (o : outgoing) : Prop :=
  match o with
  | EmitDhPublic toUserId _ => toUserId = friendId
  | EmitSecureMessage _ _ _ => False
  end.

#[global] Instance is_announce_to_dec friendId o : Decision (is_announce_to friendId o).
Proof. destruct o; simpl; apply _. Defined.

(** How often the own public key was announced to a peer. *)
Definition announces_to (friendId : string) (l : list outgoing) : nat :=
  length (filter (is_announce_to friendId) l).

(** The announces to a peer so far, plus the one still open while
    [sentPublic] is not set. *)
Definition announce_budget (friendId : string) (c : client) : nat :=
  announces_to friendId (sent c) + (if sentPublic (dh_state friendId c) then 0 else 1).

(** No budget grows, and a key pair that exists stays. *)
Definition dh_ledger (c c' : client) : Prop :=
  forall friendId,
    announce_budget friendId c' <= announce_budget friendId c
    /\ forall kp, keyPair (dh_state friendId c) = Some kp ->
                  keyPair (dh_state friendId c') = Some kp.


(** The key pair a client uses with a peer: the one it holds, or the one
    [ensureDHState] will generate. *)
Definition key_pair_for (friendId : string) (c : client) : PrivateKey * PublicKey :=
  match keyPair (dh_state friendId c) with
  | Some kp => kp
  | None => Crypto.createKeyPair (entropy c)
  end.
End client_coverage_vocabulary.

(** ** Further vocabulary: calls that overlap

    An async function runs to its next [await] and resumes later; between
    the two, another call can run.  [ensureDHState] awaits the generated
    pair after it has tested [state.keyPair]; [emitPublicKey] awaits the
    exported key after it has tested [state.sentPublic]. *)

Section overlap_vocabulary.
Context {wc : WebCrypto}.
Import Client.

(** [ensureDHState] up to [await createKeyPair()]: the pair it will store
    when it resumes, if it found none. *)
Definition ensureDHState_begin (friendId : string) : M (option (PrivateKey * PublicKey)) :=
  c ← get;
  (if sharedKeys c !! friendId is None
   then modify (update_sharedKeys (<[friendId := emptyDH]>))
   else mret tt);;
  c ← get;
  if keyPair (dh_state friendId c) is None then
    n ← fresh;
    mret (Some (Crypto.createKeyPair n))
  else mret None.

(** [ensureDHState] from the await on: [state.keyPair = ...]. *)
Definition ensureDHState_resume (friendId : string) (kp : PrivateKey * PublicKey) : M unit :=
  dh_write friendId (fun s => mkDH (Some kp) (sharedKey s) (sentPublic s)).

(** [emitPublicKey] from the state [ensureDHState] returned up to
    [await exportPublicKey(...)]: the key it will announce when it resumes,
    if the mark is not set. *)
Definition emitPublicKey_begin (friendId : string) : M (option JsonWebKey) :=
  c ← get;
  let state := dh_state friendId c in
  match sentPublic state, keyPair state with
  | false, Some kp => mret (Some (Crypto.exportPublicKey (snd kp)))
  | _, _ => mret None
  end.

(** [emitPublicKey] from the await on: emit, set the mark. *)
Definition emitPublicKey_resume (friendId : string) (exported : JsonWebKey) : M unit :=
  socket_emit (EmitDhPublic friendId exported);;
  dh_write friendId (fun s => mkDH (keyPair s) (sharedKey s) true).
End overlap_vocabulary.

(** * Properties *)

(** ** Loops that fill an array *)

Section fold_lemmas.
Context {A B : Type}.

Lemma foldl_snoc_fmap (f : B -> A) (l : list B) (acc : list A) :
  foldl (fun acc x => acc ++ [f x]) acc l = acc ++ (f <$> l).
Proof.
  revert acc; induction l as [|x l IH]; intros acc; simpl.
  - by rewrite app_nil_r.
  - rewrite IH. by rewrite <- app_assoc.
Qed.

Lemma foldl_app_bind (f : B -> list A) (l : list B) (acc : list A) :
  foldl (fun acc x => acc ++ f x) acc l = acc ++ (l ≫= f).
Proof.
  revert acc; induction l as [|x l IH]; intros acc; simpl.
  - by rewrite app_nil_r.
  - rewrite IH. by rewrite <- app_assoc.
Qed.

Variable g : nat -> nat.
Variable h : list A -> nat -> A.

Local Abbreviation fill := (fill g h).

Lemma fill_S l k : fill l (S k) = <[g k := h (fill l k) k]> (fill l k).
Proof. unfold fill. by rewrite seq_S, foldl_app. Qed.

Lemma length_fill l k : length (fill l k) = length l.
Proof.
  induction k as [|k IH]; [done|]. by rewrite fill_S, length_insert.
Qed.

Lemma fill_miss l k j : (forall i, (i < k)%nat -> g i <> j) -> fill l k !! j = l !! j.
Proof.
  induction k as [|k IH]; intros Hne; [done|].
  rewrite fill_S, list_lookup_insert_ne by (apply Hne; lia).
  apply IH. intros i Hi. apply Hne. lia.
Qed.

Lemma fill_hit l k i :
  (forall a b, (a < k)%nat -> (b < k)%nat -> g a = g b -> a = b) ->
  (i < k)%nat -> (g i < length l)%nat ->
  fill l k !! g i = Some (h (fill l i) i).
Proof.
  induction k as [|k IH]; intros Hinj Hi Hlen; [lia|].
  rewrite fill_S. destruct (decide (i = k)) as [->|Hik].
  - rewrite list_lookup_insert_eq; [done|]. by rewrite length_fill.
  - rewrite list_lookup_insert_ne.
    + apply IH; [|lia|done]. intros a b Ha Hb. apply Hinj; lia.
    + intros Heq. apply Hik. symmetry. apply Hinj; [lia|lia|done].
Qed.
End fold_lemmas.

(** A loop [for i < n: a[i] = f i] over an array of length [n]. *)
Lemma fill_id {A} (f : nat -> A) (l : list A) :
fill (fun i => i) (fun _ i => f i) l (length l) = f <$> seq 0 (length l).
Proof.
apply list_eq. intros j.
destruct (decide (j < length l)%nat) as [Hj|Hj].
- rewrite (fill_hit (fun i => i) (fun _ i => f i) l (length l) j) by (auto; lia).
  rewrite list_lookup_fmap, lookup_seq_lt by done. done.
- rewrite !lookup_ge_None_2; [done| |].
  + rewrite length_fmap, length_seq. lia.
  + rewrite length_fill. lia.
Qed.

(** ** The 32-bit operators *)

Section int32.
Local Open Scope Z_scope.
Import JS.

Lemma lor_low (a b n : Z) :
  0 <= n -> a mod 2 ^ n = 0 -> 0 <= b < 2 ^ n -> Z.lor a b = a + b.
Proof.
  intros Hn Ha Hb.
  assert (Hland : Z.land a b = 0).
  { apply Z.bits_inj'. intros i Hi. rewrite Z.land_spec, Z.bits_0.
    destruct (Z.lt_ge_cases i n) as [Hlt|Hge].
    - rewrite <- (Z.mod_pow2_bits_low a n i Hlt), Ha, Z.bits_0. done.
    - rewrite <- (Z.mod_small b (2 ^ n)) by lia.
      rewrite Z.mod_pow2_bits_high by lia. apply andb_false_r. }
  rewrite (Z.add_nocarry_lxor _ _ Hland). symmetry. by apply Z.lxor_lor.
Qed.

Lemma ToInt32_small x : - 2 ^ 31 <= x < 2 ^ 31 -> ToInt32 x = x.
Proof. unfold ToInt32. intros. rewrite Z.mod_small; lia. Qed.

Lemma ToInt32_range x : - 2 ^ 31 <= ToInt32 x < 2 ^ 31.
Proof. unfold ToInt32. pose proof (Z.mod_pos_bound (x + 2 ^ 31) (2 ^ 32)). lia. Qed.

Lemma ToInt32_idemp x : ToInt32 (ToInt32 x) = ToInt32 x.
Proof. apply ToInt32_small, ToInt32_range. Qed.

(** [ToInt32] only depends on the argument modulo 2^32. *)
Lemma ToInt32_congr x y : (x - y) mod 2 ^ 32 = 0 -> ToInt32 x = ToInt32 y.
Proof.
  unfold ToInt32. intros H. f_equal.
  replace (x + 2 ^ 31) with ((y + 2 ^ 31) + (x - y)) by lia.
  rewrite Z.add_mod, H, Z.add_0_r, Z.mod_mod by lia. done.
Qed.

Lemma ToInt32_mod2 x : ToInt32 x mod 2 = x mod 2.
Proof.
  unfold ToInt32. change (2 ^ 31) with 2147483648. change (2 ^ 32) with 4294967296.
  Z.div_mod_to_equations. lia.
Qed.

Lemma band_1 x : band x 1 = x mod 2.
Proof.
  unfold band. rewrite (ToInt32_small 1) by lia.
  change 1 with (Z.ones 1) at 1. rewrite Z.land_ones by lia.
  change (2 ^ 1) with 2. apply ToInt32_mod2.
Qed.

Lemma band_1_bit x : band x 1 = 0 \/ band x 1 = 1.
Proof. rewrite band_1. pose proof (Z.mod_pos_bound x 2). lia. Qed.

Lemma shr_small v i : 0 <= v < 2 ^ 31 -> 0 <= i < 32 -> shr v i = v / 2 ^ i.
Proof.
  intros Hv Hi. unfold shr. rewrite ToInt32_small, Z.mod_small by lia.
  by rewrite Z.shiftr_div_pow2 by lia.
Qed.

(** One round of [bitsToNumber] doubles the value, modulo 2^32, and adds
    the low bit. *)
Lemma bor_shl_step u b :
  bor (shl (ToInt32 u) 1) (band b 1) = ToInt32 (2 * u + b mod 2).
Proof.
  rewrite band_1. unfold bor, shl.
  change (1 mod 32) with 1. rewrite Z.shiftl_mul_pow2 by lia.
  rewrite !ToInt32_idemp. change (2 ^ 1) with 2.
  pose proof (Z.mod_pos_bound b 2).
  rewrite (ToInt32_small (b mod 2)) by lia.
  assert (Heq : ToInt32 (ToInt32 u * 2) = ToInt32 (2 * u)).
  { apply ToInt32_congr. unfold ToInt32.
    change (2 ^ 31) with 2147483648. change (2 ^ 32) with 4294967296.
    Z.div_mod_to_equations. lia. }
  rewrite Heq.
  assert (Heven : ToInt32 (2 * u) mod 2 ^ 1 = 0).
  { change (2 ^ 1) with 2. rewrite ToInt32_mod2. Z.div_mod_to_equations. lia. }
  rewrite (lor_low _ _ 1) by (done || lia).
  pose proof (ToInt32_range (2 * u)). change (2 ^ 1) with 2 in Heven.
  rewrite <- (ToInt32_small (ToInt32 (2 * u) + b mod 2)).
  - apply ToInt32_congr. unfold ToInt32.
    change (2 ^ 31) with 2147483648. change (2 ^ 32) with 4294967296.
    Z.div_mod_to_equations. lia.
  - change (2 ^ 31) with 2147483648 in *. Z.div_mod_to_equations. lia.
Qed.
End int32.

(** ** [numberToBits] and [bitsToNumber] *)

Section bits.
Local Open Scope Z_scope.
Import Stego.

Lemma bitsToNumber_from u bits :
  foldl (fun value b => JS.bor (JS.shl value 1) (JS.band b 1)) (JS.ToInt32 u) bits
  = JS.ToInt32 (foldl (fun u b => 2 * u + b mod 2) u bits).
Proof.
  revert u; induction bits as [|b bits IH]; intros u; simpl; [done|].
  by rewrite bor_shl_step, IH.
Qed.

Lemma bitsToNumber_value bits : bitsToNumber bits = JS.ToInt32 (bits_value bits).
Proof. unfold bitsToNumber, bits_value. by rewrite <- bitsToNumber_from. Qed.

Lemma bits_value_snoc l b : bits_value (l ++ [b]) = 2 * bits_value l + b mod 2.
Proof. unfold bits_value. by rewrite foldl_app. Qed.

Lemma length_numberToBits v n : length (numberToBits v n) = n.
Proof.
  unfold numberToBits.
  change (foldl _ _ _) with
    (fill (fun i => (n - 1 - i)%nat) (fun _ i => JS.band (JS.shr v (Z.of_nat i)) 1)
          (replicate n 0) n).
  by rewrite length_fill, length_replicate.
Qed.

Lemma numberToBits_lookup v n j :
  (j < n)%nat ->
  numberToBits v n !! j = Some (JS.band (JS.shr v (Z.of_nat (n - 1 - j))) 1).
Proof.
  intros Hj. unfold numberToBits.
  change (foldl _ _ _) with
    (fill (fun i => (n - 1 - i)%nat) (fun _ i => JS.band (JS.shr v (Z.of_nat i)) 1)
          (replicate n 0) n).
  replace j with (n - 1 - (n - 1 - j))%nat at 1 by lia.
  apply (fill_hit (fun i => (n - 1 - i)%nat)).
  - intros a b Ha Hb. lia.
  - lia.
  - rewrite length_replicate. lia.
Qed.

Lemma numberToBits_bit v n b : b ∈ numberToBits v n -> b = 0 \/ b = 1.
Proof.
  intros Hb. apply list_elem_of_lookup in Hb as [j Hj].
  pose proof (lookup_lt_Some _ _ _ Hj) as Hlt. rewrite length_numberToBits in Hlt.
  rewrite numberToBits_lookup in Hj by done. injection Hj as <-. apply band_1_bit.
Qed.

Lemma numberToBits_spec v n :
  0 <= v < 2 ^ 31 -> (n <= 32)%nat -> numberToBits v n = msb_bits v n.
Proof.
  intros Hv Hn. apply list_eq. intros j.
  destruct (decide (j < n)%nat) as [Hj|Hj].
  - rewrite numberToBits_lookup by done. unfold msb_bits.
    rewrite list_lookup_fmap, lookup_seq_lt by done. simpl.
    rewrite band_1, shr_small by lia. done.
  - rewrite !lookup_ge_None_2; [done| |].
    + unfold msb_bits. rewrite length_fmap, length_seq. lia.
    + rewrite length_numberToBits. lia.
Qed.

Lemma msb_bits_S v n : 0 <= v -> msb_bits v (S n) = msb_bits (v / 2) n ++ [v mod 2].
Proof.
  intros Hv. unfold msb_bits. rewrite seq_S, fmap_app. simpl. f_equal.
  - apply list_fmap_ext. intros i j Hij.
    apply lookup_seq in Hij as [Hj Hlt]. simpl in Hj.
    assert (j < n)%nat by lia. clear Hj Hlt i. simpl.
    replace (n - 0 - j)%nat with (S (n - 1 - j)) by lia.
    rewrite Nat2Z.inj_succ, Z.pow_succ_r by lia.
    rewrite Z.div_div by lia. done.
  - replace (n - 0 - n)%nat with 0%nat by lia. simpl. by rewrite Z.div_1_r.
Qed.

Lemma bits_value_msb v n : 0 <= v -> bits_value (msb_bits v n) = v mod 2 ^ Z.of_nat n.
Proof.
  revert v; induction n as [|n IH]; intros v Hv.
  - simpl. by rewrite Z.mod_1_r.
  - rewrite msb_bits_S, bits_value_snoc, IH by (try apply Z.div_pos; lia).
    rewrite Z.mod_mod by lia.
    rewrite Nat2Z.inj_succ, Z.pow_succ_r by lia.
    rewrite Z.rem_mul_r by lia. lia.
Qed.

(** A 32-bit length prefix reads back as the length (below 2^31). *)
Lemma bitsToNumber_numberToBits_32 v :
  0 <= v < 2 ^ 31 -> bitsToNumber (numberToBits v 32) = v.
Proof.
  intros Hv. rewrite numberToBits_spec, bitsToNumber_value, bits_value_msb by lia.
  change (2 ^ Z.of_nat 32) with (2 ^ 32).
  rewrite Z.mod_small, ToInt32_small; lia.
Qed.

(** A byte reads back from its eight bits. *)
Lemma bitsToNumber_numberToBits_8 b :
  0 <= b < 256 -> bitsToNumber (numberToBits b 8) = b.
Proof.
  intros Hb. rewrite numberToBits_spec, bitsToNumber_value, bits_value_msb by lia.
  change (2 ^ Z.of_nat 8) with 256.
  rewrite Z.mod_small, ToInt32_small; lia.
Qed.
End bits.

(** ** Slices and chunks *)

Section slices.
Context {A : Type}.
Implicit Types l : list A.

Lemma slice_nonneg l (s e : Z) :
  (0 <= s)%Z -> (0 <= e)%Z ->
  JS.slice l s e = take (Z.to_nat e - Z.to_nat s) (drop (Z.to_nat s) l).
Proof.
  intros Hs He. unfold JS.slice, JS.rel_index.
  destruct (Z.ltb_spec s 0) as [?|_]; [lia|].
  destruct (Z.ltb_spec e 0) as [?|_]; [lia|].
  destruct (decide (Z.to_nat s <= length l)) as [Hsl|Hsl].
  - replace (Z.to_nat (s `min` Z.of_nat (length l))) with (Z.to_nat s) by lia.
    destruct (decide (Z.to_nat e <= length l)) as [Hel|Hel].
    + by replace (Z.to_nat (e `min` Z.of_nat (length l))) with (Z.to_nat e) by lia.
    + replace (Z.to_nat (e `min` Z.of_nat (length l))) with (length l) by lia.
      rewrite !take_ge; [done| |]; rewrite length_drop; lia.
  - rewrite !drop_ge by lia. by rewrite !take_nil.
Qed.

(** The [i]-th chunk of a concatenation of equal-length pieces. *)
Lemma chunk_bind {B} (f : B -> list A) (k : nat) (xs : list B) i x :
  (forall y, length (f y) = k) ->
  xs !! i = Some x ->
  take k (drop (i * k) (xs ≫= f)) = f x.
Proof.
  intros Hk. revert i; induction xs as [|y xs IH]; intros i Hi; [done|].
  change (mbind f (y :: xs)) with (f y ++ (xs ≫= f)).
  destruct i as [|i].
  - injection Hi as ->. rewrite Nat.mul_0_l, drop_0.
    rewrite take_app_length'; [done|by rewrite Hk].
  - replace (S i * k)%nat with (k + i * k)%nat by lia.
    rewrite drop_app_add'; [|by rewrite Hk]. by apply IH.
Qed.

Lemma length_bind_const {B} (f : B -> list A) (k : nat) (xs : list B) :
  (forall y, length (f y) = k) -> length (xs ≫= f) = (length xs * k)%nat.
Proof.
  intros Hk. induction xs as [|y xs IH]; [done|].
  change (mbind f (y :: xs)) with (f y ++ (xs ≫= f)).
  rewrite length_app, Hk, IH. simpl. lia.
Qed.
End slices.

(** ** The bit stream written to and read from the blue channel *)

Section stego_bits.
Local Open Scope Z_scope.
Import Stego.

Lemma textToBits_eq text :
  textToBits text =
    numberToBits (Z.of_nat (length (JS.TextEncoder_encode text))) 32
    ++ (JS.TextEncoder_encode text ≫= fun b => numberToBits b 8).
Proof. unfold textToBits. by rewrite foldl_app_bind. Qed.

Lemma length_textToBits text :
  length (textToBits text) = (32 + 8 * length (JS.TextEncoder_encode text))%nat.
Proof.
  rewrite textToBits_eq, length_app, length_numberToBits.
  rewrite (length_bind_const _ 8) by (intros; apply length_numberToBits). lia.
Qed.

Lemma textToBits_bit text b : b ∈ textToBits text -> b = 0 \/ b = 1.
Proof.
  rewrite textToBits_eq, elem_of_app, list_elem_of_bind.
  intros [H|(y & H & _)]; by apply numberToBits_bit in H.
Qed.

Lemma length_cover w h : length (cover w h) = (4 * (w * h))%nat.
Proof.
  unfold cover. generalize (w * h)%nat as n. induction n as [|n IH]; [done|].
  simpl. rewrite IH. lia.
Qed.

Lemma cover_blue w h i :
  (i < w * h)%nat -> cover w h !! (i * 4 + 2)%nat = Some 0x20.
Proof.
  unfold cover. generalize (w * h)%nat as n. intros n; revert i.
  induction n as [|n IH]; intros i Hi; [lia|].
  destruct i as [|i]; [done|]. simpl. apply IH. lia.
Qed.

Lemma write_bits_fill bits pixels :
  write_bits bits pixels =
    fill (fun i => (i * 4 + 2)%nat)
         (fun d i => JS.ToUint8Clamp
                       (JS.bor (JS.band (JS.at0 d (i * 4 + 2)) 0xfe) (JS.at0 bits i)))
         pixels (length bits).
Proof. done. Qed.

Lemma length_write_bits bits pixels : length (write_bits bits pixels) = length pixels.
Proof. rewrite write_bits_fill. apply length_fill. Qed.

(** The pixel of bit [i]: the old blue value with its low bit replaced. *)
Lemma write_bits_blue bits pixels i :
  (i < length bits)%nat -> (i * 4 + 2 < length pixels)%nat ->
  write_bits bits pixels !! (i * 4 + 2)%nat =
    Some (JS.ToUint8Clamp
            (JS.bor (JS.band (JS.at0 pixels (i * 4 + 2)) 0xfe) (JS.at0 bits i))).
Proof.
  intros Hi Hlen. rewrite write_bits_fill.
  rewrite (fill_hit (fun i => (i * 4 + 2)%nat)) by (done || lia).
  unfold JS.at0 at 1 3. rewrite fill_miss; [done|]. lia.
Qed.

(** Every other byte of the image is left as it was. *)
Lemma write_bits_other bits pixels j :
  (forall i, (i < length bits)%nat -> (i * 4 + 2)%nat <> j) ->
  write_bits bits pixels !! j = pixels !! j.
Proof. intros H. rewrite write_bits_fill. by apply fill_miss. Qed.

Lemma read_bits_eq img :
  read_bits img =
    (fun i => JS.band (JS.at0 (data img) (i * 4 + 2)) 1) <$> seq 0 (width img * height img).
Proof. unfold read_bits. by rewrite foldl_snoc_fmap. Qed.

(** Reading back a cover that took [bits]: the bits, then zeros. *)
Lemma read_write_bits bits w h :
  (forall b, b ∈ bits -> b = 0 \/ b = 1) ->
  (length bits <= w * h)%nat ->
  read_bits (mkImageData w h (write_bits bits (cover w h)))
  = bits ++ replicate (w * h - length bits) 0.
Proof.
  intros Hbits Hlen. rewrite read_bits_eq. simpl. apply list_eq. intros j.
  rewrite list_lookup_fmap.
  destruct (decide (j < w * h)%nat) as [Hj|Hj].
  - rewrite lookup_seq_lt by done. simpl. unfold JS.at0 at 1.
    destruct (decide (j < length bits)%nat) as [Hjb|Hjb].
    + rewrite write_bits_blue by (try rewrite length_cover; lia).
      rewrite lookup_app_l by done.
      destruct (lookup_lt_is_Some_2 bits j Hjb) as [b Hb].
      unfold JS.at0. rewrite cover_blue, Hb by lia. simpl.
      destruct (Hbits b) as [-> | ->]; [by eapply list_elem_of_lookup_2|done|done].
    + rewrite write_bits_other by lia. rewrite cover_blue by lia.
      rewrite lookup_app_r by lia. rewrite lookup_replicate_2 by lia. done.
  - rewrite lookup_seq_ge by lia. symmetry. apply lookup_ge_None_2.
    rewrite length_app, length_replicate. lia.
Qed.
End stego_bits.

(** ** [TextEncoder] and [TextDecoder] *)

Section text.
Local Open Scope Z_scope.
Import JS.

Ltac zlia := Z.div_mod_to_equations; lia.

Ltac decide_tests :=
  repeat match goal with
    | |- context [?a <=? ?b] => destruct (Z.leb_spec a b); try zlia
    | |- context [?a <? ?b] => destruct (Z.ltb_spec a b); try zlia
    | |- context [?a =? ?b] => destruct (Z.eqb_spec a b); try zlia
    end.

Lemma cont_byte_eq c k : 0 <= k -> cont_byte c k = 128 + c / 2 ^ (6 * k) mod 64.
Proof.
  intros Hk. unfold cont_byte. rewrite Z.shiftr_div_pow2 by lia.
  change 0x3F with (Z.ones 6). rewrite Z.land_ones by lia. change (2 ^ 6) with 64.
  apply (lor_low _ _ 7); [lia|done|]. change (2 ^ 7) with 128. zlia.
Qed.

Lemma continue_eq cp b :
  128 <= b <= 191 -> Z.lor (Z.shiftl cp 6) (Z.land b 0x3F) = cp * 64 + (b - 128).
Proof.
  intros Hb. rewrite Z.shiftl_mul_pow2 by lia.
  change 0x3F with (Z.ones 6). rewrite Z.land_ones by lia. change (2 ^ 6) with 64.
  rewrite (lor_low _ _ 6); [zlia|lia| |].
  - by rewrite Z.mod_mul.
  - change (2 ^ 6) with 64. zlia.
Qed.

Lemma utf8_decode_encode_cp c rest :
  is_scalar c ->
  utf8_decode_from None (utf8_encode_cp c ++ rest) = c :: utf8_decode_from None rest.
Proof.
  intros [Hr Hs]. unfold utf8_encode_cp.
  rewrite !cont_byte_eq by lia.
  change (2 ^ (6 * 0)) with 1. change (2 ^ (6 * 1)) with 64. change (2 ^ (6 * 2)) with 4096.
  rewrite !Z.shiftr_div_pow2 by lia.
  change (2 ^ 6) with 64. change (2 ^ 12) with 4096. change (2 ^ 18) with 262144.
  destruct (Z.leb_spec c 0x7F) as [H1|H1].
  { simpl. unfold utf8_start. decide_tests. done. }
  destruct (Z.leb_spec c 0x7FF) as [H2|H2].
  { simpl. unfold utf8_start.
    destruct (Z.leb_spec (c / 64 + 192) 127); [zlia|].
    destruct (Z.leb_spec 194 (c / 64 + 192)); [|zlia].
    destruct (Z.leb_spec (c / 64 + 192) 223); [|zlia].
    simpl.
    destruct (Z.leb_spec 128 (128 + c / 1 mod 64)); [|zlia].
    destruct (Z.leb_spec (128 + c / 1 mod 64) 191); [|zlia].
    simpl. rewrite continue_eq by zlia.
    change 31 with (Z.ones 5). rewrite Z.land_ones by lia. change (2 ^ 5) with 32.
    f_equal. zlia. }
  assert (Hm15 : forall b, Z.land b 15 = b mod 16).
  { intros b. change 15 with (Z.ones 4). by rewrite Z.land_ones by lia. }
  assert (Hm7 : forall b, Z.land b 7 = b mod 8).
  { intros b. change 7 with (Z.ones 3). by rewrite Z.land_ones by lia. }
  destruct (Z.leb_spec c 0xFFFF) as [H3|H3].
  { simpl. unfold utf8_start.
    repeat first [progress decide_tests | progress simpl].
    all: rewrite !continue_eq, Hm15 by (rewrite ?continue_eq, ?Hm15 by zlia; zlia).
    all: f_equal; zlia. }
  simpl. unfold utf8_start.
  repeat first [progress decide_tests | progress simpl].
  all: rewrite !continue_eq, Hm7 by (rewrite ?continue_eq, ?Hm7 by zlia; zlia).
  all: f_equal; zlia.
Qed.

Lemma utf8_encode_cp_bytes c : is_scalar c -> Forall is_byte (utf8_encode_cp c).
Proof.
  intros [Hr Hs]. unfold utf8_encode_cp, is_byte.
  rewrite !cont_byte_eq by lia.
  change (2 ^ (6 * 0)) with 1. change (2 ^ (6 * 1)) with 64. change (2 ^ (6 * 2)) with 4096.
  rewrite !Z.shiftr_div_pow2 by lia.
  change (2 ^ 6) with 64. change (2 ^ 12) with 4096. change (2 ^ 18) with 262144.
  destruct (Z.leb_spec c 0x7F); [|destruct (Z.leb_spec c 0x7FF); [|destruct (Z.leb_spec c 0xFFFF)]].
  all: repeat constructor; zlia.
Qed.

Lemma utf8_decode_encode cps :
  Forall is_scalar cps -> utf8_decode (utf8_encode cps) = cps.
Proof.
  unfold utf8_decode, utf8_encode. induction 1 as [|c cps Hc _ IH]; [done|].
  change (mbind utf8_encode_cp (c :: cps)) with (utf8_encode_cp c ++ (cps ≫= utf8_encode_cp)).
  by rewrite utf8_decode_encode_cp, IH.
Qed.

Lemma utf8_encode_bytes cps : Forall is_scalar cps -> Forall is_byte (utf8_encode cps).
Proof.
  unfold utf8_encode. induction 1 as [|c cps Hc _ IH]; [constructor|].
  change (mbind utf8_encode_cp (c :: cps)) with (utf8_encode_cp c ++ (cps ≫= utf8_encode_cp)).
  apply Forall_app. split; [by apply utf8_encode_cp_bytes|done].
Qed.

Lemma surrogate_pair_scalar c d :
  is_lead c = true -> is_trail d = true ->
  is_scalar (0x10000 + Z.shiftl (c - 0xD800) 10 + (d - 0xDC00)).
Proof.
  unfold is_lead, is_trail, is_scalar. intros Hc Hd.
  apply andb_true_iff in Hc as [?%Z.leb_le ?%Z.leb_le].
  apply andb_true_iff in Hd as [?%Z.leb_le ?%Z.leb_le].
  rewrite Z.shiftl_mul_pow2 by lia. change (2 ^ 10) with 1024. lia.
Qed.

Lemma surrogate_pair_utf16 c d :
  is_lead c = true -> is_trail d = true ->
  utf16_of_cp (0x10000 + Z.shiftl (c - 0xD800) 10 + (d - 0xDC00)) = [c; d].
Proof.
  unfold is_lead, is_trail, utf16_of_cp. intros Hc Hd.
  apply andb_true_iff in Hc as [?%Z.leb_le ?%Z.leb_le].
  apply andb_true_iff in Hd as [?%Z.leb_le ?%Z.leb_le].
  rewrite Z.shiftl_mul_pow2, Z.shiftr_div_pow2 by lia.
  change 0x3FF with (Z.ones 10). rewrite Z.land_ones by lia. change (2 ^ 10) with 1024.
  destruct (Z.leb_spec (65536 + (c - 55296) * 1024 + (d - 56320)) 65535); [lia|].
  f_equal; [|f_equal]; zlia.
Qed.

(** Every string converts to scalar values. *)
Lemma to_scalars_scalar s : wf_string s -> Forall is_scalar (to_scalars s).
Proof.
  remember (length s) as n eqn:Hn. revert s Hn.
  induction n as [n IH] using lt_wf_ind. intros s Hn Hwf.
  destruct s as [|c rest]; [constructor|].
  apply Forall_cons in Hwf as [Hc Hrest]. simpl in Hn. simpl.
  assert (Hfffd : is_scalar 0xFFFD) by (unfold is_scalar; lia).
  destruct (is_lead c) eqn:Hlead.
  - destruct rest as [|d rest']; [constructor; [done|constructor]|].
    destruct (is_trail d) eqn:Htrail.
    + constructor; [by apply surrogate_pair_scalar|].
      apply Forall_cons in Hrest as [_ Hrest'].
      eapply IH; [|done|done]. simpl in Hn. lia.
    + constructor; [done|]. eapply IH; [|done|done]. lia.
  - destruct (is_trail c) eqn:Htrail; (constructor; [|eapply IH; [|done|done]; lia]); [done|].
    unfold is_lead, is_trail, is_scalar in *.
    apply andb_false_iff in Hlead, Htrail.
    rewrite !Z.leb_gt in Hlead, Htrail. lia.
Qed.

Lemma TextEncoder_encode_bytes s : wf_string s -> Forall is_byte (TextEncoder_encode s).
Proof. intros H. by apply utf8_encode_bytes, to_scalars_scalar. Qed.

(** A string without unpaired surrogates comes back from its scalars. *)
Lemma to_scalars_utf16 s :
  wf_string s -> well_paired s = true -> to_scalars s ≫= utf16_of_cp = s.
Proof.
  remember (length s) as n eqn:Hn. revert s Hn.
  induction n as [n IH] using lt_wf_ind. intros s Hn Hwf Hwp.
  destruct s as [|c rest]; [done|].
  apply Forall_cons in Hwf as [Hc Hrest]. simpl in Hn, Hwp |- *.
  destruct (is_lead c) eqn:Hlead.
  - destruct rest as [|d rest']; [done|].
    apply andb_true_iff in Hwp as [Htrail Hwp]. rewrite Htrail.
    change (mbind utf16_of_cp (?x :: ?l)) with (utf16_of_cp x ++ (l ≫= utf16_of_cp)).
    rewrite surrogate_pair_utf16 by done. simpl. do 2 f_equal.
    apply Forall_cons in Hrest as [_ Hrest'].
    eapply IH; [|done|done|done]. simpl in Hn. lia.
  - apply andb_true_iff in Hwp as [Htrail Hwp].
    apply negb_true_iff in Htrail. rewrite Htrail.
    change (mbind utf16_of_cp (?x :: ?l)) with (utf16_of_cp x ++ (l ≫= utf16_of_cp)).
    unfold utf16_of_cp at 1. destruct (Z.leb_spec c 0xFFFF); [|lia].
    simpl. f_equal. eapply IH; [|done|done|done]. lia.
Qed.

(** The first scalar is U+FEFF only when the first code unit is. *)
Lemma strip_bom_to_scalars s :
  head s <> Some 0xFEFF -> strip_bom (to_scalars s) = to_scalars s.
Proof.
  destruct s as [|c rest]; [done|]. simpl. intros Hc.
  assert (c <> 0xFEFF) by congruence.
  destruct (is_lead c) eqn:Hlead.
  - destruct rest as [|d rest']; [done|].
    destruct (is_trail d) eqn:Htrail; [|done].
    pose proof (surrogate_pair_scalar c d Hlead Htrail) as [_ _].
    unfold is_lead, is_trail in *. simpl.
    apply andb_true_iff in Hlead as [?%Z.leb_le ?%Z.leb_le].
    apply andb_true_iff in Htrail as [?%Z.leb_le ?%Z.leb_le].
    rewrite Z.shiftl_mul_pow2 by lia. change (2 ^ 10) with 1024.
    destruct (Z.eqb_spec (65536 + (c - 55296) * 1024 + (d - 56320)) 65279); [lia|done].
  - destruct (is_trail c); [done|]. simpl.
    destruct (Z.eqb_spec c 65279); [lia|done].
Qed.

(** What decoding an encoded string gives in general. *)
Lemma TextDecoder_TextEncoder s :
  wf_string s ->
  TextDecoder_decode (TextEncoder_encode s) = strip_bom (to_scalars s) ≫= utf16_of_cp.
Proof.
  intros Hwf. unfold TextDecoder_decode, TextEncoder_encode.
  by rewrite utf8_decode_encode by by apply to_scalars_scalar.
Qed.

Lemma TextDecoder_TextEncoder_id s :
  wf_string s -> well_paired s = true -> head s <> Some 0xFEFF ->
  TextDecoder_decode (TextEncoder_encode s) = s.
Proof.
  intros Hwf Hwp Hbom.
  by rewrite TextDecoder_TextEncoder, strip_bom_to_scalars, to_scalars_utf16.
Qed.
End text.

(** ** Frames: what [extractTextFromImage] makes of a bit stream *)

Section frames.
Local Open Scope Z_scope.
Import Stego.

Lemma extractTextFromImage_frame img :
  (0 < width img)%nat -> (0 < height img)%nat ->
  extractTextFromImage true img = decode_frame (read_bits img).
Proof.
  intros Hw Hh. unfold extractTextFromImage. simpl negb. cbv iota.
  destruct (Nat.eqb_spec (width img) 0); [lia|].
  destruct (Nat.eqb_spec (height img) 0); [lia|]. done.
Qed.

Lemma read_bytes_eq payloadBits n :
  0 <= n ->
  read_bytes payloadBits n (replicate (Z.to_nat n) 0)
  = (fun i => JS.ToUint8 (bitsToNumber
               (JS.slice payloadBits (Z.of_nat i * 8) (Z.of_nat i * 8 + 8))))
      <$> seq 0 (Z.to_nat n).
Proof.
  intros Hn. unfold read_bytes.
  pose proof (fill_id (fun i => JS.ToUint8 (bitsToNumber
               (JS.slice payloadBits (Z.of_nat i * 8) (Z.of_nat i * 8 + 8))))
               (replicate (Z.to_nat n) 0)) as H.
  rewrite length_replicate in H. exact H.
Qed.

(** The bytes of a payload read back from their bits. *)
Lemma read_bytes_payload bytes :
  Forall is_byte bytes ->
  read_bytes (bytes ≫= fun b => numberToBits b 8) (Z.of_nat (length bytes))
             (replicate (length bytes) 0)
  = bytes.
Proof.
  intros Hbytes.
  pose proof (read_bytes_eq (bytes ≫= fun b => numberToBits b 8)
                (Z.of_nat (length bytes)) ltac:(lia)) as H.
  rewrite Nat2Z.id in H. rewrite H. clear H.
  apply list_eq. intros i. rewrite list_lookup_fmap.
  destruct (decide (i < length bytes)%nat) as [Hi|Hi].
  - rewrite lookup_seq_lt by done. simpl.
    destruct (lookup_lt_is_Some_2 bytes i Hi) as [b Hb]. rewrite Hb.
    rewrite slice_nonneg by lia.
    replace (Z.to_nat (Z.of_nat i * 8 + 8) - Z.to_nat (Z.of_nat i * 8))%nat with 8%nat by lia.
    replace (Z.to_nat (Z.of_nat i * 8)) with (i * 8)%nat by lia.
    rewrite (chunk_bind (fun b => numberToBits b 8) 8 bytes i b)
      by (done || intros; apply length_numberToBits).
    assert (is_byte b) as Hbyte.
    { rewrite Forall_forall in Hbytes. apply Hbytes. by eapply list_elem_of_lookup_2. }
    unfold is_byte in Hbyte.
    rewrite bitsToNumber_numberToBits_8 by done.
    unfold JS.ToUint8. by rewrite Z.mod_small by lia.
  - rewrite lookup_seq_ge by lia. simpl. symmetry. apply lookup_ge_None_2. lia.
Qed.

(** A frame followed by anything decodes to the framed text. *)
Lemma decode_frame_textToBits text tail :
  wf_string text ->
  Z.of_nat (length (JS.TextEncoder_encode text)) < 2 ^ 31 ->
  decode_frame (textToBits text ++ tail)
  = Return (JS.TextDecoder_decode (JS.TextEncoder_encode text)).
Proof.
  intros Hwf Hlen. unfold decode_frame.
  rewrite textToBits_eq.
  set (bytes := JS.TextEncoder_encode text) in *.
  set (prefix := numberToBits (Z.of_nat (length bytes)) 32).
  set (dataBits := bytes ≫= fun b => numberToBits b 8).
  assert (Hp : length prefix = 32%nat) by apply length_numberToBits.
  assert (Hd : length dataBits = (length bytes * 8)%nat).
  { apply length_bind_const. intros. apply length_numberToBits. }
  assert (Hlb : JS.slice ((prefix ++ dataBits) ++ tail) 0 32 = prefix).
  { rewrite slice_nonneg by lia.
    replace (Z.to_nat 32 - Z.to_nat 0)%nat with (length prefix) by (rewrite Hp; lia).
    change (Z.to_nat 0) with 0%nat. rewrite drop_0, <- app_assoc.
    by rewrite take_app_length. }
  assert (Hn : bitsToNumber prefix = Z.of_nat (length bytes)).
  { unfold prefix. apply bitsToNumber_numberToBits_32. lia. }
  rewrite Hlb, Hn.
  assert (Hpb : JS.slice ((prefix ++ dataBits) ++ tail) 32
                  (32 + Z.of_nat (length bytes) * 8) = dataBits).
  { rewrite slice_nonneg by lia. rewrite <- app_assoc.
    replace (Z.to_nat 32) with (length prefix) by (rewrite Hp; lia).
    rewrite drop_app_length. rewrite take_app_length'; [done|]. rewrite Hp, Hd. lia. }
  rewrite Hpb. unfold Uint8Array_new.
  destruct (Z.ltb_spec (Z.of_nat (length bytes)) 0); [lia|].
  change (Return ?a ≫= ?k) with (k a). cbv beta.
  rewrite Nat2Z.id. unfold dataBits.
  rewrite read_bytes_payload; [done|]. by apply TextEncoder_encode_bytes.
Qed.
End frames.

(** ** The codec: capacity, round trip, malformed frames *)

Section codec.
Local Open Scope Z_scope.
Import Stego.

Lemma canvas_capacity : Z.of_nat (CANVAS_SIZE * CANVAS_SIZE) = 65536.
Proof. vm_compute. reflexivity. Qed.

(** [embedTextInImage] with a 2D context: the capacity test decides. *)
Lemma embedTextInImage_run_cases P :
  let n := Z.of_nat (length (JS.TextEncoder_encode P)) in
  (65536 < 32 + 8 * n /\
   embedTextInImage_run true P = (cover CANVAS_SIZE CANVAS_SIZE, Throw capacity_error))
  \/ (32 + 8 * n <= 65536 /\
      embedTextInImage_run true P =
        (write_bits (textToBits P) (cover CANVAS_SIZE CANVAS_SIZE),
         Return (mkImageData CANVAS_SIZE CANVAS_SIZE
                   (write_bits (textToBits P) (cover CANVAS_SIZE CANVAS_SIZE))))).
Proof.
  intros n. unfold embedTextInImage_run. change (negb true) with false. cbv iota.
  pose proof canvas_capacity as Hcap. pose proof (length_textToBits P) as Hlen.
  destruct (Nat.ltb_spec (CANVAS_SIZE * CANVAS_SIZE) (length (textToBits P))) as [Hlt|Hge].
  - left. split; [|done]. unfold n. lia.
  - right. split; [|done]. unfold n. lia.
Qed.

(** C2.  With [n] the UTF-8 length of [P], [embedTextInImage(P)] throws
    exactly when [32 + 8n > 65536], and then it throws the capacity error
    and leaves the canvas as the cover fill, no bit written; so a payload
    of 8188 bytes is embedded and one of 8189 bytes is refused. *)
Theorem embedTextInImage_capacity (P : jsstring) :
  let n := Z.of_nat (length (JS.TextEncoder_encode P)) in
  (embedTextInImage true P = Throw capacity_error <-> 32 + 8 * n > 65536)
  /\ ((exists img, embedTextInImage true P = Return img) <-> 32 + 8 * n <= 65536)
  /\ (n = 8188 -> exists img, embedTextInImage true P = Return img)
  /\ (n = 8189 -> embedTextInImage true P = Throw capacity_error)
  /\ (forall e, embedTextInImage true P = Throw e ->
        e = capacity_error
        /\ fst (embedTextInImage_run true P) = cover CANVAS_SIZE CANVAS_SIZE).
Proof.
  intros n. unfold embedTextInImage.
  destruct (embedTextInImage_run_cases P) as [[Hn ->] | [Hn ->]];
    fold n in Hn; simpl fst; simpl snd.
  - split; [split; [lia|done]|].
    split; [split; [intros [img Himg]; discriminate|lia]|].
    split; [lia|]. split; [done|].
    intros e He. injection He as <-. done.
  - split; [split; [discriminate|lia]|].
    split; [split; [done|eauto]|].
    split; [eauto|]. split; [lia|]. intros e He. discriminate.
Qed.

(** What [extractTextFromImage] returns for an embedded text. *)
Lemma extract_embed P :
  wf_string P ->
  32 + 8 * Z.of_nat (length (JS.TextEncoder_encode P)) <= 65536 ->
  embedTextInImage true P ≫= extractTextFromImage true
  = Return (JS.TextDecoder_decode (JS.TextEncoder_encode P)).
Proof.
  intros Hwf Hn. unfold embedTextInImage.
  destruct (embedTextInImage_run_cases P) as [[Hn' _] | [_ ->]]; [lia|].
  simpl snd. change (Return ?a ≫= ?k) with (k a).
  rewrite extractTextFromImage_frame by (simpl; unfold CANVAS_SIZE; lia).
  pose proof canvas_capacity as Hcap. pose proof (length_textToBits P) as Hlen.
  rewrite read_write_bits; [|apply textToBits_bit|lia].
  apply decode_frame_textToBits; [done|lia].
Qed.

(** C1, as the code has it.  For every string [P] of 16-bit code units
    without unpaired surrogates that does not start with U+FEFF, and
    whose UTF-8 encoding has [n] bytes with [32 + 8n <= 65536],
    extracting from the image that embedding [P] produced returns [P]. *)
Theorem embed_extract_roundtrip (P : jsstring) :
  wf_string P ->
  well_paired P = true ->
  head P <> Some 0xFEFF ->
  32 + 8 * Z.of_nat (length (JS.TextEncoder_encode P)) <= 65536 ->
  embedTextInImage true P ≫= extractTextFromImage true = Return P.
Proof.
  intros Hwf Hwp Hbom Hn.
  by rewrite extract_embed, TextDecoder_TextEncoder_id.
Qed.
End codec.

Section codec_examples.
Local Open Scope Z_scope.
Import Stego.

(** The string "hi" survives the round trip. *)
Lemma embed_extract_roundtrip_hi :
  embedTextInImage true [104; 105] ≫= extractTextFromImage true = Return [104; 105].
Proof.
  apply (embed_extract_roundtrip [104; 105]).
  - repeat (constructor; [lia|]). constructor.
  - reflexivity.
  - discriminate.
  - vm_compute. discriminate.
Defined.

(** C1 fails as stated: a leading U+FEFF is dropped by the decoder, and an
    unpaired surrogate is replaced by U+FFFD by the encoder; both strings
    fit the carrier. *)
Lemma roundtrip_loses_bom_and_lone_surrogate :
  (32 + 8 * Z.of_nat (length (JS.TextEncoder_encode [0xFEFF; 104; 105])) <= 65536
   /\ embedTextInImage true [0xFEFF; 104; 105] ≫= extractTextFromImage true
      = Return [104; 105]
   /\ embedTextInImage true [0xFEFF; 104; 105] ≫= extractTextFromImage true
      <> Return [0xFEFF; 104; 105])
  /\ (32 + 8 * Z.of_nat (length (JS.TextEncoder_encode [0xD800])) <= 65536
      /\ embedTextInImage true [0xD800] ≫= extractTextFromImage true = Return [0xFFFD]
      /\ embedTextInImage true [0xD800] ≫= extractTextFromImage true <> Return [0xD800]).
Proof.
  assert (H1 : embedTextInImage true [0xFEFF; 104; 105] ≫= extractTextFromImage true
               = Return [104; 105]).
  { rewrite extract_embed.
    - vm_compute. reflexivity.
    - repeat (constructor; [lia|]). constructor.
    - vm_compute. discriminate. }
  assert (H2 : embedTextInImage true [0xD800] ≫= extractTextFromImage true
               = Return [0xFFFD]).
  { rewrite extract_embed.
    - vm_compute. reflexivity.
    - repeat (constructor; [lia|]). constructor.
    - vm_compute. discriminate. }
  split; (split; [vm_compute; discriminate|]).
  - split; [exact H1|]. rewrite H1. discriminate.
  - split; [exact H2|]. rewrite H2. discriminate.
Qed.

(** At the boundary: 8188 bytes are embedded, 8189 bytes are refused. *)
Lemma embedTextInImage_boundary :
  (exists img, embedTextInImage true (replicate (Z.to_nat 8188) 65) = Return img)
  /\ embedTextInImage true (replicate (Z.to_nat 8189) 65) = Throw capacity_error.
Proof.
  split.
  - apply (embedTextInImage_capacity (replicate (Z.to_nat 8188) 65)).
    vm_compute. reflexivity.
  - apply (embedTextInImage_capacity (replicate (Z.to_nat 8189) 65)).
    vm_compute. reflexivity.
Defined.
End codec_examples.

(** ** Malformed frames *)

Section malformed.
Local Open Scope Z_scope.
Import Stego.

Lemma length_read_bits img : length (read_bits img) = (width img * height img)%nat.
Proof. by rewrite read_bits_eq, length_fmap, length_seq. Qed.

Lemma extractTextFromImage_bytes img :
  (0 < width img)%nat -> (0 < height img)%nat ->
  extractTextFromImage true img =
    if declared_length img <? 0 then Throw RangeError
    else Return (JS.TextDecoder_decode (frame_bytes img)).
Proof.
  intros Hw Hh. rewrite extractTextFromImage_frame by done.
  unfold decode_frame, Uint8Array_new, frame_bytes, declared_length.
  by destruct (_ <? 0).
Qed.

Lemma length_frame_bytes img :
  0 <= declared_length img -> length (frame_bytes img) = Z.to_nat (declared_length img).
Proof.
  intros Hn. unfold frame_bytes. rewrite read_bytes_eq by done.
  by rewrite length_fmap, length_seq.
Qed.

(** A byte whose bits lie beyond the image reads as zero. *)
Lemma frame_bytes_missing img i :
  0 <= declared_length img ->
  (i < Z.to_nat (declared_length img))%nat ->
  available_bits img <= 32 + 8 * Z.of_nat i ->
  frame_bytes img !! i = Some 0.
Proof.
  intros Hn Hi Hav. unfold frame_bytes. rewrite read_bytes_eq by done.
  rewrite list_lookup_fmap, lookup_seq_lt by done. simpl. f_equal.
  set (payloadBits := JS.slice _ 32 _).
  assert (Hlen : (length payloadBits <= 8 * i)%nat).
  { unfold payloadBits. rewrite slice_nonneg by lia.
    rewrite length_take, length_drop, length_read_bits.
    unfold available_bits in Hav. lia. }
  rewrite slice_nonneg by lia. rewrite drop_ge by lia. by rewrite take_nil.
Qed.

Lemma utf8_encode_cp_first c :
  is_scalar c -> exists b rest, JS.utf8_encode_cp c = b :: rest /\ b <= 0xF4.
Proof.
  intros [Hr Hs]. unfold JS.utf8_encode_cp.
  rewrite !Z.shiftr_div_pow2 by lia.
  change (2 ^ 6) with 64. change (2 ^ 12) with 4096. change (2 ^ 18) with 262144.
  destruct (Z.leb_spec c 0x7F); [|destruct (Z.leb_spec c 0x7FF); [|destruct (Z.leb_spec c 0xFFFF)]].
  all: eexists _, _; split; [reflexivity|]; Z.div_mod_to_equations; lia.
Qed.

Lemma invalid_utf8_0xFF : ~ valid_utf8 [0xFF].
Proof.
  intros (cps & Hcps & Henc). destruct Hcps as [|c cps Hc _]; [discriminate|].
  unfold JS.utf8_encode in Henc.
  change (mbind JS.utf8_encode_cp (c :: cps))
    with (JS.utf8_encode_cp c ++ (cps ≫= JS.utf8_encode_cp)) in Henc.
  destruct (utf8_encode_cp_first c Hc) as (b & rest & Hb & Hle).
  rewrite Hb in Henc. injection Henc as -> _. lia.
Qed.

(** C3 fails as stated: a frame that declares more bytes than the image
    holds, and a frame whose byte is not valid UTF-8, are both extracted
    to a string, no error raised. *)
Lemma malformed_frames_are_extracted :
  (declared_length short_carrier = 7
   /\ available_bits short_carrier < 32 + 8 * declared_length short_carrier
   /\ extractTextFromImage true short_carrier = Return [0; 0; 0; 0; 0; 0; 0])
  /\ (declared_length invalid_utf8_carrier = 1
      /\ 32 + 8 * declared_length invalid_utf8_carrier <= available_bits invalid_utf8_carrier
      /\ frame_bytes invalid_utf8_carrier = [0xFF]
      /\ ~ valid_utf8 (frame_bytes invalid_utf8_carrier)
      /\ extractTextFromImage true invalid_utf8_carrier = Return [0xFFFD]).
Proof.
  assert (Hb : frame_bytes invalid_utf8_carrier = [0xFF]) by (vm_compute; reflexivity).
  split.
  - split; [vm_compute; reflexivity|]. split; vm_compute; reflexivity.
  - split; [vm_compute; reflexivity|]. split; [vm_compute; discriminate|].
    split; [exact Hb|]. split; [rewrite Hb; apply invalid_utf8_0xFF|].
    vm_compute. reflexivity.
Qed.

(** C3, as the code has it.  For every non-empty image whose first 32 low
    bits decode to a count [n >= 0], [extractTextFromImage] returns a
    string, also when fewer than [32 + 8n] bits are available and when the
    bytes are not valid UTF-8: it decodes [n] bytes with the replacing
    decoder, and a byte whose bits lie beyond the image is zero. *)
Theorem extractTextFromImage_no_frame_check (img : ImageData) :
  (0 < width img)%nat -> (0 < height img)%nat ->
  0 <= declared_length img ->
  extractTextFromImage true img = Return (JS.TextDecoder_decode (frame_bytes img))
  /\ Z.of_nat (length (frame_bytes img)) = declared_length img
  /\ (forall i : nat,
        Z.of_nat i < declared_length img ->
        available_bits img <= 32 + 8 * Z.of_nat i ->
        frame_bytes img !! i = Some 0).
Proof.
  intros Hw Hh Hn. split; [|split].
  - rewrite extractTextFromImage_bytes by done.
    destruct (Z.ltb_spec (declared_length img) 0); [lia|done].
  - rewrite length_frame_bytes by done. lia.
  - intros i Hi Hav. apply frame_bytes_missing; [done|lia|done].
Qed.

(** On the short carrier: seven bytes are returned for 64 bits. *)
Lemma extractTextFromImage_short_carrier :
  extractTextFromImage true short_carrier
    = Return (JS.TextDecoder_decode (frame_bytes short_carrier))
  /\ Z.of_nat (length (frame_bytes short_carrier)) = declared_length short_carrier
  /\ (forall i : nat,
        Z.of_nat i < declared_length short_carrier ->
        available_bits short_carrier <= 32 + 8 * Z.of_nat i ->
        frame_bytes short_carrier !! i = Some 0).
Proof.
  apply (extractTextFromImage_no_frame_check short_carrier).
  - simpl. lia.
  - simpl. lia.
  - vm_compute. discriminate.
Defined.

(** A prefix with its top bit set is a negative count: [new Uint8Array]
    throws. *)
Lemma extractTextFromImage_negative_length (img : ImageData) :
  (0 < width img)%nat -> (0 < height img)%nat ->
  declared_length img < 0 ->
  extractTextFromImage true img = Throw RangeError.
Proof.
  intros Hw Hh Hn. rewrite extractTextFromImage_bytes by done.
  destruct (Z.ltb_spec (declared_length img) 0); [done|lia].
Qed.
End malformed.

(** ** Base64 *)

Ltac nlia := zify; Z.div_mod_to_equations; lia.

Lemma list_ind3 {A} (P : list A -> Prop) :
  P [] -> (forall a, P [a]) -> (forall a b, P [a; b]) ->
  (forall a b c l, P l -> P (a :: b :: c :: l)) ->
  forall l, P l.
Proof.
  intros H0 H1 H2 H3 l.
  remember (length l) as n eqn:Hn. revert l Hn.
  induction n as [n IH] using lt_wf_ind. intros l Hn.
  destruct l as [|a [|b [|c l]]]; auto.
  apply H3. eapply IH; [|done]. simpl in Hn. lia.
Qed.

Section base64.
Local Open Scope Z_scope.
Import JS.

Lemma b64_index_char g : is_group g -> b64_index (b64_char g) = Some g.
Proof.
  unfold is_group, b64_index, b64_char. intros Hg.
  repeat match goal with
    | |- context [?a <? ?b] => destruct (Z.ltb_spec a b); try lia
    | |- context [?a =? ?b] => destruct (Z.eqb_spec a b); try lia
    | |- context [?a <=? ?b] => destruct (Z.leb_spec a b); try lia
    end; simpl; f_equal; lia.
Qed.

(** No alphabet character is [=] or white space. *)
Lemma b64_char_plain g :
  is_group g -> b64_char g <> 61 /\ is_ascii_whitespace (b64_char g) = false.
Proof.
  unfold is_group, is_ascii_whitespace, b64_char. intros Hg.
  repeat match goal with
    | |- context [?a <? ?b] => destruct (Z.ltb_spec a b); try lia
    | |- context [?a =? ?b] => destruct (Z.eqb_spec a b); try lia
    end; (split; [lia|done]).
Qed.

Lemma b64_groups_range bs : Forall is_byte bs -> Forall is_group (b64_groups bs).
Proof.
  induction bs as [|a|a b|a b c l IH] using list_ind3; intros Hbs; simpl.
  - constructor.
  - apply Forall_cons in Hbs as [Ha _]. unfold is_byte, is_group in *.
    repeat (constructor; [nlia|]). constructor.
  - apply Forall_cons in Hbs as [Ha [Hb _]%Forall_cons]. unfold is_byte, is_group in *.
    repeat (constructor; [nlia|]). constructor.
  - apply Forall_cons in Hbs as [Ha [Hb [Hc Hl]%Forall_cons]%Forall_cons].
    unfold is_byte, is_group in *.
    repeat (constructor; [nlia|]). by apply IH.
Qed.

Lemma b64_ungroup_groups bs : Forall is_byte bs -> b64_ungroup (b64_groups bs) = bs.
Proof.
  induction bs as [|a|a b|a b c l IH] using list_ind3; intros Hbs.
  - done.
  - apply Forall_cons in Hbs as [Ha _]. unfold is_byte in *.
    simpl. f_equal. nlia.
  - apply Forall_cons in Hbs as [Ha [Hb _]%Forall_cons]. unfold is_byte in *.
    simpl. f_equal; [|f_equal]; nlia.
  - apply Forall_cons in Hbs as [Ha [Hb [Hc Hl]%Forall_cons]%Forall_cons].
    unfold is_byte in *.
    change (b64_groups (a :: b :: c :: l))
      with (a / 4 :: (a mod 4 * 16 + b / 16) :: (b mod 16 * 4 + c / 64) :: c mod 64
              :: b64_groups l).
    change (b64_ungroup (?g1 :: ?g2 :: ?g3 :: ?g4 :: ?r))
      with ([(((g1 * 64 + g2) * 64 + g3) * 64 + g4) / 65536;
             (((g1 * 64 + g2) * 64 + g3) * 64 + g4) / 256 mod 256;
             (((g1 * 64 + g2) * 64 + g3) * 64 + g4) mod 256] ++ b64_ungroup r).
    rewrite IH by done. simpl. f_equal; [|f_equal; [|f_equal]]; nlia.
Qed.

(** Groups and padding together fill whole quadruples. *)
Lemma b64_length bs :
  ((length (b64_groups bs) + b64_padding (length bs)) mod 4 = 0
   /\ length (b64_groups bs) mod 4 <> 1
   /\ (b64_padding (length bs) <= 2))%nat.
Proof.
  unfold b64_padding.
  induction bs as [|a|a b|a b c l IH] using list_ind3.
  - simpl. repeat split; lia.
  - simpl. repeat split; lia.
  - simpl. repeat split; lia.
  - cbn [length b64_groups app]. nlia.
Qed.

Lemma btoa_bytes bs :
  Forall is_byte bs ->
  btoa bs = Return ((b64_char <$> b64_groups bs) ++ replicate (b64_padding (length bs)) 61).
Proof.
  intros Hbs. unfold btoa.
  assert (H : forallb (fun c => (0 <=? c) && (c <=? 255)) bs = true).
  { induction Hbs as [|b bs Hb _ IH]; [done|]. simpl. rewrite IH.
    unfold is_byte in Hb.
    destruct (Z.leb_spec 0 b); [|lia]. destruct (Z.leb_spec b 255); [done|lia]. }
  by rewrite H.
Qed.

(** Decoding what an encoder wrote: the groups come back. *)
Lemma atob_encoded gs p :
  Forall is_group gs ->
  ((length gs + p) mod 4 = 0)%nat -> (length gs mod 4 <> 1)%nat -> (p <= 2)%nat ->
  atob ((b64_char <$> gs) ++ replicate p 61) = Return (b64_ungroup gs).
Proof.
  intros Hgs Hlen Hne Hp. unfold atob.
  set (chars := b64_char <$> gs).
  assert (Hplain : Forall (fun c => c <> 61 /\ is_ascii_whitespace c = false) chars).
  { unfold chars. apply Forall_fmap. eapply Forall_impl; [exact Hgs|].
    intros g Hg. by apply b64_char_plain. }
  assert (Hfilter : filter (fun c => is_ascii_whitespace c = false) (chars ++ replicate p 61)
                    = chars ++ replicate p 61).
  { rewrite filter_app. f_equal.
    - clear -Hplain. induction Hplain as [|c l [_ Hc] _ IH]; [done|].
      by rewrite filter_cons_True, IH.
    - clear. induction p as [|p IH]; [done|]. simpl.
      by rewrite filter_cons_True, IH. }
  rewrite Hfilter.
  assert (Hstrip : strip_padding (chars ++ replicate p 61) = chars).
  { unfold strip_padding.
    rewrite length_app, length_replicate. unfold chars at 1. rewrite length_fmap.
    rewrite Hlen. simpl. rewrite reverse_app, reverse_replicate.
    assert (Hrev : Forall (fun c => c <> 61) (reverse chars)).
    { apply Forall_reverse. eapply Forall_impl; [exact Hplain|]. by intros c [? _]. }
    assert (Hback : reverse (reverse chars) = chars) by apply reverse_involutive.
    destruct (reverse chars) as [|c r] eqn:Hrc.
    - destruct p as [|[|[|p]]]; [| | |lia]; simpl; rewrite <- Hback; by rewrite ?app_nil_r.
    - apply Forall_cons in Hrev as [Hc _].
      destruct p as [|[|[|p]]]; [| | |lia]; simpl.
      + destruct (Z.eqb_spec c 61); [done|]. by rewrite app_nil_r.
      + destruct (Z.eqb_spec c 61); [done|]. done.
      + done. }
  rewrite Hstrip. unfold chars at 1. rewrite length_fmap.
  destruct (Nat.eqb_spec (length gs mod 4) 1); [done|].
  assert (Hmap : mapM b64_index chars = Some gs).
  { unfold chars. apply mapM_fmap_Forall_Some.
    eapply Forall_impl; [exact Hgs|]. intros g Hg. by apply b64_index_char. }
  by rewrite Hmap.
Qed.

Lemma atob_btoa bs : Forall is_byte bs -> btoa bs ≫= atob = Return bs.
Proof.
  intros Hbs. rewrite btoa_bytes by done. change (Return ?a ≫= ?k) with (k a).
  destruct (b64_length bs) as (H1 & H2 & H3).
  rewrite atob_encoded; [|by apply b64_groups_range|done..].
  by rewrite b64_ungroup_groups.
Qed.
End base64.

Section crypto_base64.
Local Open Scope Z_scope.
Import Crypto.

Lemma bufferToBase64_btoa bytes :
  Forall is_byte bytes -> bufferToBase64 bytes = JS.btoa bytes.
Proof.
  intros Hb. unfold bufferToBase64. rewrite foldl_app_bind. simpl. f_equal.
  induction Hb as [|b bs Hb _ IH]; [done|].
  change (mbind JS.fromCharCode (b :: bs)) with (JS.fromCharCode b ++ (bs ≫= JS.fromCharCode)).
  rewrite IH. unfold JS.fromCharCode, is_byte in *. simpl. f_equal.
  rewrite Z.mod_small; lia.
Qed.

Lemma base64ToBytes_atob base64 binary :
  JS.atob base64 = Return binary -> Forall is_byte binary ->
  base64ToBytes base64 = Return binary.
Proof.
  intros Hatob Hb. unfold base64ToBytes. rewrite Hatob.
  change (Return ?a ≫= ?k) with (k a). cbv beta. f_equal.
  pose proof (fill_id (fun i => JS.ToUint8 (JS.at0 binary i))
                (replicate (length binary) 0)) as H.
  rewrite length_replicate in H. unfold fill in H. rewrite H. clear H.
  apply list_eq. intros i. rewrite list_lookup_fmap.
  destruct (decide (i < length binary)%nat) as [Hi|Hi].
  - rewrite lookup_seq_lt by done. simpl.
    destruct (lookup_lt_is_Some_2 binary i Hi) as [b Hbi].
    unfold JS.at0. rewrite Hbi. simpl.
    assert (is_byte b) as Hbyte.
    { rewrite Forall_forall in Hb. apply Hb. by eapply list_elem_of_lookup_2. }
    unfold JS.ToUint8, is_byte in *. by rewrite Z.mod_small by lia.
  - rewrite lookup_seq_ge by lia. simpl. symmetry. apply lookup_ge_None_2. lia.
Qed.

(** C9.  For every byte array [b], decoding the base64 text that
    [bufferToBase64] produced gives [b] back. *)
Theorem base64_roundtrip (b : list Z) :
  Forall is_byte b -> bufferToBase64 b ≫= base64ToBytes = Return b.
Proof.
  intros Hb. rewrite bufferToBase64_btoa by done.
  pose proof (atob_btoa b Hb) as H.
  destruct (JS.btoa b) as [encoded|e]; [|discriminate].
  change (Return ?a ≫= ?k) with (k a) in H |- *.
  by apply base64ToBytes_atob.
Qed.

(** The bytes 0, 200, 255, 77 come back. *)
Lemma base64_roundtrip_example :
  bufferToBase64 [0; 200; 255; 77] ≫= base64ToBytes = Return [0; 200; 255; 77].
Proof.
  apply (base64_roundtrip [0; 200; 255; 77]).
  repeat (constructor; [unfold is_byte; lia|]). constructor.
Defined.
End crypto_base64.

(** ** The relay: store and forward, trust gating, presence *)

Section relay.
Import Relay.

Lemma emit_fields sock ev p st :
  friends (emit sock ev p st) = friends st
  /\ socketsByUser (emit sock ev p st) = socketsByUser st
  /\ undeliveredMessages (emit sock ev p st) = undeliveredMessages st.
Proof. done. Qed.

Lemma sendOrStore_online userId ev p st sock :
  socketsByUser st !! userId = Some sock ->
  sendOrStore userId ev p st = emit sock ev p st.
Proof. intros H. unfold sendOrStore. by rewrite H. Qed.

Lemma sendOrStore_offline userId ev p st :
  socketsByUser st !! userId = None ->
  sendOrStore userId ev p st =
    mkState (friends st) (socketsByUser st)
            (<[userId := queue_of userId st ++ [mkMessage ev p]]> (undeliveredMessages st))
            (outbox st).
Proof. intros H. unfold sendOrStore. by rewrite H. Qed.

Lemma sendOrStore_sockets userId ev p st :
  socketsByUser (sendOrStore userId ev p st) = socketsByUser st.
Proof. unfold sendOrStore. by destruct (socketsByUser st !! userId). Qed.

Lemma sendOrStore_queue_other userId ev p st u :
  u <> userId -> queue_of u (sendOrStore userId ev p st) = queue_of u st.
Proof.
  intros Hne. unfold sendOrStore, queue_of.
  destruct (socketsByUser st !! userId); [done|]. simpl.
  by rewrite lookup_insert_ne.
Qed.

(** C8.  [sendOrStore] does exactly one of two things.  With a socket
    registered for [userId], the payload is emitted to it and the map of
    undelivered messages is unchanged; with none, nothing is emitted and
    the payload goes to the tail of [userId]'s bucket, every other bucket
    unchanged.  The presence map is never touched. *)
Theorem sendOrStore_effect (userId ev : string) (p : object) (st : state) :
  socketsByUser (sendOrStore userId ev p st) = socketsByUser st
  /\ match socketsByUser st !! userId with
     | Some targetSocket =>
         outbox (sendOrStore userId ev p st)
           = outbox st ++ [mkEmission targetSocket (mkMessage ev p)]
         /\ undeliveredMessages (sendOrStore userId ev p st) = undeliveredMessages st
     | None =>
         outbox (sendOrStore userId ev p st) = outbox st
         /\ undeliveredMessages (sendOrStore userId ev p st) !! userId
            = Some (default [] (undeliveredMessages st !! userId) ++ [mkMessage ev p])
         /\ forall other, other <> userId ->
              undeliveredMessages (sendOrStore userId ev p st) !! other
              = undeliveredMessages st !! other
     end.
Proof.
  split; [apply sendOrStore_sockets|].
  destruct (socketsByUser st !! userId) as [sock|] eqn:Hs.
  - by rewrite (sendOrStore_online _ _ _ _ sock).
  - rewrite sendOrStore_offline by done. simpl. split; [done|]. split.
    + by rewrite lookup_insert_eq.
    + intros other Hne. by rewrite lookup_insert_ne.
Qed.

Lemma flush_outbox socket (pending : list message) st :
  let st' := foldl (fun st m => emit socket (event m) (payload m) st) st pending in
  outbox st' = outbox st ++ (mkEmission socket <$> pending)
  /\ friends st' = friends st
  /\ socketsByUser st' = socketsByUser st
  /\ undeliveredMessages st' = undeliveredMessages st.
Proof.
  revert st; induction pending as [|m pending IH]; intros st; simpl.
  - by rewrite app_nil_r.
  - destruct (IH (emit socket (event m) (payload m) st)) as (-> & -> & -> & ->).
    simpl. rewrite <- app_assoc. by destruct m.
Qed.

(** The connection handler: the bucket is emitted in order to the new
    socket, which becomes the user's handle, and the bucket is reset. *)
Lemma on_connection_effect socket st :
  let u := socket_user socket in
  outbox (on_connection socket st) = outbox st ++ (mkEmission socket <$> queue_of u st)
  /\ undeliveredMessages (on_connection socket st) = <[u := []]> (undeliveredMessages st)
  /\ socketsByUser (on_connection socket st) = <[u := socket]> (socketsByUser st)
  /\ friends (on_connection socket st) = friends st.
Proof.
  intros u. unfold on_connection. cbn [undeliveredMessages].
  match goal with
  | |- context [foldl ?f ?s ?l] =>
      destruct (flush_outbox socket l s) as (Ho & Hf & Hs & Hu)
  end.
  cbn [outbox friends socketsByUser undeliveredMessages] in *.
  by rewrite Ho, Hf, Hs, Hu.
Qed.

Lemma has_friend_Some socket toUserId st t :
  has_friend socket toUserId st = Some t ->
  toUserId = Some (VString t) /\ trusted st (socket_user socket) t.
Proof.
  unfold has_friend, trusted. destruct toUserId as [[| s |]|]; try done.
  destruct (decide _); [|done]. by intros [= ->].
Qed.

Lemma has_friend_untrusted socket st t :
  ~ trusted st (socket_user socket) t -> has_friend socket (Some (VString t)) st = None.
Proof. unfold has_friend, trusted. intros H. by destruct (decide _). Qed.

Lemma delivered_to_app socket l1 l2 :
  delivered_to socket (l1 ++ l2) = delivered_to socket l1 ++ delivered_to socket l2.
Proof. unfold delivered_to. by rewrite filter_app, fmap_app. Qed.

Lemma delivered_to_own socket (ms : list message) :
  delivered_to socket (mkEmission socket <$> ms) = ms.
Proof.
  unfold delivered_to. induction ms as [|m ms IH]; [done|].
  rewrite fmap_cons, filter_cons_True by done. rewrite fmap_cons. simpl. by rewrite IH.
Qed.

(** A foreign input leaves [u] offline and its bucket as it was. *)
Lemma foreign_step u st i :
  foreign u i -> socketsByUser st !! u = None ->
  socketsByUser (step st i) !! u = None /\ queue_of u (step st i) = queue_of u st.
Proof.
  intros Hf Hoff. destruct i as [s|s arg|s arg|s|x fs]; cbn [step foreign] in *.
  - destruct (on_connection_effect s st) as (_ & Hu & Hs & _).
    unfold queue_of. rewrite Hu, Hs. by rewrite !lookup_insert_ne.
  - unfold on_dh_public. destruct (has_friend _ _ _) as [t|] eqn:Ht; [|done].
    apply has_friend_Some in Ht as [Ht _].
    rewrite sendOrStore_sockets. split; [done|].
    apply sendOrStore_queue_other. congruence.
  - unfold on_secure_message. destruct (has_friend _ _ _) as [t|] eqn:Ht; [|done].
    apply has_friend_Some in Ht as [Ht _].
    rewrite sendOrStore_sockets. split; [done|].
    apply sendOrStore_queue_other. congruence.
  - split; [|done]. unfold on_disconnect. cbn [socketsByUser].
    destruct (decide (socket_user s = u)) as [->|Hne].
    + apply lookup_delete_eq.
    + by rewrite lookup_delete_ne.
  - done.
Qed.

Lemma offline_trace_queue u st es st' :
  offline_trace u st es st' ->
  socketsByUser st !! u = None ->
  socketsByUser st' !! u = None /\ queue_of u st' = queue_of u st ++ es.
Proof.
  induction 1 as [st|st ev p es st' _ IH|st i es st' Hf _ IH]; intros Hoff.
  - by rewrite app_nil_r.
  - destruct IH as [Hoff' Hq]; [by rewrite sendOrStore_sockets|].
    split; [done|]. rewrite Hq, sendOrStore_offline by done.
    unfold queue_of at 1. simpl. rewrite lookup_insert_eq. simpl.
    by rewrite <- app_assoc.
  - destruct (foreign_step u st i Hf Hoff) as [Hoff1 Hq1].
    destruct (IH Hoff1) as [Hoff' Hq]. split; [done|]. by rewrite Hq, Hq1.
Qed.

(** C4.  Events stored for an offline user, among inputs that do not
    concern that user, are all emitted to the socket of its next
    connection, in the order they were stored and after what its bucket
    already held; the bucket is empty afterwards, so a later connection
    emits none of them again. *)
Theorem store_and_forward_fifo (u : string) (st st1 : state) (es : list message)
    (socket : Socket) :
  socket_user socket = u ->
  socketsByUser st !! u = None ->
  offline_trace u st es st1 ->
  let st2 := on_connection socket st1 in
  outbox st2 = outbox st1 ++ (mkEmission socket <$> (queue_of u st ++ es))
  /\ delivered_to socket (outbox st2)
     = delivered_to socket (outbox st1) ++ (queue_of u st ++ es)
  /\ undeliveredMessages st2 !! u = Some []
  /\ socketsByUser st2 !! u = Some socket
  /\ forall socket', socket_user socket' = u ->
       outbox (on_connection socket' st2) = outbox st2.
Proof.
  intros Hu Hoff Htrace st2.
  destruct (offline_trace_queue u st es st1 Htrace Hoff) as [_ Hq].
  destruct (on_connection_effect socket st1) as (Ho & Hund & Hs & _).
  rewrite Hu in Ho, Hund, Hs. fold st2 in Ho, Hund, Hs.
  split; [by rewrite Ho, Hq|].
  split; [by rewrite Ho, Hq, delivered_to_app, delivered_to_own|].
  split; [by rewrite Hund, lookup_insert_eq|].
  split; [by rewrite Hs, lookup_insert_eq|].
  intros socket' Hu'. destruct (on_connection_effect socket' st2) as (Ho' & _).
  rewrite Ho', Hu'. unfold queue_of at 1. rewrite Hund, lookup_insert_eq. simpl.
  by rewrite app_nil_r.
Qed.

(** C5.  When the sender's friend set does not hold the target, the
    ['dh-public'] and ['secure-message'] listeners leave the whole relay
    state as it was: nothing is emitted to the target's socket or to the
    sender's, and no bucket changes. *)
Theorem untrusted_event_dropped (st : state) (socket : Socket) (arg : object) (b : string) :
  arg !! "toUserId" = Some (VString b) ->
  ~ trusted st (socket_user socket) b ->
  on_dh_public socket arg st = st /\ on_secure_message socket arg st = st.
Proof.
  intros Hto Hnot. unfold on_dh_public, on_secure_message.
  by rewrite Hto, has_friend_untrusted.
Qed.

(** C10.  The disconnect listener deletes the presence entry of the
    socket's user whichever socket the entry holds: when a socket [new] of
    the same user, registered after [old], is the entry, the disconnect of
    [old] removes it too; the user is then offline, and an event sent to
    the user is stored instead of emitted to [new]. *)
Theorem disconnect_removes_newer_socket (st : state) (old new : Socket) :
  socket_user old = socket_user new ->
  socketsByUser st !! socket_user new = Some new ->
  let st' := on_disconnect old st in
  socketsByUser st' !! socket_user new = None
  /\ forall ev p,
       outbox (sendOrStore (socket_user new) ev p st') = outbox st
       /\ queue_of (socket_user new) (sendOrStore (socket_user new) ev p st')
          = queue_of (socket_user new) st ++ [mkMessage ev p].
Proof.
  intros Hu Hnew st'.
  assert (Hoff : socketsByUser st' !! socket_user new = None).
  { unfold st', on_disconnect. simpl. rewrite Hu. apply lookup_delete_eq. }
  split; [done|]. intros ev p. rewrite sendOrStore_offline by done.
  unfold queue_of. simpl. by rewrite lookup_insert_eq.
Qed.
End relay.

(** ** The client: what handlers leave unchanged *)

Section client_frames.
Context {wc : WebCrypto}.
Import Client.

Section rules.
Context (R : client -> client -> Prop) `{!Reflexive R} `{!Transitive R}.

Lemma preserves_ret {A} (a : A) : preserves R (mret a).
Proof. intros c. simpl. reflexivity. Qed.

Lemma preserves_get : preserves R get.
Proof. intros c. simpl. reflexivity. Qed.

Lemma preserves_lift {A} (r : completion A) : preserves R (lift r).
Proof. intros c. simpl. reflexivity. Qed.

Lemma preserves_modify (f : client -> client) :
  (forall c, R c (f c)) -> preserves R (modify f).
Proof. intros H c. apply H. Qed.

Lemma preserves_fresh : (forall c, R c (update_entropy S c)) -> preserves R fresh.
Proof. intros H c. apply H. Qed.

Lemma preserves_bind {A B} (m : M A) (k : A -> M B) :
  preserves R m -> (forall a, preserves R (k a)) -> preserves R (m ≫= k).
Proof.
  intros Hm Hk c. unfold mbind, M_bind. specialize (Hm c).
  destruct (m c) as [c' [a|e]]; simpl in *; [|done].
  etransitivity; [exact Hm|apply Hk].
Qed.

(** After [get] the continuation may use that it was handed the state. *)
Lemma preserves_get_bind {B} (k : client -> M B) :
  (forall c, R c (k c c).1) -> preserves R (get ≫= k).
Proof. intros Hk c. apply Hk. Qed.

Lemma preserves_try_catch {A} (body : M A) (handler : exn -> M A) :
  preserves R body -> (forall e, preserves R (handler e)) ->
  preserves R (try_catch body handler).
Proof.
  intros Hb Hh c. unfold try_catch. specialize (Hb c).
  destruct (body c) as [c' [a|e]]; simpl in *; [done|].
  etransitivity; [exact Hb|apply Hh].
Qed.

Lemma preserves_for_of {A} (l : list A) (body : A -> M unit) :
  (forall a, preserves R (body a)) -> preserves R (for_of l body).
Proof.
  intros Hb. induction l as [|a l IH]; simpl.
  - apply preserves_ret.
  - apply preserves_bind; [apply Hb|]. intros _. apply IH.
Qed.
End rules.
End client_frames.

(** One step of a frame proof: a rule of the monad, or a case split on
    what the code matches on; [tac] shows a [modify] is in the relation. *)
Ltac frame_step tac :=
  first
    [ apply preserves_ret; typeclasses eauto
    | apply preserves_get; typeclasses eauto
    | apply preserves_lift; typeclasses eauto
    | apply preserves_fresh; intros ?; tac
    | apply preserves_modify; intros ?; tac
    | apply preserves_bind; [typeclasses eauto| |intros ?]
    | apply preserves_try_catch; [typeclasses eauto| |intros ?]
    | apply preserves_for_of; [typeclasses eauto..|intros ?]
    | match goal with
      | |- preserves _ (match ?x with _ => _ end) => destruct x
      end ].

Section client_announces.
Context {wc : WebCrypto}.
Import Client.

#[local] Instance only_announces_refl : Reflexive only_announces.
Proof. intros c. repeat split. exists []. by rewrite app_nil_r. Qed.

#[local] Instance only_announces_trans : Transitive only_announces.
Proof.
  intros c1 c2 c3 (Hd1 & Hs1 & l1 & Hl1 & Hf1) (Hd2 & Hs2 & l2 & Hl2 & Hf2).
  split; [congruence|]. split; [congruence|].
  exists (l1 ++ l2). split; [by rewrite Hl2, Hl1, app_assoc|by apply Forall_app].
Qed.

(** A state change that touches neither the draft nor the socket. *)
Lemma only_announces_same c c' :
  draft c' = draft c -> socketRef c' = socketRef c -> sent c' = sent c ->
  only_announces c c'.
Proof. intros Hd Hs Ho. repeat split; [done..|]. exists []. by rewrite app_nil_r. Qed.

Ltac announce_modify :=
  first
    [ by apply only_announces_same
    | match goal with
      | |- only_announces ?c (if socketRef ?c then _ else _) =>
          destruct (socketRef c) eqn:?; [|reflexivity];
          split; [done|]; split; [done|];
          eexists [_]; split; [reflexivity|]; by repeat constructor
      end ].

Lemma ensureDHState_announces friendId : preserves only_announces (ensureDHState friendId).
Proof.
  unfold ensureDHState, dh_write.
  repeat frame_step announce_modify.
Qed.

Lemma emitPublicKey_announces friendId : preserves only_announces (emitPublicKey friendId).
Proof.
  unfold emitPublicKey, dh_write, socket_emit.
  repeat first [apply ensureDHState_announces | frame_step announce_modify].
Qed.

Lemma decryptIncoming_announces p : preserves only_announces (decryptIncoming p).
Proof.
  unfold decryptIncoming, queuePendingMessage, setStatus, setFlowStage, console_error,
    pushMessage.
  repeat first [apply emitPublicKey_announces | frame_step announce_modify].
Qed.

Lemma runPendingMessages_announces friendId :
  preserves only_announces (runPendingMessages friendId).
Proof.
  unfold runPendingMessages.
  repeat first [apply decryptIncoming_announces | frame_step announce_modify].
Qed.

(** Receiving a public key emits nothing but public-key announces and
    leaves the draft alone, whether it returns or throws. *)
Lemma deriveSharedSecret_announces friendId jwk :
  preserves only_announces (deriveSharedSecret friendId jwk).
Proof.
  unfold deriveSharedSecret, dh_write, setStatus.
  repeat first [apply ensureDHState_announces | apply runPendingMessages_announces
               | apply emitPublicKey_announces | frame_step announce_modify].
Qed.

(** Announcing a key never throws. *)
Lemma emitPublicKey_returns friendId c : (emitPublicKey friendId c).2 = Return tt.
Proof.
  unfold emitPublicKey, ensureDHState, dh_write, socket_emit, fresh, get, modify,
    mbind, M_bind, mret, M_ret.
  repeat (case_match; simplify_eq/=); done.
Qed.

#[local] Instance keeps_buffers_refl : Reflexive keeps_buffers.
Proof. by intros c. Qed.

#[local] Instance keeps_buffers_trans : Transitive keeps_buffers.
Proof. intros c1 c2 c3 (? & ? & ?) (? & ? & ?). repeat split; congruence. Qed.

Ltac buffers_modify :=
  first [ done | match goal with |- keeps_buffers ?c (if ?b then _ else _) => by destruct b end ].

Lemma ensureDHState_buffers friendId : preserves keeps_buffers (ensureDHState friendId).
Proof. unfold ensureDHState, dh_write. repeat frame_step buffers_modify. Qed.

Lemma emitPublicKey_buffers friendId : preserves keeps_buffers (emitPublicKey friendId).
Proof.
  unfold emitPublicKey, dh_write, socket_emit.
  repeat first [apply ensureDHState_buffers | frame_step buffers_modify].
Qed.

(** [handleSendMessage] with no shared key for the selected friend. *)
Lemma handleSendMessage_waiting c selected tok :
  truthy (token c) = Some tok ->
  truthy (selectedFriendId c) = Some selected ->
  JS.trim (draft c) <> [] ->
  sharedKey (dh_state selected c) = None ->
  handleSendMessage c =
    (update_status (fun _ => "Waiting for shared key exchange")
       (emitPublicKey selected c).1, Return tt).
Proof.
  intros Htok Hsel Hdraft Hkey. unfold handleSendMessage.
  unfold mbind at 1. unfold M_bind at 1. unfold get at 1.
  rewrite Htok, Hsel. destruct (JS.trim (draft c)) as [|x text]; [done|].
  unfold ensureSharedKey.
  unfold mbind at 1. unfold M_bind at 1.
  unfold mbind at 1. unfold M_bind at 1. unfold get at 1.
  rewrite Hkey.
  unfold mbind at 1. unfold M_bind at 1.
  pose proof (emitPublicKey_returns selected c) as Hret.
  destruct (emitPublicKey selected c) as [c' r]. simpl in Hret. subst r.
  reflexivity.
Qed.
End client_announces.


(** ** The client: key agreement that fails *)

Section key_agreement.
Context {wc : WebCrypto}.
Import Client.

(** What [ensureDHState] does to the peer's state: a missing key pair is
    generated, nothing else changes. *)
Lemma ensureDHState_spec friendId c :
  let c' := (ensureDHState friendId c).1 in
  (ensureDHState friendId c).2 = Return tt
  /\ dh_state friendId c' =
       mkDH (match keyPair (dh_state friendId c) with
             | Some kp => Some kp
             | None => Some (Crypto.createKeyPair (entropy c))
             end)
            (sharedKey (dh_state friendId c)) (sentPublic (dh_state friendId c))
  /\ (forall other, other <> friendId -> sharedKeys c' !! other = sharedKeys c !! other)
  /\ sent c' = sent c
  /\ pendingMessagesRef c' = pendingMessagesRef c
  /\ status c' = status c.
Proof.
  unfold ensureDHState, dh_write, fresh, get, modify, mbind, M_bind, mret, M_ret, dh_state.
  destruct (sharedKeys c !! friendId) as [s|] eqn:Hs; simpl.
  - unfold dh_state. rewrite Hs. simpl. destruct (keyPair s) as [kp|] eqn:Hkp; simpl.
    + rewrite Hs. simpl. repeat split; try done. by destruct s; simplify_eq/=.
    + rewrite lookup_insert_eq, Hs. simpl. repeat split; try done.
      intros other Hne. by rewrite lookup_insert_ne.
  - unfold dh_state. simpl. rewrite lookup_insert_eq. simpl.
    rewrite !lookup_insert_eq. simpl. repeat split; try done.
    intros other Hne. by rewrite !lookup_insert_ne.
Qed.

(** C7, as the code has it.  When the peer's public key cannot be imported
    or used, [deriveSharedSecret] throws that error to its caller;
    [sharedKey] and [sentPublic] of the peer's state are as before, and so
    is its key pair when it had one, but a peer state without a key pair
    now holds a freshly generated one, because [ensureDHState] runs before
    the import.  No other peer's state changes and nothing is emitted. *)
Theorem failed_key_agreement (c : client) (friendId : string)
    (theirPublic : JsonWebKey) (e : exn) :
  agreement_fails theirPublic e ->
  let c' := (deriveSharedSecret friendId theirPublic c).1 in
  (deriveSharedSecret friendId theirPublic c).2 = Throw e
  /\ sharedKey (dh_state friendId c') = sharedKey (dh_state friendId c)
  /\ sentPublic (dh_state friendId c') = sentPublic (dh_state friendId c)
  /\ keyPair (dh_state friendId c') =
       match keyPair (dh_state friendId c) with
       | Some kp => Some kp
       | None => Some (Crypto.createKeyPair (entropy c))
       end
  /\ (forall other, other <> friendId -> sharedKeys c' !! other = sharedKeys c !! other)
  /\ sent c' = sent c
  /\ pendingMessagesRef c' = pendingMessagesRef c.
Proof.
  intros Hfail.
  destruct (ensureDHState_spec friendId c) as (Hret & Hdh & Hother & Hsent & Hpend & _).
  assert (Hrun : deriveSharedSecret friendId theirPublic c
                 = ((ensureDHState friendId c).1, Throw e)).
  { unfold deriveSharedSecret. unfold mbind at 1. unfold M_bind at 1.
    destruct (ensureDHState friendId c) as [c1 r1]. simpl in *. subst r1.
    unfold agreement_fails in Hfail.
    unfold mbind at 1. unfold M_bind at 1. unfold lift at 1.
    destruct (Crypto.importPublicKey theirPublic) as [imported|e']; [|by subst].
    unfold mbind at 1. unfold M_bind at 1. unfold get at 1.
    rewrite Hdh. simpl.
    destruct (keyPair (dh_state friendId c)) as [kp|];
      unfold mbind at 1; unfold M_bind at 1; unfold lift at 1; by rewrite Hfail. }
  rewrite Hrun. simpl. rewrite Hdh. simpl. done.
Qed.
End key_agreement.

(** ** The client: the pending buffer *)

Section pending_buffer.
Context {wc : WebCrypto}.
Import Client.
Variable peer : string.

Local Abbreviation keeps_peer := (keeps_peer peer).
Local Abbreviation key_no_bucket := (key_no_bucket peer).
Local Abbreviation keeps_key_no_bucket := (keeps_key_no_bucket peer).

#[local] Instance keeps_peer_refl : Reflexive keeps_peer.
Proof. by intros c. Qed.

#[local] Instance keeps_peer_trans : Transitive keeps_peer.
Proof. intros c1 c2 c3 [? ?] [? ?]. split; congruence. Qed.

#[local] Instance keeps_key_no_bucket_refl : Reflexive keeps_key_no_bucket.
Proof. intros c H. exact H. Qed.

#[local] Instance keeps_key_no_bucket_trans : Transitive keeps_key_no_bucket.
Proof. intros c1 c2 c3 H1 H2 H. by apply H2, H1. Qed.

Lemma keeps_peer_key_no_bucket c c' : keeps_peer c c' -> keeps_key_no_bucket c c'.
Proof. intros [Hk Hp] [HK HP]. split; [by rewrite Hk|by rewrite Hp]. Qed.

(** Writing a [DHState] that carries over the shared key. *)
Lemma keeps_peer_dh_write c friendId kp sp :
  keeps_peer c
    (update_sharedKeys (<[friendId := mkDH kp (sharedKey (dh_state friendId c)) sp]>) c).
Proof.
  split; [|done]. unfold dh_state. simpl.
  destruct (decide (friendId = peer)) as [->|Hne].
  - by rewrite lookup_insert_eq.
  - by rewrite lookup_insert_ne.
Qed.

Ltac peer_modify :=
  first
    [ apply keeps_peer_dh_write
    | done
    | match goal with |- keeps_peer ?c (if ?b then _ else _) => by destruct b end ].

Lemma ensureDHState_peer friendId : preserves keeps_peer (ensureDHState friendId).
Proof.
  intros c. destruct (ensureDHState_spec friendId c) as (_ & Hdh & Hother & _ & Hpend & _).
  split; [|by rewrite Hpend].
  destruct (decide (friendId = peer)) as [->|Hne].
  - by rewrite Hdh.
  - unfold dh_state. by rewrite Hother.
Qed.

Lemma emitPublicKey_peer friendId : preserves keeps_peer (emitPublicKey friendId).
Proof.
  unfold emitPublicKey, dh_write, socket_emit.
  repeat first [apply ensureDHState_peer | frame_step peer_modify].
Qed.

(** Decrypting with a key in place touches neither keys nor buckets. *)
Lemma decrypt_branch_peer p key c :
  preserves keeps_peer
    (try_catch
       (stegoPayload ← lift (Stego.extractTextFromImage (canvas2d c) (payload_imageDataUrl p));
        cipherBytes ← lift (Crypto.base64ToBytes stegoPayload);
        ivBytes ← lift (Crypto.base64ToBytes (payload_iv p));
        plain ← lift (Crypto.decryptWithKey key cipherBytes ivBytes);
        n ← fresh;
        c ← get;
        pushMessage (payload_from p)
          (mkMsg (randomUUID n) (payload_from p) plain (payload_imageDataUrl p)
                 (now c) received_status);;
        setFlowStage finalFlowStageIndex)
       (fun _ => console_error "decrypt incoming failed")).
Proof.
  unfold pushMessage, setFlowStage, console_error.
  repeat frame_step peer_modify.
Qed.

Lemma decryptIncoming_key_no_bucket p :
  preserves keeps_key_no_bucket (decryptIncoming p).
Proof.
  unfold decryptIncoming. apply preserves_get_bind. intros c.
  destruct (sharedKey (dh_state (payload_from p) c)) as [key|] eqn:Hkey.
  - apply keeps_peer_key_no_bucket, decrypt_branch_peer.
  - destruct (decide (payload_from p = peer)) as [Heq|Hne].
    + intros [[k Hk] _]. rewrite Heq in Hkey. congruence.
    + apply keeps_peer_key_no_bucket.
      assert (H : preserves keeps_peer
                    (queuePendingMessage (payload_from p) p;;
                     emitPublicKey (payload_from p);;
                     setStatus "Waiting for peer key to decrypt message")).
      { unfold queuePendingMessage, setStatus.
        apply preserves_bind; [typeclasses eauto| |intros _].
        - apply preserves_modify. intros c0. split; [done|].
          simpl. by rewrite lookup_insert_ne.
        - repeat first [apply emitPublicKey_peer | frame_step peer_modify]. }
      apply H.
Qed.

(** With a key for [peer] in place, replaying its bucket empties it. *)
Lemma runPendingMessages_clears c :
  is_Some (sharedKey (dh_state peer c)) ->
  key_no_bucket (runPendingMessages peer c).1.
Proof.
  intros Hkey. unfold runPendingMessages.
  unfold mbind at 1. unfold M_bind at 1. unfold get at 1.
  destruct (pendingMessagesRef c !! peer) as [[|p bucket]|] eqn:Hb.
  - split; [done|]. simpl. by rewrite Hb.
  - unfold mbind at 1. unfold M_bind at 1. unfold modify at 1.
    apply (preserves_for_of keeps_key_no_bucket (p :: bucket) decryptIncoming
             decryptIncoming_key_no_bucket).
    split; [done|]. simpl. by rewrite lookup_delete_eq.
  - split; [done|]. simpl. by rewrite Hb.
Qed.

(** A payload that arrives before the key is held at the tail of its
    sender's bucket. *)
Lemma decryptIncoming_holds p c :
  sharedKey (dh_state (payload_from p) c) = None ->
  let c' := (decryptIncoming p c).1 in
  pendingMessagesRef c' =
    <[payload_from p := default [] (pendingMessagesRef c !! payload_from p) ++ [p]]>
      (pendingMessagesRef c)
  /\ status c' = "Waiting for peer key to decrypt message".
Proof.
  intros Hkey c'.
  set (c1 := update_pendingMessagesRef
               (<[payload_from p :=
                    default [] (pendingMessagesRef c !! payload_from p) ++ [p]]>) c).
  assert (Hrun : decryptIncoming p c =
                 (update_status (fun _ => "Waiting for peer key to decrypt message")
                    (emitPublicKey (payload_from p) c1).1, Return tt)).
  { unfold decryptIncoming.
    unfold mbind at 1. unfold M_bind at 1. unfold get at 1. rewrite Hkey.
    unfold queuePendingMessage.
    unfold mbind at 1. unfold M_bind at 1. unfold modify at 1.
    unfold mbind at 1. unfold M_bind at 1. fold c1.
    pose proof (emitPublicKey_returns (payload_from p) c1) as Hret.
    destruct (emitPublicKey (payload_from p) c1) as [c2 r].
    simpl in Hret. by subst r. }
  unfold c'. rewrite Hrun. simpl.
  destruct (emitPublicKey_buffers (payload_from p) c1) as (Hp & _ & _).
  by rewrite Hp.
Qed.

Ltac step_in H := unfold mbind at 1 in H; unfold M_bind at 1 in H.

(** After a public key of [peer] was taken in, [peer] has a shared key and
    its bucket is empty. *)
Lemma deriveSharedSecret_clears theirPublic c :
  (deriveSharedSecret peer theirPublic c).2 = Return tt ->
  key_no_bucket (deriveSharedSecret peer theirPublic c).1.
Proof.
  destruct (deriveSharedSecret peer theirPublic c) as [c' res] eqn:Hrun.
  simpl. intros ->. unfold deriveSharedSecret in Hrun.
  step_in Hrun. destruct (ensureDHState peer c) as [c1 [[]|e1]]; [|discriminate].
  step_in Hrun. unfold lift at 1 in Hrun.
  destruct (Crypto.importPublicKey theirPublic) as [imported|e2]; [|discriminate].
  step_in Hrun. unfold get at 1 in Hrun.
  destruct (keyPair (dh_state peer c1)) as [kp|]; [|discriminate].
  step_in Hrun. unfold lift at 1 in Hrun.
  destruct (Crypto.deriveSharedKey kp.1 imported) as [key|e3]; [|discriminate].
  step_in Hrun. unfold dh_write at 1, modify at 1 in Hrun.
  step_in Hrun. unfold modify at 1 in Hrun.
  step_in Hrun. unfold get at 1 in Hrun.
  step_in Hrun. unfold setStatus at 1, modify at 1 in Hrun.
  step_in Hrun.
  match type of Hrun with
  | context [runPendingMessages peer ?c4] =>
      assert (Hclear : key_no_bucket (runPendingMessages peer c4).1);
      [apply runPendingMessages_clears; unfold dh_state; simpl;
       rewrite lookup_insert_eq; simpl; by eexists|];
      destruct (runPendingMessages peer c4) as [c5 [[]|e5]]; [|discriminate]
  end.
  simpl in Hclear. step_in Hrun. unfold get at 1 in Hrun.
  destruct (sentPublic (dh_state peer c5)).
  - by injection Hrun as <-.
  - pose proof (emitPublicKey_peer peer c5) as Hpeer.
    destruct (emitPublicKey peer c5) as [c6 r6]. injection Hrun as <- _.
    by apply (keeps_peer_key_no_bucket c5).
Qed.
End pending_buffer.

(** ** The client: replaying the held payloads *)

Section client_replay.
Context {wc : WebCrypto}.
Import Client.

Lemma dh_state_write f friendId s c :
  dh_state f (update_sharedKeys (<[friendId := s]>) c)
  = if decide (f = friendId) then s else dh_state f c.
Proof.
  unfold dh_state. cbn [sharedKeys update_sharedKeys].
  destruct (decide (f = friendId)) as [->|Hne].
  - by rewrite lookup_insert_eq.
  - by rewrite lookup_insert_ne.
Qed.

Lemma dh_state_sent f g c : dh_state f (update_sent g c) = dh_state f c.
Proof. done. Qed.

(** What [emitPublicKey] does after [ensureDHState]: with the mark not
    set, the key is emitted if there is a socket, and the mark is set
    either way. *)
Lemma emitPublicKey_run friendId c :
  let c1 := (ensureDHState friendId c).1 in
  emitPublicKey friendId c
  = match sentPublic (dh_state friendId c1), keyPair (dh_state friendId c1) with
    | false, Some kp =>
        let c2 := if socketRef c1
                  then update_sent
                         (fun l => l ++ [EmitDhPublic friendId (Crypto.exportPublicKey kp.2)]) c1
                  else c1 in
        (update_sharedKeys
           (<[friendId := mkDH (keyPair (dh_state friendId c2))
                               (sharedKey (dh_state friendId c2)) true]>) c2,
         Return tt)
    | _, _ => (c1, Return tt)
    end.
Proof.
  intros c1. unfold emitPublicKey. unfold mbind at 1. unfold M_bind at 1.
  destruct (ensureDHState_spec friendId c) as (Hret & _).
  subst c1. destruct (ensureDHState friendId c) as [c1 r1]. simpl in Hret. subst r1.
  cbn [fst]. unfold mbind at 1. unfold M_bind at 1. unfold get at 1.
  destruct (sentPublic (dh_state friendId c1)); [done|].
  destruct (keyPair (dh_state friendId c1)) as [kp|]; [|done].
  reflexivity.
Qed.

Lemma try_catch_returns (body : M unit) (handler : exn -> M unit) c :
  (forall e c', (handler e c').2 = Return tt) ->
  (try_catch body handler c).2 = Return tt.
Proof.
  intros Hh. unfold try_catch. destruct (body c) as [c' [[]|e]]; [done|]. apply Hh.
Qed.

Lemma decryptIncoming_returns p c : (decryptIncoming p c).2 = Return tt.
Proof.
  unfold decryptIncoming. unfold mbind at 1. unfold M_bind at 1. unfold get at 1.
  destruct (sharedKey (dh_state (payload_from p) c)) as [key|].
  - by apply try_catch_returns.
  - unfold queuePendingMessage.
    unfold mbind at 1. unfold M_bind at 1. unfold modify at 1.
    unfold mbind at 1. unfold M_bind at 1.
    match goal with
    | |- context [emitPublicKey ?f ?c1] =>
        pose proof (emitPublicKey_returns f c1) as Hret;
        destruct (emitPublicKey f c1) as [c2 r]
    end.
    simpl in Hret. by subst r.
Qed.

Lemma for_of_replay bucket c :
  for_of bucket decryptIncoming c = (replay bucket c, Return tt).
Proof.
  revert c. induction bucket as [|p bucket IH]; intros c; [done|].
  cbn [for_of foldr replay foldl]. unfold mbind at 1. unfold M_bind at 1.
  pose proof (decryptIncoming_returns p c) as Hret.
  destruct (decryptIncoming p c) as [c' r]. cbn [fst snd] in *. subst r.
  apply IH.
Qed.

Lemma runPendingMessages_replays friendId c :
  runPendingMessages friendId c
  = (replay (default [] (pendingMessagesRef c !! friendId)) (take_out friendId c), Return tt).
Proof.
  unfold runPendingMessages, take_out. unfold mbind at 1. unfold M_bind at 1.
  unfold get at 1.
  destruct (pendingMessagesRef c !! friendId) as [[|p bucket]|]; [done| |done].
  unfold mbind at 1. unfold M_bind at 1. unfold modify at 1. apply for_of_replay.
Qed.

(** After [ensureDHState] the peer has an entry of its own. *)
Lemma ensureDHState_entry friendId c :
  sharedKeys (ensureDHState friendId c).1 !! friendId
  = Some (dh_state friendId (ensureDHState friendId c).1).
Proof.
  unfold ensureDHState, dh_write, fresh, get, modify, mbind, M_bind, mret, M_ret.
  destruct (sharedKeys c !! friendId) as [s|] eqn:Hs; simpl.
  - assert (Hdh : dh_state friendId c = s) by (unfold dh_state; by rewrite Hs).
    rewrite Hdh. destruct (keyPair s); simpl.
    + by rewrite Hs, Hdh.
    + unfold dh_state. simpl. by rewrite !lookup_insert_eq.
  - unfold dh_state. simpl. rewrite !lookup_insert_eq. simpl.
    by rewrite !lookup_insert_eq.
Qed.

(** With a key pair in place [ensureDHState] changes nothing. *)
Lemma ensureDHState_idle friendId c s kp :
  sharedKeys c !! friendId = Some s -> keyPair s = Some kp ->
  ensureDHState friendId c = (c, Return tt).
Proof.
  intros Hs Hkp.
  unfold ensureDHState, dh_write, fresh, get, modify, mbind, M_bind, mret, M_ret.
  rewrite Hs. unfold dh_state. rewrite Hs. simpl. by rewrite Hkp.
Qed.

(** [emitPublicKey] leaves the peer with an entry that holds a key pair and
    the mark, and the shared key it had. *)
Lemma emitPublicKey_marks friendId c :
  exists s kp,
    sharedKeys (emitPublicKey friendId c).1 !! friendId = Some s
    /\ keyPair s = Some kp
    /\ sentPublic s = true
    /\ sharedKey s = sharedKey (dh_state friendId c).
Proof.
  rewrite emitPublicKey_run.
  pose proof (ensureDHState_entry friendId c) as Hentry.
  destruct (ensureDHState_spec friendId c) as (_ & Hdh & _).
  set (c1 := (ensureDHState friendId c).1) in *.
  assert (Hkp : exists kp, keyPair (dh_state friendId c1) = Some kp).
  { rewrite Hdh. simpl. destruct (keyPair (dh_state friendId c)); by eexists. }
  destruct Hkp as [kp Hkp]. rewrite Hkp.
  destruct (sentPublic (dh_state friendId c1)) eqn:Hsp.
  - exists (dh_state friendId c1), kp. cbn [fst].
    split; [exact Hentry|]. split; [exact Hkp|]. split; [exact Hsp|]. by rewrite Hdh.
  - cbn [fst]. eexists _, kp. cbn [sharedKeys update_sharedKeys].
    rewrite lookup_insert_eq. split; [reflexivity|]. cbn [keyPair sentPublic sharedKey].
    destruct (socketRef c1); rewrite ?dh_state_sent, Hkp; by rewrite Hdh.
Qed.

#[local] Instance keeps_mark_refl peer : Reflexive (keeps_mark peer).
Proof. intros c H. exact H. Qed.

#[local] Instance keeps_mark_trans peer : Transitive (keeps_mark peer).
Proof. intros c1 c2 c3 H1 H2 H. by apply H2, H1. Qed.

Lemma keeps_mark_same peer c c' : sharedKeys c' = sharedKeys c -> keeps_mark peer c c'.
Proof. intros H. unfold keeps_mark, dh_state. by rewrite H. Qed.

Lemma keeps_mark_write peer c friendId kp sk sp :
  (sentPublic (dh_state friendId c) = true -> sp = true) ->
  keeps_mark peer c (update_sharedKeys (<[friendId := mkDH kp sk sp]>) c).
Proof.
  intros Hsp H. rewrite dh_state_write. destruct (decide (peer = friendId)) as [->|Hne].
  - by apply Hsp.
  - done.
Qed.

Ltac mark_modify :=
  first
    [ apply keeps_mark_write; done
    | match goal with
      | |- keeps_mark _ ?c (if socketRef ?c then _ else _) =>
          destruct (socketRef c); by apply keeps_mark_same
      end
    | apply keeps_mark_same; reflexivity ].

Lemma ensureDHState_mark peer friendId : preserves (keeps_mark peer) (ensureDHState friendId).
Proof.
  intros c H. destruct (ensureDHState_spec friendId c) as (_ & Hdh & Hother & _).
  destruct (decide (peer = friendId)) as [->|Hne].
  - by rewrite Hdh.
  - unfold dh_state. rewrite Hother by done. exact H.
Qed.

Lemma emitPublicKey_mark peer friendId : preserves (keeps_mark peer) (emitPublicKey friendId).
Proof.
  unfold emitPublicKey, dh_write, socket_emit.
  repeat first
    [ match goal with
      | |- preserves _ (ensureDHState _) => apply ensureDHState_mark
      end
    | frame_step mark_modify ].
Qed.

Lemma decryptIncoming_mark peer p : preserves (keeps_mark peer) (decryptIncoming p).
Proof.
  unfold decryptIncoming, queuePendingMessage, setStatus, setFlowStage, console_error,
    pushMessage.
  repeat first
    [ match goal with
      | |- preserves _ (emitPublicKey _) => apply emitPublicKey_mark
      end
    | frame_step mark_modify ].
Qed.

Lemma replay_mark peer bucket c : keeps_mark peer c (replay bucket c).
Proof.
  revert c. induction bucket as [|p bucket IH]; intros c; [done|].
  cbn [replay foldl]. etrans; [apply decryptIncoming_mark|]. apply IH.
Qed.

(** The run of [deriveSharedSecret] for a peer that has a key pair and the
    mark: it throws what import or derivation throws, and otherwise stores
    the key and replays the peer's bucket. *)
Lemma deriveSharedSecret_replays friendId theirPublic c s kp :
  sharedKeys c !! friendId = Some s -> keyPair s = Some kp -> sentPublic s = true ->
  deriveSharedSecret friendId theirPublic c
  = match Crypto.importPublicKey theirPublic with
    | Throw e => (c, Throw e)
    | Return imported =>
        match Crypto.deriveSharedKey kp.1 imported with
        | Throw e => (c, Throw e)
        | Return key =>
            (replay (default [] (pendingMessagesRef c !! friendId))
               (take_out friendId (with_key friendId key c)),
             Return tt)
        end
    end.
Proof.
  intros Hs Hkp Hsp.
  assert (Hdh : dh_state friendId c = s) by (unfold dh_state; by rewrite Hs).
  unfold deriveSharedSecret. unfold mbind at 1. unfold M_bind at 1.
  rewrite (ensureDHState_idle friendId c s kp) by done.
  unfold mbind at 1. unfold M_bind at 1. unfold lift at 1.
  destruct (Crypto.importPublicKey theirPublic) as [imported|e]; [|done].
  unfold mbind at 1. unfold M_bind at 1. unfold get at 1. rewrite Hdh, Hkp.
  unfold mbind at 1. unfold M_bind at 1. unfold lift at 1.
  destruct (Crypto.deriveSharedKey kp.1 imported) as [key|e]; [|done].
  unfold mbind at 1. unfold M_bind at 1. unfold dh_write at 1. unfold modify at 1.
  unfold mbind at 1. unfold M_bind at 1. unfold modify at 1.
  unfold mbind at 1. unfold M_bind at 1. unfold get at 1.
  unfold mbind at 1. unfold M_bind at 1. unfold setStatus at 1. unfold modify at 1.
  unfold mbind at 1. unfold M_bind at 1.
  rewrite runPendingMessages_replays.
  unfold mbind at 1. unfold M_bind at 1. unfold get at 1.
  match goal with
  | |- context [replay ?b ?c0] =>
      assert (Hc0 : c0 = take_out friendId (with_key friendId key c));
      [|assert (Hb : b = default [] (pendingMessagesRef c !! friendId))]
  end.
  { unfold with_key. rewrite Hdh. reflexivity. }
  { reflexivity. }
  rewrite Hc0, Hb.
  assert (Hmark : sentPublic
                    (dh_state friendId
                       (replay (default [] (pendingMessagesRef c !! friendId))
                          (take_out friendId (with_key friendId key c)))) = true).
  { apply replay_mark. unfold take_out, with_key.
    assert (Hw : forall c', sharedKeys c'
                   = <[friendId := mkDH (keyPair (dh_state friendId c)) (Some key)
                                        (sentPublic (dh_state friendId c))]> (sharedKeys c) ->
                 sentPublic (dh_state friendId c') = true).
    { intros c' Hc'. unfold dh_state at 1. rewrite Hc', lookup_insert_eq. simpl.
      by rewrite Hdh. }
    cbn [pendingMessagesRef update_status update_keyVersion update_sharedKeys].
    destruct (pendingMessagesRef c !! friendId) as [[|? ?]|]; by apply Hw. }
  by rewrite Hmark.
Qed.
End client_replay.

Section send_without_key.
Context {wc : WebCrypto}.
Import Client.

Lemma only_announces_secure_messages c c' :
  only_announces c c' -> secure_messages (sent c') = secure_messages (sent c).
Proof.
  intros (_ & _ & l & -> & Hl). unfold secure_messages. rewrite filter_app.
  assert (H : filter is_secure_message l = []).
  { induction Hl as [|o l Ho _ IH]; [done|].
    rewrite filter_cons_False; [done|]. destruct o; simpl in *; tauto. }
  by rewrite H, app_nil_r.
Qed.

(** C6, as the code has it.  With no shared key for the selected friend,
    [handleSendMessage] returns with the status "Waiting for shared key
    exchange" and holds the plaintext nowhere but in the editor: the pending
    buffer, the threads and the draft are as before, and no
    ['secure-message'] is emitted.  The pending buffer keyed by peer holds
    incoming payloads: [decryptIncoming] appends a payload there when its
    sender has no key yet.  Receiving that peer's public key afterwards
    emits no ['secure-message'] and leaves the draft alone; when it returns,
    the key derived from the client's own pair and the imported key is
    stored, the peer's bucket is taken out of the buffer, and the state is
    the one reached by handing the payloads of that bucket to
    [decryptIncoming], first to last; the peer then has a key and its
    bucket is empty. *)
Theorem send_without_key_waits (c : client) (selected tok : string)
    (theirPublic : JsonWebKey) :
  truthy (token c) = Some tok ->
  truthy (selectedFriendId c) = Some selected ->
  JS.trim (draft c) <> [] ->
  sharedKey (dh_state selected c) = None ->
  let c1 := (handleSendMessage c).1 in
  let c2 := (handleDhPayload selected theirPublic c1).1 in
  ((handleSendMessage c).2 = Return tt
   /\ status c1 = "Waiting for shared key exchange"
   /\ pendingMessagesRef c1 = pendingMessagesRef c
   /\ threadsRef c1 = threadsRef c
   /\ draft c1 = draft c
   /\ secure_messages (sent c1) = secure_messages (sent c))
  /\ (forall p c0,
        sharedKey (dh_state (payload_from p) c0) = None ->
        pendingMessagesRef (decryptIncoming p c0).1 !! payload_from p
        = Some (default [] (pendingMessagesRef c0 !! payload_from p) ++ [p]))
  /\ (secure_messages (sent c2) = secure_messages (sent c)
      /\ draft c2 = draft c
      /\ ((handleDhPayload selected theirPublic c1).2 = Return tt ->
          is_Some (sharedKey (dh_state selected c2))
          /\ default [] (pendingMessagesRef c2 !! selected) = []
          /\ exists kp imported key,
               keyPair (dh_state selected c1) = Some kp
               /\ Crypto.importPublicKey theirPublic = Return imported
               /\ Crypto.deriveSharedKey kp.1 imported = Return key
               /\ c2 = replay (default [] (pendingMessagesRef c1 !! selected))
                         (take_out selected (with_key selected key c1)))).
Proof.
  intros Htok Hsel Hdraft Hkey c1 c2.
  assert (H1 : only_announces c c1 /\ keeps_buffers c c1
               /\ status c1 = "Waiting for shared key exchange"
               /\ (handleSendMessage c).2 = Return tt).
  { unfold c1. rewrite (handleSendMessage_waiting c selected tok) by done. simpl.
    pose proof (emitPublicKey_announces selected c) as Ha.
    pose proof (emitPublicKey_buffers selected c) as Hb.
    split; [|split; [|done]].
    - destruct Ha as (? & ? & l & ? & ?). split; [done|]. split; [done|]. by exists l.
    - destruct Hb as (? & ? & ?). by repeat split. }
  destruct H1 as (Ha1 & (Hp1 & Ht1 & Hd1) & Hs1 & Hr1).
  pose proof (deriveSharedSecret_announces selected theirPublic c1) as Ha2.
  fold (handleDhPayload selected theirPublic) in Ha2. fold c2 in Ha2.
  split; [|split].
  - repeat split; try done. by apply only_announces_secure_messages.
  - intros p c0 Hnone. destruct (decryptIncoming_holds p c0 Hnone) as [-> _].
    by rewrite lookup_insert_eq.
  - split; [|split].
    + rewrite (only_announces_secure_messages c1 c2 Ha2).
      by apply only_announces_secure_messages.
    + destruct Ha2 as (-> & _). done.
    + intros Hret.
      destruct (deriveSharedSecret_clears selected theirPublic c1 Hret) as [Hk Hb].
      split; [exact Hk|]. split; [exact Hb|].
      destruct (emitPublicKey_marks selected c) as (s & kp & Hs & Hkp & Hsp & _).
      assert (Hentry : sharedKeys c1 !! selected = Some s).
      { unfold c1. by rewrite (handleSendMessage_waiting c selected tok). }
      assert (Hrun := deriveSharedSecret_replays selected theirPublic c1 s kp
                        Hentry Hkp Hsp).
      fold (handleDhPayload selected theirPublic) in Hrun.
      unfold c2. rewrite Hrun in Hret |- *.
      exists kp. destruct (Crypto.importPublicKey theirPublic) as [imported|e]; [|done].
      exists imported. destruct (Crypto.deriveSharedKey kp.1 imported) as [key|e]; [|done].
      exists key. split; [|done]. unfold dh_state. rewrite Hentry. exact Hkp.
Qed.
End send_without_key.

(** ** The handlers and the relay on concrete runs *)

(** Split a conjunction and settle its first part by evaluation. *)
Ltac conj_step :=
  match goal with
  | |- _ /\ _ => split; [vm_compute; reflexivity|]
  end.

Section runs.
Import Toy Relay Client.
#[local] Existing Instance toy_crypto.
Local Open Scope Z_scope.

(** C6 fails as stated: Alice sends "hi" to Bob before any key exists.  The
    call returns with the waiting status, but no pending bucket holds the
    text; when Bob's public key then arrives a shared key is derived, and
    all Alice ever emitted is her own public key: "hi" is not sent. *)
Lemma plaintext_is_not_buffered :
  sharedKey (dh_state "bob" alice) = None
  /\ (handleSendMessage alice).2 = Return tt
  /\ status (handleSendMessage alice).1 = "Waiting for shared key exchange"
  /\ pendingMessagesRef (handleSendMessage alice).1 !! "bob" = None
  /\ (handleDhPayload "bob" 8 (handleSendMessage alice).1).2 = Return tt
  /\ sharedKey (dh_state "bob" (handleDhPayload "bob" 8 (handleSendMessage alice).1).1)
     = Some 8
  /\ sent (handleDhPayload "bob" 8 (handleSendMessage alice).1).1 = [EmitDhPublic "bob" 5]
  /\ draft (handleDhPayload "bob" 8 (handleSendMessage alice).1).1 = [104; 105].
Proof. repeat conj_step. vm_compute. reflexivity. Qed.

(** C7 fails as stated: Bob's key 0 is malformed and Alice has no state
    for Bob yet.  The call throws, and Bob's state now holds a key pair
    that was not there before. *)
Lemma failed_agreement_generates_key_pair :
  Crypto.importPublicKey 0 = Throw DataError
  /\ sharedKeys alice !! "bob" = None
  /\ keyPair (dh_state "bob" alice) = None
  /\ (deriveSharedSecret "bob" 0 alice).2 = Throw DataError
  /\ keyPair (dh_state "bob" (deriveSharedSecret "bob" 0 alice).1) = Some (1, 5)
  /\ sharedKeys (deriveSharedSecret "bob" 0 alice).1 !! "bob"
     = Some (mkDH (Some (1, 5)) None false).
Proof. repeat conj_step. vm_compute. reflexivity. Qed.

(** On Alice's client the failed agreement leaves the shared key and the
    sent flag alone and throws the import error. *)
Lemma failed_key_agreement_alice :
  (deriveSharedSecret "bob" 0 alice).2 = Throw DataError
  /\ sharedKey (dh_state "bob" (deriveSharedSecret "bob" 0 alice).1)
     = sharedKey (dh_state "bob" alice)
  /\ sentPublic (dh_state "bob" (deriveSharedSecret "bob" 0 alice).1)
     = sentPublic (dh_state "bob" alice).
Proof.
  pose proof (failed_key_agreement alice "bob" 0 DataError) as H.
  cbv zeta in H. destruct H as (Hr & Hk & Hs & _).
  - vm_compute. reflexivity.
  - split; [exact Hr|]. split; [exact Hk|exact Hs].
Defined.

(** Bob connects after three events were stored for him: he gets the
    three, in the order they were stored. *)
Lemma store_and_forward_three :
  outbox (on_connection bob_socket relay_with_three)
  = outbox relay_with_three ++ (mkEmission bob_socket <$> [event1; event2; event3])
  /\ undeliveredMessages (on_connection bob_socket relay_with_three) !! "bob" = Some [].
Proof.
  pose proof (store_and_forward_fifo "bob" relay0 relay_with_three
                [event1; event2; event3] bob_socket) as H.
  cbv zeta in H. destruct H as (Ho & _ & Hu & _).
  - reflexivity.
  - reflexivity.
  - apply offline_store.
    apply (offline_foreign _ _ (Connection alice_socket)); [discriminate|].
    apply offline_store, offline_store, offline_done.
  - split; [exact Ho|exact Hu].
Defined.

(** Alice's friend set does not hold Bob: her events for Bob are dropped. *)
Lemma untrusted_event_dropped_alice :
  on_dh_public alice_socket {["toUserId" := VString "bob"]} relay0 = relay0
  /\ on_secure_message alice_socket {["toUserId" := VString "bob"]} relay0 = relay0.
Proof.
  apply (untrusted_event_dropped relay0 alice_socket {["toUserId" := VString "bob"]} "bob").
  - reflexivity.
  - unfold trusted. intros H. vm_compute in H. discriminate.
Defined.

(** Bob's older socket disconnects after his newer one registered: Bob is
    offline although the newer socket is live. *)
Lemma disconnect_removes_newer_socket_bob :
  socketsByUser (on_connection bob_newer_socket (on_connection bob_socket relay0)) !! "bob"
  = Some bob_newer_socket
  /\ socketsByUser
       (on_disconnect bob_socket
          (on_connection bob_newer_socket (on_connection bob_socket relay0))) !! "bob"
     = None.
Proof.
  split; [reflexivity|].
  apply (disconnect_removes_newer_socket
           (on_connection bob_newer_socket (on_connection bob_socket relay0))
           bob_socket bob_newer_socket).
  - reflexivity.
  - reflexivity.
Defined.
End runs.

Section replay_runs.
Import ToyPeers Client.
#[local] Existing Instance peers_crypto.
Local Open Scope Z_scope.

(** Alice holds a payload of Bob and sends "hi" before any key exists: the
    send waits and holds nothing.  When Bob's key 8 arrives the held payload
    is taken out and opened, and Bob's "hi" is in his thread. *)
Lemma send_without_key_waits_alice :
  status (handleSendMessage alice_holding).1 = "Waiting for shared key exchange"
  /\ pendingMessagesRef (handleSendMessage alice_holding).1
     = pendingMessagesRef alice_holding
  /\ secure_messages (sent (handleDhPayload "bob" 8 (handleSendMessage alice_holding).1).1)
     = secure_messages (sent alice_holding)
  /\ default []
       (pendingMessagesRef (handleDhPayload "bob" 8 (handleSendMessage alice_holding).1).1
          !! "bob") = []
  /\ threadsRef (handleDhPayload "bob" 8 (handleSendMessage alice_holding).1).1 !! "bob"
     = Some [mkMsg "00000000-0000-4000-8000-000000000000" "bob" [104; 105]
                   (payload_imageDataUrl held_hi) 0 received_status].
Proof.
  pose proof (send_without_key_waits alice_holding "bob" "token-a" 8) as H.
  cbv zeta in H.
  destruct H as ((_ & Hs & Hp & _) & _ & (Hm & _ & Hreplay)).
  - reflexivity.
  - reflexivity.
  - vm_compute. discriminate.
  - reflexivity.
  - destruct Hreplay as (_ & Hb & _); [vm_compute; reflexivity|].
    split; [exact Hs|]. split; [exact Hp|]. split; [exact Hm|]. split; [exact Hb|].
    vm_compute. reflexivity.
Defined.
End replay_runs.

(** * Further properties of the code *)

(** ** The codec reads nothing but the frame's blue low bits *)

Section codec_coverage.
Local Open Scope Z_scope.
Import Stego.

Lemma read_bits_blue_lsb img :
  read_bits img = blue_lsb img <$> seq 0 (width img * height img).
Proof. apply read_bits_eq. Qed.

(** Frames that agree on the prefix and on the declared payload decode
    alike. *)
Lemma decode_frame_agree bits1 bits2 :
  take 32 bits1 = take 32 bits2 ->
  (0 <= bitsToNumber (take 32 bits1) ->
   take (Z.to_nat (8 * bitsToNumber (take 32 bits1))) (drop 32 bits1)
   = take (Z.to_nat (8 * bitsToNumber (take 32 bits1))) (drop 32 bits2)) ->
  decode_frame bits1 = decode_frame bits2.
Proof.
  intros Hprefix Hpayload. unfold decode_frame.
  assert (Hs : forall bits : list Z, JS.slice bits 0 32 = take 32 bits).
  { intros bits. rewrite slice_nonneg by lia. by rewrite drop_0. }
  rewrite !Hs, <- Hprefix.
  set (n := bitsToNumber (take 32 bits1)) in *.
  unfold Uint8Array_new. destruct (Z.ltb_spec n 0) as [Hneg|Hpos]; [done|].
  change (Return ?a ≫= ?k) with (k a). cbv beta.
  rewrite !slice_nonneg by lia.
  replace (Z.to_nat (32 + n * 8) - Z.to_nat 32)%nat with (Z.to_nat (8 * n)) by lia.
  change (Z.to_nat 32) with 32%nat. by rewrite Hpayload.
Qed.

Lemma take_fmap_seq_ext {A} (f g : nat -> A) (k m : nat) :
  (forall i, (i < k)%nat -> (i < m)%nat -> f i = g i) ->
  take k (f <$> seq 0 m) = take k (g <$> seq 0 m).
Proof.
  intros H. apply list_eq. intros i.
  destruct (decide (i < k)%nat) as [Hk|Hk].
  - rewrite !lookup_take_lt by done. rewrite !list_lookup_fmap.
    destruct (decide (i < m)%nat) as [Hm|Hm].
    + rewrite lookup_seq_lt by done. simpl. f_equal. by apply H.
    + by rewrite lookup_seq_ge by lia.
  - by rewrite !lookup_take_ge by lia.
Qed.

(** X1.  On opaque images [extractTextFromImage] depends only on the size
    and on the blue low bits of the pixels the frame spans (32 for the
    prefix and 8 per declared byte): two opaque images of one size that
    agree there give the same result, whatever their red and green
    channels, their blue high bits and their pixels past the frame hold.
    Opacity is what makes the bytes read from the canvas the image's
    own. *)
Theorem extract_reads_only_the_frame (ctx2d : bool) (img1 img2 : ImageData) :
  opaque img1 ->
  opaque img2 ->
  width img1 = width img2 ->
  height img1 = height img2 ->
  (forall i : nat,
     Z.of_nat i < frame_span (declared_length img1) ->
     blue_lsb img1 i = blue_lsb img2 i) ->
  extractTextFromImage ctx2d img1 = extractTextFromImage ctx2d img2.
Proof.
  intros _ _ Hw Hh Hagree. unfold extractTextFromImage. rewrite <- Hw, <- Hh.
  destruct (negb ctx2d); [done|].
  destruct ((width img1 =? 0)%nat || (height img1 =? 0)%nat); [done|].
  change (decode_frame (read_bits img1) = decode_frame (read_bits img2)).
  unfold frame_span, declared_length in Hagree.
  assert (Hs : JS.slice (read_bits img1) 0 32 = take 32 (read_bits img1)).
  { rewrite slice_nonneg by lia. by rewrite drop_0. }
  rewrite Hs in Hagree.
  rewrite !read_bits_blue_lsb in *. rewrite <- Hw, <- Hh.
  set (m := (width img1 * height img1)%nat) in *.
  assert (Hprefix : take 32 (blue_lsb img1 <$> seq 0 m) = take 32 (blue_lsb img2 <$> seq 0 m)).
  { apply take_fmap_seq_ext. intros i Hi _. apply Hagree. lia. }
  apply decode_frame_agree; [done|]. intros Hn.
  rewrite !take_drop_commute. f_equal.
  apply take_fmap_seq_ext. intros i Hi _. apply Hagree. lia.
Qed.

(** Repainting everything but the frame's blue low bits: same text. *)
Lemma extract_reads_only_the_frame_A :
  extractTextFromImage true framed_A = extractTextFromImage true framed_A_repainted.
Proof.
  apply (extract_reads_only_the_frame true framed_A framed_A_repainted).
  - apply (bool_decide_unpack _). vm_compute. exact I.
  - apply (bool_decide_unpack _). vm_compute. exact I.
  - reflexivity.
  - reflexivity.
  - intros i Hi.
    assert (Hn : frame_span (declared_length framed_A) = 40) by (vm_compute; reflexivity).
    rewrite Hn in Hi.
    do 40 (destruct i as [|i]; [vm_compute; reflexivity|]). lia.
Defined.
End codec_coverage.

(** ** What embedding changes in the cover *)

Section embed_coverage.
Local Open Scope Z_scope.
Import Stego.

Lemma cover_alpha w h i :
  (i < w * h)%nat -> cover w h !! (i * 4 + 3)%nat = Some 0xff.
Proof.
  unfold cover. generalize (w * h)%nat as n. intros n; revert i.
  induction n as [|n IH]; intros i Hi; [lia|].
  destruct i as [|i]; [done|]. simpl. apply IH. lia.
Qed.

(** X2.  The image [embedTextInImage] returns is the 256x256 cover with
    nothing changed but low bits of the blue channel: every byte that is
    not a blue byte is the cover's (so every pixel stays opaque), every
    blue byte is 0x20 or 0x21, and the blue bytes past the frame are the
    cover's 0x20. *)
Theorem embed_changes_only_blue_low_bits (P : jsstring) (img : ImageData) :
  embedTextInImage true P = Return img ->
  width img = CANVAS_SIZE /\ height img = CANVAS_SIZE
  /\ length (data img) = length (cover CANVAS_SIZE CANVAS_SIZE)
  /\ (forall j : nat, (j mod 4 <> 2)%nat ->
        data img !! j = cover CANVAS_SIZE CANVAS_SIZE !! j)
  /\ (forall i : nat, (i < CANVAS_SIZE * CANVAS_SIZE)%nat ->
        data img !! (i * 4 + 3)%nat = Some 0xff)
  /\ (forall i : nat, (i < CANVAS_SIZE * CANVAS_SIZE)%nat ->
        data img !! (i * 4 + 2)%nat = Some 0x20 \/ data img !! (i * 4 + 2)%nat = Some 0x21)
  /\ (forall i : nat, (length (textToBits P) <= i < CANVAS_SIZE * CANVAS_SIZE)%nat ->
        data img !! (i * 4 + 2)%nat = Some 0x20).
Proof.
  unfold embedTextInImage.
  destruct (embedTextInImage_run_cases P) as [[_ ->] | [Hfit ->]]; [discriminate|].
  simpl snd. intros [= <-]. cbn [width height data].
  generalize CANVAS_SIZE as w. intros w. clear Hfit.
  set (bits := textToBits P).
  assert (Hbits : forall b, b ∈ bits -> b = 0 \/ b = 1) by apply textToBits_bit.
  clearbody bits.
  assert (Hother : forall j : nat, (j mod 4 <> 2)%nat ->
            write_bits bits (cover w w) !! j = cover w w !! j).
  { intros j Hj. apply write_bits_other. intros i _ Heq. apply Hj. nlia. }
  split; [done|]. split; [done|]. split; [apply length_write_bits|].
  split; [exact Hother|]. split.
  { intros i Hi. rewrite Hother; [by apply cover_alpha|]. nlia. }
  assert (Hpast : forall i : nat, (length bits <= i < w * w)%nat ->
            write_bits bits (cover w w) !! (i * 4 + 2)%nat = Some 0x20).
  { intros i [Hi Hlt]. rewrite write_bits_other by lia. by apply cover_blue. }
  split; [|exact Hpast].
  intros i Hi. destruct (decide (i < length bits)%nat) as [Hb|Hb].
  - rewrite write_bits_blue by (try rewrite length_cover; lia).
    unfold JS.at0. rewrite cover_blue by done.
    destruct (lookup_lt_is_Some_2 bits i Hb) as [b Hbit]. rewrite Hbit. simpl.
    destruct (Hbits b) as [-> | ->]; [by eapply list_elem_of_lookup_2|by left|by right].
  - left. apply Hpast. lia.
Qed.

(** For "hi": pixel 100 of the returned image is opaque. *)
Lemma embed_changes_only_blue_low_bits_hi :
  data embedded_hi !! (100 * 4 + 3)%nat = Some 0xff.
Proof.
  assert (Hemb : embedTextInImage true [104; 105] = Return embedded_hi).
  { unfold embedTextInImage.
    destruct (embedTextInImage_run_cases [104; 105]) as [[H _] | [_ ->]]; [|reflexivity].
    vm_compute in H. discriminate. }
  assert (Hi : (100 < CANVAS_SIZE * CANVAS_SIZE)%nat) by (unfold CANVAS_SIZE; lia).
  exact (proj1 (proj2 (proj2 (proj2 (proj2
           (embed_changes_only_blue_low_bits [104; 105] embedded_hi Hemb)))))
           100%nat Hi).
Defined.
End embed_coverage.

(** ** Bits of a number and back *)

Section bits_coverage.
Local Open Scope Z_scope.
Import Stego.

Lemma numberToBits_32_any v : numberToBits v 32 = msb_bits (JS.ToInt32 v mod 2 ^ 32) 32.
Proof.
  apply list_eq. intros j. destruct (decide (j < 32)%nat) as [Hj|Hj].
  - rewrite numberToBits_lookup by done. unfold msb_bits.
    rewrite list_lookup_fmap, lookup_seq_lt by done. simpl. f_equal.
    rewrite band_1. unfold JS.shr.
    rewrite (Z.mod_small (Z.of_nat (31 - j)) 32) by lia.
    rewrite Z.shiftr_div_pow2 by lia.
    rewrite <- !Z.testbit_spec' by lia. f_equal.
    symmetry. apply Z.mod_pow2_bits_low. lia.
  - rewrite !lookup_ge_None_2; [done| |].
    + unfold msb_bits. rewrite length_fmap, length_seq. lia.
    + rewrite length_numberToBits. lia.
Qed.

(** X3.  Reading back the bits [numberToBits] wrote: 32 bits give the
    number as a signed 32-bit integer, so a value of 2^31 or more comes back
    negative; fewer bits keep the low bits of the number only. *)
Theorem bitsToNumber_numberToBits (v : Z) :
  bitsToNumber (numberToBits v 32) = JS.ToInt32 v
  /\ (2 ^ 31 <= v < 2 ^ 32 -> bitsToNumber (numberToBits v 32) = v - 2 ^ 32)
  /\ (forall n : nat, (n <= 31)%nat -> 0 <= v < 2 ^ 31 ->
        bitsToNumber (numberToBits v n) = v mod 2 ^ Z.of_nat n).
Proof.
  assert (H32 : bitsToNumber (numberToBits v 32) = JS.ToInt32 v).
  { rewrite numberToBits_32_any, bitsToNumber_value, bits_value_msb.
    - change (2 ^ Z.of_nat 32) with (2 ^ 32). rewrite Z.mod_mod by lia.
      rewrite <- (ToInt32_idemp v) at 2. apply ToInt32_congr.
      rewrite Zminus_mod, Z.mod_mod, Z.sub_diag by lia. done.
    - apply Z.mod_pos_bound. lia. }
  split; [exact H32|]. split.
  - intros Hv. rewrite H32. unfold JS.ToInt32.
    change (2 ^ 31) with 2147483648 in *. change (2 ^ 32) with 4294967296 in *.
    Z.div_mod_to_equations. lia.
  - intros n Hn Hv.
    rewrite numberToBits_spec, bitsToNumber_value, bits_value_msb by lia.
    apply ToInt32_small.
    pose proof (Z.mod_pos_bound v (2 ^ Z.of_nat n) ltac:(lia)).
    assert (2 ^ Z.of_nat n <= 2 ^ 31) by (apply Z.pow_le_mono_r; lia). lia.
Qed.
End bits_coverage.

(** ** Base64 text, and ciphertext through an image *)

Section base64_coverage.
Local Open Scope Z_scope.
Import JS Crypto.

Lemma b64_char_text g : is_group g -> is_b64_text (b64_char g) /\ is_ascii (b64_char g).
Proof.
  intros Hg. split.
  - left. rewrite b64_index_char by done. by eexists.
  - unfold is_group, is_ascii, b64_char in *.
    repeat match goal with
      | |- context [?a <? ?b] => destruct (Z.ltb_spec a b); try lia
      | |- context [?a =? ?b] => destruct (Z.eqb_spec a b); try lia
      end.
Qed.

Lemma length_b64_groups bs :
  (length (b64_groups bs) + b64_padding (length bs) = 4 * ((length bs + 2) / 3))%nat.
Proof.
  unfold b64_padding.
  induction bs as [|a|a b|a b c l IH] using list_ind3.
  - reflexivity.
  - reflexivity.
  - reflexivity.
  - cbn [length b64_groups app]. nlia.
Qed.

(** X4.  On bytes [bufferToBase64] never throws: it returns text of
    [4 * ceil(n / 3)] code units, each of the base64 alphabet or the padding
    [=], all 7-bit. *)
Theorem bufferToBase64_text (bytes : list Z) :
  Forall is_byte bytes ->
  exists encoded,
    bufferToBase64 bytes = Return encoded
    /\ length encoded = (4 * ((length bytes + 2) / 3))%nat
    /\ Forall is_b64_text encoded
    /\ Forall is_ascii encoded.
Proof.
  intros Hb. rewrite bufferToBase64_btoa, btoa_bytes by done.
  eexists. split; [reflexivity|].
  pose proof (b64_groups_range bytes Hb) as Hg.
  split; [|split].
  - rewrite length_app, length_fmap, length_replicate. apply length_b64_groups.
  - apply Forall_app. split.
    + apply Forall_fmap. eapply Forall_impl; [exact Hg|]. intros g ?. by apply b64_char_text.
    + apply Forall_replicate. by right.
  - apply Forall_app. split.
    + apply Forall_fmap. eapply Forall_impl; [exact Hg|]. intros g ?. by apply b64_char_text.
    + apply Forall_replicate. unfold is_ascii. lia.
Qed.

(** The bytes of "Man" give four code units. *)
Lemma bufferToBase64_text_Man :
  exists encoded,
    bufferToBase64 [77; 97; 110] = Return encoded
    /\ length encoded = (4 * ((length [77; 97; 110] + 2) / 3))%nat
    /\ Forall is_b64_text encoded
    /\ Forall is_ascii encoded.
Proof.
  apply (bufferToBase64_text [77; 97; 110]).
  repeat (constructor; [unfold is_byte; lia|]). constructor.
Defined.

Lemma strip_padding_keeps d c : c ∈ d -> c <> 61 -> c ∈ strip_padding d.
Proof.
  intros Hc Hne. unfold strip_padding.
  destruct (length d mod 4 =? 0)%nat; [|done].
  assert (Hrev : c ∈ reverse d) by by apply elem_of_reverse.
  destruct (reverse d) as [|c1 r1]; [done|].
  destruct (Z.eqb_spec c1 61) as [->|_]; [|done].
  apply elem_of_cons in Hrev as [->|Hrev]; [done|].
  destruct r1 as [|c2 r2]; [by apply elem_of_nil in Hrev|].
  destruct (Z.eqb_spec c2 61) as [->|_].
  - apply elem_of_cons in Hrev as [->|Hrev]; [done|]. by apply elem_of_reverse.
  - by apply elem_of_reverse.
Qed.

(** X5.  [base64ToBytes] throws on every string that holds a code unit
    which is neither of the base64 alphabet, nor [=], nor ASCII white
    space: nothing is decoded from the rest. *)
Theorem base64ToBytes_rejects (base64 : jsstring) (c : Z) :
  c ∈ base64 ->
  b64_index c = None -> c <> 61 -> is_ascii_whitespace c = false ->
  base64ToBytes base64 = Throw InvalidCharacterError.
Proof.
  intros Hc Hidx Hpad Hws. unfold base64ToBytes, atob.
  set (d := strip_padding _).
  assert (Hd : c ∈ d).
  { apply strip_padding_keeps; [|done]. by apply list_elem_of_filter. }
  destruct (length d mod 4 =? 1)%nat; [done|].
  assert (Hnone : mapM b64_index d = None).
  { apply mapM_None. apply Exists_exists. by exists c. }
  by rewrite Hnone.
Qed.

(** A [*] among base64 text is refused. *)
Lemma base64ToBytes_rejects_star :
  base64ToBytes [84; 42; 70; 117] = Throw InvalidCharacterError.
Proof.
  apply (base64ToBytes_rejects [84; 42; 70; 117] 42).
  - apply elem_of_cons. right. apply elem_of_cons. by left.
  - reflexivity.
  - discriminate.
  - reflexivity.
Defined.

(** A 7-bit string is its own UTF-8 encoding, and decodes to itself. *)
Lemma ascii_text s :
  Forall is_ascii s ->
  TextEncoder_encode s = s /\ wf_string s /\ well_paired s = true.
Proof.
  unfold TextEncoder_encode, utf8_encode.
  induction 1 as [|c s Hc _ (IHe & IHw & IHp)]; [split; [done|split; [constructor|done]]|].
  unfold is_ascii in Hc.
  assert (Hl : is_lead c = false).
  { unfold is_lead. destruct (Z.leb_spec 0xD800 c); [lia|done]. }
  assert (Ht : is_trail c = false).
  { unfold is_trail. destruct (Z.leb_spec 0xDC00 c); [lia|done]. }
  split; [|split].
  - simpl. rewrite Hl, Ht.
    change (mbind utf8_encode_cp (c :: ?l)) with (utf8_encode_cp c ++ (l ≫= utf8_encode_cp)).
    rewrite IHe. unfold utf8_encode_cp. destruct (Z.leb_spec c 0x7F); [done|lia].
  - constructor; [lia|done].
  - simpl. by rewrite Hl, Ht.
Qed.

(** X6.  Ciphertext bytes survive the way the app sends them: base64,
    embedded in the carrier, extracted, base64-decoded.  This holds for up
    to 6141 bytes; from 6142 bytes on the base64 text no longer fits and
    embedding throws the capacity error. *)
Theorem ciphertext_through_image (cipherBytes : list Z) :
  Forall is_byte cipherBytes ->
  (Z.of_nat (length cipherBytes) <= 6141 ->
   (cipherBase64 ← bufferToBase64 cipherBytes;
    stegoImage ← Stego.embedTextInImage true cipherBase64;
    stegoPayload ← Stego.extractTextFromImage true stegoImage;
    base64ToBytes stegoPayload) = Return cipherBytes)
  /\ (6141 < Z.of_nat (length cipherBytes) ->
      bufferToBase64 cipherBytes ≫= Stego.embedTextInImage true = Throw capacity_error).
Proof.
  intros Hb.
  assert (Hround : bufferToBase64 cipherBytes ≫= base64ToBytes = Return cipherBytes).
  { rewrite bufferToBase64_btoa by done.
    pose proof (atob_btoa cipherBytes Hb) as H.
    destruct (btoa cipherBytes) as [encoded|e]; [|discriminate].
    change (Return ?a ≫= ?k) with (k a) in H |- *. by apply base64ToBytes_atob. }
  assert (Htext : exists encoded,
            bufferToBase64 cipherBytes = Return encoded
            /\ length encoded = (4 * ((length cipherBytes + 2) / 3))%nat
            /\ Forall is_ascii encoded).
  { rewrite bufferToBase64_btoa, btoa_bytes by done. eexists. split; [reflexivity|].
    pose proof (b64_groups_range cipherBytes Hb) as Hg. split.
    - rewrite length_app, length_fmap, length_replicate. apply length_b64_groups.
    - apply Forall_app. split.
      + apply Forall_fmap. eapply Forall_impl; [exact Hg|]. intros g ?. by apply b64_char_text.
      + apply Forall_replicate. unfold is_ascii. lia. }
  destruct Htext as (encoded & Henc & Hlen & Hascii).
  rewrite Henc in *. change (Return ?a ≫= ?k) with (k a) in *. cbv beta in *.
  destruct (ascii_text encoded Hascii) as (He & Hwf & Hwp).
  split.
  - intros Hn.
    assert (Hex : Stego.embedTextInImage true encoded ≫= Stego.extractTextFromImage true
                  = Return encoded).
    { rewrite extract_embed; [|done|rewrite He, Hlen; nlia].
      rewrite TextDecoder_TextEncoder_id; [done..|].
      destruct encoded as [|c ?]; [done|]. apply Forall_cons in Hascii as [Hc _].
      unfold is_ascii in Hc. simpl. intros [= ->]. lia. }
    destruct (Stego.embedTextInImage true encoded) as [img|e]; [|discriminate].
    change (Return ?a ≫= ?k) with (k a) in *. cbv beta. by rewrite Hex.
  - intros Hn. unfold Stego.embedTextInImage.
    destruct (embedTextInImage_run_cases encoded) as [[_ ->] | [Hfit _]]; [done|].
    rewrite He, Hlen in Hfit. nlia.
Qed.

(** Three bytes go through the image and come back. *)
Lemma ciphertext_through_image_example :
  (cipherBase64 ← bufferToBase64 [0; 200; 255];
   stegoImage ← Stego.embedTextInImage true cipherBase64;
   stegoPayload ← Stego.extractTextFromImage true stegoImage;
   base64ToBytes stegoPayload) = Return [0; 200; 255].
Proof.
  apply (ciphertext_through_image [0; 200; 255]).
  - repeat (constructor; [unfold is_byte; lia|]). constructor.
  - simpl. lia.
Defined.
End base64_coverage.

(** ** The relay: presence, history, the sender field *)

Section relay_coverage.
Import Relay.

Lemma consistent_sendOrStore t ev p st :
  consistent st -> consistent (sendOrStore t ev p st).
Proof.
  intros Hc u s. rewrite sendOrStore_sockets. intros Hs.
  destruct (Hc u s Hs) as [Hu Hq]. split; [done|].
  destruct (decide (u = t)) as [->|Hne].
  - by rewrite (sendOrStore_online _ _ _ _ s).
  - by rewrite sendOrStore_queue_other.
Qed.

Lemma consistent_step st i : consistent st -> consistent (step st i).
Proof.
  intros Hc. destruct i as [s|s arg|s arg|s|x fs]; cbn [step].
  - intros u s'. destruct (on_connection_effect s st) as (_ & Hu & Hs & _).
    unfold queue_of. rewrite Hu, Hs.
    destruct (decide (socket_user s = u)) as [<-|Hne].
    + rewrite !lookup_insert_eq. by intros [= <-].
    + rewrite !lookup_insert_ne by done. apply Hc.
  - unfold on_dh_public. destruct (has_friend _ _ _); [|done].
    by apply consistent_sendOrStore.
  - unfold on_secure_message. destruct (has_friend _ _ _); [|done].
    by apply consistent_sendOrStore.
  - intros u s'. unfold on_disconnect. cbn [socketsByUser].
    destruct (decide (socket_user s = u)) as [->|Hne].
    + by rewrite lookup_delete_eq.
    + rewrite lookup_delete_ne by done. apply Hc.
  - exact Hc.
Qed.

(** X7.  From a consistent relay every run of inputs leads to a
    consistent relay: a handle in the presence map belongs to the user it
    is filed under, and whoever has a handle has an empty bucket. *)
Theorem relay_stays_consistent (st : state) (inputs : list input) :
  consistent st -> consistent (foldl step st inputs).
Proof.
  revert st. induction inputs as [|i inputs IH]; intros st Hc; [done|].
  simpl. apply IH. by apply consistent_step.
Qed.






(** In [relay_busy] the one socket is Alice's, and nothing waits for
    her. *)
Lemma relay_busy_consistent : consistent relay_busy.
Proof.
  intros u s Hs.
  assert (Hsock : socketsByUser relay_busy = {["alice" := Toy.alice_socket]})
    by (vm_compute; reflexivity).
  rewrite Hsock in Hs. apply lookup_singleton_Some in Hs as [<- <-].
  split; [reflexivity|]. vm_compute. reflexivity.
Qed.

(** X9.  The sender field of a relayed event.  A key announcement is
    rebuilt by the relay: it carries the sender's own id and the key, and
    nothing else the client sent.  A secure message is the client's
    payload with the sender's id filled in only where the client left
    [from] out: a [from] written by the client is passed on as it is. *)
Theorem relayed_sender_field (st : state) (socket : Socket) (arg : object) (t : string) :
  arg !! "toUserId" = Some (VString t) ->
  trusted st (socket_user socket) t ->
  (exists p,
     on_dh_public socket arg st = sendOrStore t "dh-public" p st
     /\ p !! "from" = Some (VString (socket_user socket))
     /\ p !! "publicKey" = Some (default VUndefined (arg !! "publicKey"))
     /\ forall k, k <> "from" -> k <> "publicKey" -> p !! k = None)
  /\ (exists p,
     on_secure_message socket arg st = sendOrStore t "secure-message" p st
     /\ p !! "from" = Some (default (VString (socket_user socket)) (arg !! "from"))
     /\ forall k, k <> "from" -> p !! k = arg !! k).
Proof.
  intros Harg Ht.
  assert (Hf : has_friend socket (arg !! "toUserId") st = Some t).
  { rewrite Harg. unfold has_friend. unfold trusted in Ht. by destruct (decide _). }
  split.
  - eexists. unfold on_dh_public. rewrite Hf. split; [reflexivity|].
    split; [by rewrite lookup_insert_ne, lookup_singleton_eq|].
    split; [by rewrite lookup_insert_eq|].
    intros k H1 H2. by rewrite lookup_insert_ne, lookup_singleton_ne.
  - eexists. unfold on_secure_message. rewrite Hf. split; [reflexivity|]. split.
    + rewrite lookup_union. destruct (arg !! "from") as [v|]; simpl.
      * by rewrite lookup_singleton_eq.
      * by rewrite lookup_singleton_eq.
    + intros k Hk. rewrite lookup_union, lookup_singleton_ne by done.
      by destruct (arg !! k).
Qed.

(** X10.  A second connection of a user takes over: what was waiting and
    what is sent next goes to the newer socket, and the older one gets
    nothing more. *)
Theorem newer_socket_takes_over (st : state) (old new : Socket) (ev : string) (p : object) :
  socket_user old = socket_user new ->
  old <> new ->
  let st' := sendOrStore (socket_user new) ev p (on_connection new st) in
  delivered_to old (outbox st') = delivered_to old (outbox st)
  /\ delivered_to new (outbox st')
     = delivered_to new (outbox st) ++ queue_of (socket_user new) st ++ [mkMessage ev p]
  /\ queue_of (socket_user new) st' = [].
Proof.
  intros Hu Hne st'. subst st'.
  destruct (on_connection_effect new st) as (Ho & Hq & Hs & _).
  rewrite (sendOrStore_online _ _ _ _ new) by (rewrite Hs; apply lookup_insert_eq).
  change (outbox (emit new ev p ?s)) with (outbox s ++ (mkEmission new <$> [mkMessage ev p])).
  change (queue_of ?u (emit new ev p ?s)) with (queue_of u s).
  rewrite Ho, !delivered_to_app, !delivered_to_own. split; [|split].
  - assert (Hnone : forall ms : list message, delivered_to old (mkEmission new <$> ms) = []).
    { intros ms. unfold delivered_to. induction ms as [|m ms IH]; [done|].
      rewrite fmap_cons, filter_cons_False; [done|]. simpl. congruence. }
    by rewrite !Hnone, !app_nil_r.
  - by rewrite app_assoc.
  - unfold queue_of. rewrite Hq. by rewrite lookup_insert_eq.
Qed.
End relay_coverage.

Section relay_coverage_runs.
Import Relay Toy.

(** Carol connects to the busy relay and gets a second note: she has a
    socket and nothing waits for her. *)
Lemma relay_stays_consistent_busy :
  socket_user carol_socket = "carol"
  /\ queue_of "carol"
       (foldl step relay_busy
          [Connection carol_socket; SecureMessage alice_socket (note "2")]) = [].
Proof.
  apply (relay_stays_consistent relay_busy
           [Connection carol_socket; SecureMessage alice_socket (note "2")]
           relay_busy_consistent "carol" carol_socket).
  vm_compute. reflexivity.
Defined.


(** Alice writes Carol's id into [from]; Carol is Alice's friend. *)
Lemma relayed_sender_field_alice :
  exists p,
    on_secure_message alice_socket
      {["toUserId" := VString "carol"; "from" := VString "bob"]} relay0
    = sendOrStore "carol" "secure-message" p relay0
    /\ p !! "from" = Some (VString "bob").
Proof.
  destruct (relayed_sender_field relay0 alice_socket
              {["toUserId" := VString "carol"; "from" := VString "bob"]} "carol")
    as [_ (p & H1 & H2 & _)].
  - reflexivity.
  - unfold trusted. simpl. vm_compute. set_solver.
  - exists p. split; [exact H1|exact H2].
Defined.

Lemma newer_socket_takes_over_bob :
  delivered_to bob_socket
    (outbox (sendOrStore "bob" "dh-public" ∅ (on_connection bob_newer_socket relay_with_three)))
  = delivered_to bob_socket (outbox relay_with_three).
Proof.
  apply (newer_socket_takes_over relay_with_three bob_socket bob_newer_socket "dh-public" ∅).
  - reflexivity.
  - discriminate.
Defined.
End relay_coverage_runs.

(** ** The server: accounts, sessions, friendship *)

Section server_lemmas.
Context {node : Node}.
Import Rest.

Lemma users_get_id k us u : users_get k us = Some u -> id u = k.
Proof.
  unfold users_get. intros H. apply find_some in H as [_ H].
  by apply bool_decide_eq_true in H.
Qed.

Lemma users_get_fmap k (g : User -> User) us :
  (forall u, id (g u) = id u) ->
  users_get k (g <$> us) = g <$> users_get k us.
Proof.
  intros Hg. unfold users_get. induction us as [|u us IH]; [done|].
  rewrite fmap_cons. simpl. rewrite Hg.
  destruct (bool_decide (id u = k)); [done|]. exact IH.
Qed.

Lemma users_get_app k us1 us2 :
  users_get k (us1 ++ us2)
  = match users_get k us1 with Some u => Some u | None => users_get k us2 end.
Proof.
  unfold users_get. induction us1 as [|u us1 IH]; [done|]. simpl.
  by destruct (bool_decide (id u = k)).
Qed.

Lemma users_get_set a user us :
  users_get a (users_set user us)
  = if bool_decide (a = id user) then Some user else users_get a us.
Proof.
  unfold users_set. destruct (users_get (id user) us) as [old|] eqn:Hold.
  - destruct (bool_decide_reflect (a = id user)) as [->|Hne].
    + assert (Hsome : is_Some (users_get (id user) us)) by (by eexists).
      clear old Hold. revert Hsome. unfold users_get.
      induction us as [|u us IH]; [by intros [? ?]|]. rewrite fmap_cons. simpl.
      destruct (bool_decide_reflect (id u = id user)) as [Hu|Hu].
      * intros _. by rewrite bool_decide_eq_true_2.
      * intros H. rewrite bool_decide_eq_false_2 by done. by apply IH.
    + clear Hold. unfold users_get. induction us as [|u us IH]; [done|].
      rewrite fmap_cons. simpl.
      destruct (bool_decide_reflect (id u = id user)) as [Hu|Hu].
      * rewrite !bool_decide_eq_false_2 by congruence. exact IH.
      * destruct (bool_decide (id u = a)); [done|]. exact IH.
  - rewrite users_get_app. simpl.
    destruct (bool_decide_reflect (a = id user)) as [->|Hne].
    + rewrite Hold. by rewrite bool_decide_eq_true_2.
    + rewrite bool_decide_eq_false_2 by done. by destruct (users_get a us).
Qed.

Lemma users_get_update x k f sv :
  (forall u, id (f u) = id u) ->
  users_get x (users (update_user k f sv))
  = (if bool_decide (x = k) then fmap f else fun o => o) (users_get x (users sv)).
Proof.
  intros Hf. unfold update_user. cbn [users set_users].
  rewrite users_get_fmap by (intros u; by destruct (bool_decide _)).
  destruct (users_get x (users sv)) as [u|] eqn:Hu; [|by destruct (bool_decide _)].
  apply users_get_id in Hu. simpl. rewrite Hu. by destruct (bool_decide _).
Qed.

Lemma friends_view_lookup a us :
  friends_view us !! a = (fun u => list_to_set (friends u)) <$> users_get a us.
Proof.
  unfold friends_view, users_get. induction us as [|u us IH]; [done|].
  rewrite fmap_cons. simpl.
  destruct (bool_decide_reflect (id u = a)) as [->|Hne].
  - by rewrite lookup_insert_eq.
  - by rewrite lookup_insert_ne.
Qed.

Lemma trusted_friends_of sv a b : trusted (relay_state sv) a b <-> b ∈ friends_of a sv.
Proof.
  unfold trusted, friends_of, relay_state. cbn [Relay.friends].
  rewrite friends_view_lookup. destruct (users_get a (users sv)) as [u|]; simpl.
  - apply elem_of_list_to_set.
  - split; [set_solver|]. by intros ?%elem_of_nil.
Qed.

Lemma elem_of_set_add y x s : y ∈ set_add x s <-> y = x \/ y ∈ s.
Proof.
  unfold set_add, set_has. destruct (bool_decide_reflect (x ∈ s)) as [Hx|Hx].
  - split; [by right|]. by intros [->|?].
  - rewrite elem_of_app, list_elem_of_singleton. tauto.
Qed.

Lemma elem_of_set_delete y x s : y ∈ set_delete x s <-> y <> x /\ y ∈ s.
Proof. unfold set_delete. by rewrite list_elem_of_filter. Qed.

Lemma notify_users userId ev p sv : users (notify userId ev p sv) = users sv.
Proof. unfold notify. by destruct (socketsByUser sv !! userId). Qed.

Lemma notify_sessions userId ev p sv : sessions (notify userId ev p sv) = sessions sv.
Proof. unfold notify. by destruct (socketsByUser sv !! userId). Qed.

Lemma truthy_Some o s : truthy o = Some s <-> o = Some s /\ s <> "".
Proof.
  unfold truthy. destruct o as [s'|]; [|by split; [|intros []]].
  destruct (bool_decide_reflect (s' = "")) as [->|Hne].
  - split; [done|]. by intros [[= <-] ?].
  - split; [by intros [= ->]|]. by intros [[= ->] _].
Qed.

(** The outcomes of [POST /api/friend/accept]: an error that leaves the
    friend sets alone, or the four mutations. *)
Lemma api_friend_accept_cases authorization req_userId sv :
  (exists me token a requester,
      req_userId = Some a /\ a <> ""
      /\ requireAuth authorization sv = inr (me, token)
      /\ a ∈ incomingRequests me
      /\ users_get a (users sv) = Some requester
      /\ api_friend_accept authorization req_userId sv
         = (notify a "friend-accepted" (notice me)
              (update_user a (with_outgoingRequests (set_delete (id me)))
                 (update_user a (with_friends (set_add (id me)))
                    (update_user (id me) (with_friends (set_add a))
                       (update_user (id me) (with_incomingRequests (set_delete a)) sv)))),
            res_json (JAccepted (a, username requester))))
  \/ (400 <= status (api_friend_accept authorization req_userId sv).2
      /\ (~ exists a b, accepts sv (Http (FriendAccept authorization req_userId)) a b)
      /\ ((api_friend_accept authorization req_userId sv).1 = sv
          \/ exists me token a,
               req_userId = Some a
               /\ requireAuth authorization sv = inr (me, token)
               /\ status (api_friend_accept authorization req_userId sv).2 = 404
               /\ (api_friend_accept authorization req_userId sv).1
                  = update_user (id me) (with_incomingRequests (set_delete a)) sv)).
Proof.
  unfold api_friend_accept.
  destruct (requireAuth authorization sv) as [res|[me token]] eqn:Hauth.
  { right. split; [|split; [|by left]].
    - unfold requireAuth in Hauth. repeat case_match; simplify_eq; simpl; lia.
    - intros (a & b & auth & me & tok & [= <- ->] & Hme & _). congruence. }
  destruct (truthy req_userId) as [a|] eqn:Ha.
  2:{ right. simpl. split; [lia|]. split; [|by left].
      intros (a & b & auth & me' & tok & [= <- ->] & _ & _ & Hne & _).
      by rewrite (proj2 (truthy_Some (Some a) a)) in Ha. }
  apply truthy_Some in Ha as [-> Hne].
  unfold set_has. destruct (bool_decide_reflect (a ∈ incomingRequests me)) as [Hin|Hin].
  2:{ right. simpl. split; [lia|]. split; [|by left].
      intros (a' & b & auth & me' & tok & [= <- <-] & Hme & _ & _ & Hin' & _).
      rewrite Hauth in Hme. by simplify_eq. }
  destruct (users_get a (users sv)) as [requester|] eqn:Hreq.
  - left. exists me, token, a, requester. rewrite (users_get_id _ _ _ Hreq). done.
  - right. simpl. split; [lia|]. split.
    + intros (a' & b & auth & me' & tok & [= <- <-] & _ & _ & _ & _ & [? Hsome]).
      congruence.
    + right. by exists me, token, a.
Qed.
End server_lemmas.

Section server_steps.
Context {node : Node}.
Import Rest.

Lemma substring_all s : String.substring 0 (String.length s) s = s.
Proof. induction s as [|a s IH]; [done|]. simpl. by rewrite IH. Qed.

Lemma bearer_token token :
  String.prefix "Bearer " ("Bearer " +:+ token) = true
  /\ slice 7 ("Bearer " +:+ token) = token.
Proof.
  split; [simpl; by destruct token|].
  unfold slice. simpl. rewrite Nat.sub_0_r. apply substring_all.
Qed.

Lemma requireAuth_inr authorization sv me token :
  requireAuth authorization sv = inr (me, token) <->
  exists authHeader userId,
    authorization = Some authHeader
    /\ String.prefix "Bearer " authHeader = true
    /\ token = slice 7 authHeader
    /\ sessions sv !! token = Some userId
    /\ userId <> ""
    /\ users_get userId (users sv) = Some me.
Proof.
  unfold requireAuth. split.
  - destruct authorization as [h|]; [|done].
    destruct (String.prefix "Bearer " h) eqn:Hp; [|done].
    destruct (truthy _) as [userId|] eqn:Ht; [|done].
    apply truthy_Some in Ht as [Hs Hne].
    destruct (users_get userId (users sv)) as [u|] eqn:Hu; [|done].
    intros [= <- <-]. by exists h, userId.
  - intros (h & userId & -> & -> & -> & Hs & Hne & Hu).
    rewrite (proj2 (truthy_Some _ userId)) by done. by rewrite Hu.
Qed.

Lemma requireAuth_me authorization sv me token :
  requireAuth authorization sv = inr (me, token) ->
  users_get (id me) (users sv) = Some me.
Proof.
  intros (h & userId & _ & _ & _ & _ & _ & Hu)%requireAuth_inr.
  by rewrite (users_get_id _ _ _ Hu).
Qed.

Lemma friends_of_update_other x k f sv :
  (forall u, id (f u) = id u) -> (forall u, friends (f u) = friends u) ->
  friends_of x (update_user k f sv) = friends_of x sv.
Proof.
  intros Hid Hf. unfold friends_of. rewrite users_get_update by done.
  destruct (bool_decide (x = k)); [|done].
  destruct (users_get x (users sv)); [|done]. simpl. by rewrite Hf.
Qed.

Lemma friends_of_update_friends x k g sv :
  friends_of x (update_user k (with_friends g) sv)
  = if bool_decide (x = k)
    then match users_get x (users sv) with Some u => g (friends u) | None => [] end
    else friends_of x sv.
Proof.
  unfold friends_of. rewrite users_get_update by done.
  destruct (bool_decide (x = k)); [|done]. by destruct (users_get x (users sv)).
Qed.

Lemma friends_of_users x sv sv' : users sv' = users sv -> friends_of x sv' = friends_of x sv.
Proof. unfold friends_of. by intros ->. Qed.

Lemma api_login_users name password token sv :
  users (api_login name password token sv).1 = users sv.
Proof. unfold api_login. by repeat case_match. Qed.

Lemma api_friend_request_friends authorization name sv x :
  friends_of x (api_friend_request authorization name sv).1 = friends_of x sv.
Proof.
  unfold api_friend_request. repeat case_match; try done. cbn [fst].
  rewrite (friends_of_users _ _ _ (notify_users _ _ _ _)).
  by rewrite !friends_of_update_other.
Qed.

Lemma api_register_get name password uuid sv x :
  users_get x (users (api_register name password uuid sv).1) = users_get x (users sv)
  \/ x = uuid
     /\ exists n p, users_get x (users (api_register name password uuid sv).1)
                    = Some (mkUser uuid n p [] [] []).
Proof.
  unfold api_register. repeat case_match; try by left.
  cbn [fst users set_users]. rewrite users_get_set. cbn [id].
  destruct (bool_decide_reflect (x = uuid)) as [->|Hne]; [|by left].
  right. split; [done|]. by eexists _, _.
Qed.

(** The friend sets after an accepted request. *)
Lemma accepted_friends x a me sv :
  users_get (id me) (users sv) = Some me ->
  is_Some (users_get a (users sv)) ->
  forall y,
    y ∈ friends_of x
          (update_user a (with_outgoingRequests (set_delete (id me)))
             (update_user a (with_friends (set_add (id me)))
                (update_user (id me) (with_friends (set_add a))
                   (update_user (id me) (with_incomingRequests (set_delete a)) sv))))
    <-> y ∈ friends_of x sv \/ (x = a /\ y = id me) \/ (x = id me /\ y = a).
Proof.
  intros Hme [requester Hreq] y.
  rewrite friends_of_update_other by done.
  rewrite friends_of_update_friends.
  rewrite users_get_update by done.
  rewrite users_get_update by done.
  rewrite friends_of_update_friends.
  rewrite users_get_update by done.
  rewrite friends_of_update_other by done.
  unfold friends_of.
  destruct (bool_decide_reflect (x = a)) as [->|Hxa];
    destruct (bool_decide_reflect (a = id me)) as [Ham|Ham];
    try destruct (bool_decide_reflect (x = id me)) as [->|Hxm];
    try subst a; rewrite ?Hme, ?Hreq; simpl; rewrite ?elem_of_set_add;
    try (destruct (users_get x (users sv)); simpl); naive_solver.
Qed.

Lemma not_accepts_step sv i :
  match i with Http (FriendAccept _ _) => False | _ => True end ->
  forall a b, ~ accepts sv i a b.
Proof. intros Hi a b (auth & me & tok & -> & _). done. Qed.

(** One step changes the friend sets only by an accepted request; a
    registration under a new id changes none. *)
Lemma friends_of_step sv i x y :
  (y ∈ friends_of x (step sv i) ->
   y ∈ friends_of x sv \/ accepts sv i x y \/ accepts sv i y x)
  /\ (match i with
      | Http (Register _ _ uuid) => users_get uuid (users sv) = None
      | _ => True
      end ->
      y ∈ friends_of x sv \/ accepts sv i x y \/ accepts sv i y x ->
      y ∈ friends_of x (step sv i)).
Proof.
  destruct i as [r|token n|s arg|s arg|s]; cbn [step].
  2:{ assert (Hu : friends_of x (match io_use token sv with
                     | inl _ => sv
                     | inr user => with_relay (Relay.on_connection
                          (Relay.mkSocket n (id user)) (relay_state sv)) sv
                     end) = friends_of x sv) by (by destruct (io_use token sv)).
      rewrite Hu. split; [by left|]. intros _ [?|[H|H]]; [done|..];
        by apply not_accepts_step in H. }
  2-4: (split; [by left|]; intros _ [?|[H|H]]; [done|..]; by apply not_accepts_step in H).
  destruct r as [name password uuid|name password token|auth|auth|auth|auth name|auth a'];
    cbn [handle].
  - split.
    + intros Hy. left. revert Hy. unfold friends_of.
      destruct (api_register_get name password uuid sv x) as [->|[-> (n & p & ->)]]; [done|].
      simpl. by intros ?%elem_of_nil.
    + intros Hfresh [Hy|[H|H]]; [|by apply not_accepts_step in H..].
      revert Hy. unfold friends_of.
      destruct (api_register_get name password uuid sv x) as [->|[-> (n & p & ->)]]; [done|].
      rewrite Hfresh. simpl. by intros ?%elem_of_nil.
  - rewrite (friends_of_users _ _ _ (api_login_users _ _ _ _)).
    split; [by left|]. intros _ [?|[H|H]]; [done|..]; by apply not_accepts_step in H.
  - assert (Hu : (api_me auth sv).1 = sv) by (unfold api_me; by repeat case_match).
    rewrite Hu. split; [by left|].
    intros _ [?|[H|H]]; [done|..]; by apply not_accepts_step in H.
  - assert (Hu : (api_friends auth sv).1 = sv) by (unfold api_friends; by repeat case_match).
    rewrite Hu. split; [by left|].
    intros _ [?|[H|H]]; [done|..]; by apply not_accepts_step in H.
  - assert (Hu : (api_requests auth sv).1 = sv) by (unfold api_requests; by repeat case_match).
    rewrite Hu. split; [by left|].
    intros _ [?|[H|H]]; [done|..]; by apply not_accepts_step in H.
  - rewrite api_friend_request_friends. split; [by left|].
    intros _ [?|[H|H]]; [done|..]; by apply not_accepts_step in H.
  - destruct (api_friend_accept_cases auth a' sv)
      as [(me & tok & a & requester & -> & Hne & Hauth & Hin & Hreq & ->)
         |(_ & Hno & Hst)].
    + cbn [fst]. rewrite (friends_of_users _ _ _ (notify_users _ _ _ _)).
      pose proof (requireAuth_me _ _ _ _ Hauth) as Hme.
      rewrite accepted_friends by (done || by eexists).
      assert (Hacc : forall p q, accepts sv (Http (FriendAccept auth (Some a))) p q
                                 <-> p = a /\ q = id me).
      { intros p q. split.
        - intros (auth' & me' & tok' & [= <- <-] & Hauth' & <- & _).
          rewrite Hauth in Hauth'. by simplify_eq.
        - intros [-> ->]. exists auth, me, tok. repeat split; try done; by eexists. }
      rewrite !Hacc. split; [tauto|]. intros _. tauto.
    + assert (Hf : friends_of x (api_friend_accept auth a' sv).1 = friends_of x sv).
      { destruct Hst as [->|(me & tok & a & _ & _ & _ & ->)]; [done|].
        by rewrite friends_of_update_other. }
      rewrite Hf. split; [by left|].
      intros _ [?|[H|H]]; [done|..]; exfalso; apply Hno; by eexists _, _.
Qed.

Lemma trusted_step sv i a b :
  (trusted (relay_state (step sv i)) a b ->
   trusted (relay_state sv) a b \/ accepts sv i a b \/ accepts sv i b a)
  /\ (match i with
      | Http (Register _ _ uuid) => users_get uuid (users sv) = None
      | _ => True
      end ->
      trusted (relay_state sv) a b \/ accepts sv i a b \/ accepts sv i b a ->
      trusted (relay_state (step sv i)) a b).
Proof. rewrite !trusted_friends_of. apply friends_of_step. Qed.
End server_steps.

Section server_properties.
Context {node : Node}.
Import Rest.

(** X11.  Accepting a request makes the two users friends of each other
    at once: the relay's trust test passes in both directions, and the
    request is gone from both records. *)
Theorem accept_makes_friends (sv : server) (authorization : option string)
    (me requester : User) (token a : string) :
  requireAuth authorization sv = inr (me, token) ->
  a <> "" ->
  a ∈ incomingRequests me ->
  users_get a (users sv) = Some requester ->
  (api_friend_accept authorization (Some a) sv).2
    = res_json (JAccepted (a, username requester))
  /\ trusted (relay_state (api_friend_accept authorization (Some a) sv).1) (id me) a
  /\ trusted (relay_state (api_friend_accept authorization (Some a) sv).1) a (id me)
  /\ (exists me', users_get (id me) (users (api_friend_accept authorization (Some a) sv).1)
                  = Some me'
                  /\ a ∉ incomingRequests me')
  /\ (exists requester', users_get a (users (api_friend_accept authorization (Some a) sv).1)
                         = Some requester'
                         /\ id me ∉ outgoingRequests requester').
Proof.
  intros Hauth Hne Hin Hreq.
  pose proof (requireAuth_me _ _ _ _ Hauth) as Hme.
  destruct (api_friend_accept_cases authorization (Some a) sv)
    as [(me0 & tok0 & a0 & requester0 & [= <-] & _ & Hauth0 & _ & Hreq0 & ->)
       |(_ & Hno & _)].
  2:{ exfalso. apply Hno. exists a, (id me), authorization, me, token.
      repeat split; try done; by eexists. }
  rewrite Hauth in Hauth0. rewrite Hreq in Hreq0. simplify_eq. cbn [fst snd].
  split; [done|].
  rewrite !trusted_friends_of, !(friends_of_users _ _ _ (notify_users _ _ _ _)).
  rewrite !accepted_friends by (done || by eexists).
  split; [by right; right|]. split; [by right; left|].
  rewrite notify_users, !users_get_update by done.
  rewrite Hme, Hreq.
  rewrite (bool_decide_eq_true_2 (id me0 = id me0)), (bool_decide_eq_true_2 (a = a)) by done.
  split.
  - destruct (bool_decide (id me0 = a)); simpl; eexists; (split; [reflexivity|]);
      simpl; rewrite elem_of_set_delete; tauto.
  - destruct (bool_decide (a = id me0)); simpl; eexists; (split; [reflexivity|]);
      simpl; rewrite elem_of_set_delete; tauto.
Qed.

(** X12.  Only an accepted request opens the relay between two users:
    whatever reaches the server, a pair that passes the trust test
    afterwards passed it before, or the input was one of the two
    accepting the other's request. *)
Theorem only_accept_makes_friends (sv : server) (i : input) (a b : string) :
  trusted (relay_state (step sv i)) a b ->
  trusted (relay_state sv) a b \/ accepts sv i a b \/ accepts sv i b a.
Proof. apply trusted_step. Qed.

Lemma mutual_step sv i :
  match i with
  | Http (Register _ _ uuid) => users_get uuid (users sv) = None
  | _ => True
  end ->
  mutual sv -> mutual (step sv i).
Proof.
  intros Hfresh Hm a b Hab.
  apply (proj1 (trusted_step sv i a b)) in Hab.
  apply (proj2 (trusted_step sv i b a)); [done|].
  destruct Hab as [Hab|[Hab|Hab]]; [left; by apply Hm|by right; right|by right; left].
Qed.

(** X13.  Friendship stays mutual: from a server where it is, along every
    run of requests and socket events in which the UUIDs drawn for
    registrations are new. *)
Theorem friendship_stays_mutual (sv : server) (inputs : list input) :
  mutual sv -> fresh_ids sv inputs -> mutual (foldl step sv inputs).
Proof.
  revert sv. induction inputs as [|i inputs IH]; intros sv Hm Hfresh; [done|].
  destruct Hfresh as [Hi Hrest]. simpl. apply IH; [|done]. by apply mutual_step.
Qed.

Lemma existsb_find {A} (f : A -> bool) l : existsb f l = false <-> List.find f l = None.
Proof.
  induction l as [|x l IH]; [done|]. simpl. destruct (f x); [done|]. exact IH.
Qed.

Lemma find_app {A} (f : A -> bool) l1 l2 :
  List.find f (l1 ++ l2)
  = match List.find f l1 with Some x => Some x | None => List.find f l2 end.
Proof. induction l1 as [|x l1 IH]; [done|]. simpl. by destruct (f x). Qed.

(** X14.  Register, log in, authenticate.  A registration under a free
    name answers 201; logging in with that name in any letter case and the
    same password answers with the token; the token then passes both the
    HTTP middleware, as a Bearer token, and the socket handshake, as the
    registered user. *)
Theorem register_login_authenticate (sv : server) (name name' password uuid token : string) :
  name <> "" -> name' <> "" -> password <> "" -> uuid <> "" -> token <> "" ->
  toLowerCase name' = toLowerCase name ->
  find_by_name name (users sv) = None ->
  users_get uuid (users sv) = None ->
  let user := mkUser uuid name (hashPassword password) [] [] [] in
  let registered := api_register (Some name) (Some password) uuid sv in
  let logged := api_login (Some name') (Some password) token registered.1 in
  registered.2 = mkResponse 201 JSuccess
  /\ logged.2 = res_json (JLogin token (mkUserPayload uuid name []))
  /\ requireAuth (Some ("Bearer " +:+ token)) logged.1 = inr (user, token)
  /\ io_use (Some token) logged.1 = inr user.
Proof.
  intros Hn Hn' Hp Hu Ht Hlow Hfree Hfresh user registered logged.
  assert (Hreg : registered = (set_users (users sv ++ [user]) sv, mkResponse 201 JSuccess)).
  { subst registered. unfold api_register.
    rewrite (proj2 (truthy_Some (Some name) name)) by done.
    rewrite (proj2 (truthy_Some (Some password) password)) by done.
    unfold find_by_name in Hfree. apply existsb_find in Hfree. rewrite Hfree.
    unfold users_set. cbn [id]. by rewrite Hfresh. }
  assert (Hfind : find_by_name name' (users sv ++ [user]) = Some user).
  { unfold find_by_name in *. rewrite Hlow, find_app, Hfree. simpl.
    by rewrite bool_decide_eq_true_2. }
  assert (Hlog : logged = (mkServer (users sv ++ [user]) (<[token := uuid]> (sessions sv))
                             (socketsByUser sv) (undeliveredMessages sv) (outbox sv),
                           res_json (JLogin token (mkUserPayload uuid name [])))).
  { subst logged. rewrite Hreg. unfold api_login. cbn [fst users set_users].
    rewrite (proj2 (truthy_Some (Some name') name')) by done.
    rewrite (proj2 (truthy_Some (Some password) password)) by done.
    rewrite Hfind. cbn [passwordHash user]. by rewrite bool_decide_eq_true_2. }
  assert (Hget : users_get uuid (users sv ++ [user]) = Some user).
  { rewrite users_get_app, Hfresh. unfold users_get. simpl.
    by rewrite bool_decide_eq_true_2. }
  rewrite Hlog, Hreg. cbn [fst snd]. split; [done|]. split; [done|]. split.
  - apply requireAuth_inr. exists ("Bearer " +:+ token), uuid.
    destruct (bearer_token token) as [Hpre Hsl]. rewrite Hsl.
    repeat split; try done. cbn [sessions]. apply lookup_insert_eq.
  - unfold io_use. rewrite (proj2 (truthy_Some (Some token) token)) by done.
    cbn [sessions users]. rewrite lookup_insert_eq.
    rewrite (proj2 (truthy_Some (Some uuid) uuid)) by done. by rewrite Hget.
Qed.

(** X15.  A request that is answered with an error status leaves the
    server as it was, with one exception: accepting the request of a user
    whose record is gone answers 404 after dropping that request. *)
Theorem error_leaves_state (r : request) (sv : server) :
  400 <= status (handle r sv).2 ->
  (handle r sv).1 = sv
  \/ exists authorization me token a,
       r = FriendAccept authorization (Some a)
       /\ requireAuth authorization sv = inr (me, token)
       /\ status (handle r sv).2 = 404
       /\ (handle r sv).1 = update_user (id me) (with_incomingRequests (set_delete a)) sv.
Proof.
  destruct r as [name password uuid|name password token|auth|auth|auth|auth name|auth a'];
    cbn [handle].
  - unfold api_register. repeat case_match; simpl; (lia || by left).
  - unfold api_login. repeat case_match; simpl; (lia || by left).
  - unfold api_me. repeat case_match; simpl; (lia || by left).
  - unfold api_friends. repeat case_match; simpl; (lia || by left).
  - unfold api_requests. repeat case_match; simpl; (lia || by left).
  - unfold api_friend_request. repeat case_match; simpl; (lia || by left).
  - destruct (api_friend_accept_cases auth a' sv)
      as [(me & tok & a & requester & _ & _ & _ & _ & _ & ->)|(_ & _ & Hst)].
    + simpl. lia.
    + intros _. destruct Hst as [?|(me & tok & a & -> & Hauth & H404 & Hsv)]; [by left|].
      right. by exists auth, me, tok, a.
Qed.

Lemma is_Some_users_get_update x k f sv :
  (forall u, id (f u) = id u) ->
  is_Some (users_get x (users sv)) -> is_Some (users_get x (users (update_user k f sv))).
Proof.
  intros Hf [u Hu]. rewrite users_get_update, Hu by done.
  destruct (bool_decide _); by eexists.
Qed.

Lemma users_step x sv i :
  is_Some (users_get x (users sv)) -> is_Some (users_get x (users (step sv i))).
Proof.
  intros Hx. destruct i as [r|token n|s arg|s arg|s]; cbn [step]; try done.
  2:{ by destruct (io_use token sv). }
  destruct r as [name password uuid|name password token|auth|auth|auth|auth name|auth a'];
    cbn [handle].
  - destruct (api_register_get name password uuid sv x) as [->|[_ (n & p & ->)]]; [done|].
    by eexists.
  - by rewrite api_login_users.
  - unfold api_me. by repeat case_match.
  - unfold api_friends. by repeat case_match.
  - unfold api_requests. by repeat case_match.
  - unfold api_friend_request. repeat case_match; try done. cbn [fst].
    rewrite notify_users. by repeat (apply is_Some_users_get_update; [done|]).
  - destruct (api_friend_accept_cases auth a' sv)
      as [(me & tok & a & requester & _ & _ & _ & _ & _ & ->)|(_ & _ & Hst)].
    + cbn [fst]. rewrite notify_users. by repeat (apply is_Some_users_get_update; [done|]).
    + destruct Hst as [->|(me & tok & a & _ & _ & _ & ->)]; [done|].
      by apply is_Some_users_get_update; [done|].
Qed.

Lemma sessions_step token userId sv i :
  match i with
  | Http (Login _ _ token') => sessions sv !! token' = None
  | _ => True
  end ->
  sessions sv !! token = Some userId -> sessions (step sv i) !! token = Some userId.
Proof.
  intros Hfresh Hs. destruct i as [r|tok n|s arg|s arg|s]; cbn [step]; try done.
  2:{ by destruct (io_use tok sv). }
  destruct r as [name password uuid|name password tok|auth|auth|auth|auth name|auth a'];
    cbn [handle].
  - unfold api_register. by repeat case_match.
  - unfold api_login. repeat case_match; try done. cbn [fst sessions].
    rewrite lookup_insert_ne; [done|]. congruence.
  - unfold api_me. by repeat case_match.
  - unfold api_friends. by repeat case_match.
  - unfold api_requests. by repeat case_match.
  - unfold api_friend_request. repeat case_match; try done. cbn [fst].
    by rewrite notify_sessions.
  - destruct (api_friend_accept_cases auth a' sv)
      as [(me & tok & a & requester & _ & _ & _ & _ & _ & ->)|(_ & _ & Hst)].
    + cbn [fst]. by rewrite notify_sessions.
    + by destruct Hst as [->|(me & tok & a & _ & _ & _ & ->)].
Qed.

(** X16.  A session never ends on the server: a token that authenticates
    a user keeps authenticating the same user along every run in which the
    tokens drawn for later logins are new.  No request or socket event
    removes a session or a user. *)
Theorem session_never_ends (sv : server) (inputs : list input)
    (authorization : option string) (me : User) (token : string) :
  requireAuth authorization sv = inr (me, token) ->
  fresh_tokens sv inputs ->
  exists me',
    requireAuth authorization (foldl step sv inputs) = inr (me', token)
    /\ id me' = id me.
Proof.
  revert sv me. induction inputs as [|i inputs IH]; intros sv me Hauth Hfresh.
  - by exists me.
  - destruct Hfresh as [Hi Hrest]. simpl.
    apply requireAuth_inr in Hauth as (h & userId & -> & Hpre & -> & Hs & Hne & Hu).
    destruct (users_step userId sv i) as [me1 Hme1]; [by eexists|].
    destruct (IH (step sv i) me1) as (me' & Hauth' & Hid); [|done|].
    + apply requireAuth_inr. exists h, userId. repeat split; try done.
      by apply sessions_step.
    + exists me'. split; [done|].
      by rewrite Hid, (users_get_id _ _ _ Hme1), (users_get_id _ _ _ Hu).
Qed.

Lemma users_get_elem us u : NoDup (id <$> us) -> u ∈ us -> users_get (id u) us = Some u.
Proof.
  unfold users_get. induction us as [|v us IH]; intros Hnd Hin; [by apply elem_of_nil in Hin|].
  rewrite fmap_cons in Hnd. apply NoDup_cons in Hnd as [Hv Hnd]. simpl.
  apply elem_of_cons in Hin as [->|Hin]; [by rewrite bool_decide_eq_true_2|].
  rewrite bool_decide_eq_false_2; [by apply IH|].
  intros Heq. apply Hv. rewrite Heq. by apply list_elem_of_fmap_2.
Qed.

Lemma find_by_name_elem name us u : find_by_name name us = Some u -> u ∈ us.
Proof. intros H. apply find_some in H as [H _]. by apply list_elem_of_In. Qed.

(** X17.  A friend request that passes the checks is recorded on both
    records and changes no friend set.  The target is notified only if it
    has a socket at that moment: the notification is emitted to that
    socket, and for a target that is offline nothing is emitted and
    nothing is put into its bucket of undelivered messages. *)
Theorem friend_request_effect (sv : server) (authorization : option string)
    (name token : string) (me target : User) :
  NoDup (id <$> users sv) ->
  requireAuth authorization sv = inr (me, token) ->
  name <> "" ->
  find_by_name name (users sv) = Some target ->
  id target <> id me ->
  id target ∉ friends me ->
  id me ∉ incomingRequests target ->
  let sv' := (api_friend_request authorization (Some name) sv).1 in
  (api_friend_request authorization (Some name) sv).2 = res_json JSuccess
  /\ incomingRequests <$> users_get (id target) (users sv')
     = Some (incomingRequests target ++ [id me])
  /\ outgoingRequests <$> users_get (id me) (users sv')
     = Some (set_add (id target) (outgoingRequests me))
  /\ (forall x, friends_of x sv' = friends_of x sv)
  /\ sessions sv' = sessions sv
  /\ socketsByUser sv' = socketsByUser sv
  /\ undeliveredMessages sv' = undeliveredMessages sv
  /\ outbox sv'
     = outbox sv
       ++ match socketsByUser sv !! id target with
          | Some sock =>
              [Relay.mkEmission sock (Relay.mkMessage "friend-request" (notice me))]
          | None => []
          end.
Proof.
  intros Hnd Hauth Hname Hfind Hne Hnf Hnr sv'.
  pose proof (requireAuth_me _ _ _ _ Hauth) as Hme.
  pose proof (users_get_elem _ _ Hnd (find_by_name_elem _ _ _ Hfind)) as Htarget.
  assert (Hrun : api_friend_request authorization (Some name) sv
                 = (notify (id target) "friend-request" (notice me)
                      (update_user (id me) (with_outgoingRequests (set_add (id target)))
                         (update_user (id target)
                            (with_incomingRequests (set_add (id me))) sv)),
                    res_json JSuccess)).
  { unfold api_friend_request. rewrite Hauth.
    rewrite (proj2 (truthy_Some (Some name) name)) by done. rewrite Hfind.
    rewrite bool_decide_eq_false_2 by done. unfold set_has.
    by rewrite !bool_decide_eq_false_2 by done. }
  subst sv'. rewrite Hrun. cbn [fst snd]. split; [done|].
  rewrite notify_users. split; [|split; [|split]].
  - rewrite !users_get_update, Htarget by done.
    rewrite (bool_decide_eq_false_2 (id target = id me)) by done.
    rewrite bool_decide_eq_true_2 by done. simpl. unfold set_add, set_has.
    by rewrite bool_decide_eq_false_2.
  - rewrite !users_get_update, Hme by done.
    rewrite (bool_decide_eq_false_2 (id me = id target)) by done.
    by rewrite bool_decide_eq_true_2.
  - intros x. rewrite (friends_of_users _ _ _ (notify_users _ _ _ _)).
    by rewrite !friends_of_update_other.
  - unfold notify. cbn [socketsByUser update_user set_users].
    destruct (socketsByUser sv !! id target); [done|]. simpl. by rewrite app_nil_r.
Qed.

Lemma names_update k f sv :
  (forall u, username (f u) = username u) ->
  (fun u => toLowerCase (username u)) <$> users (update_user k f sv)
  = (fun u => toLowerCase (username u)) <$> users sv.
Proof.
  intros Hf. unfold update_user. cbn [users set_users]. rewrite <- list_fmap_compose.
  apply list_fmap_ext. intros _ u _. simpl. destruct (bool_decide _); [|done]. by rewrite Hf.
Qed.

Lemma unique_names_step sv i :
  match i with
  | Http (Register _ _ uuid) => users_get uuid (users sv) = None
  | _ => True
  end ->
  unique_names sv -> unique_names (step sv i).
Proof.
  intros Hfresh Hn. destruct i as [r|token n|s arg|s arg|s]; cbn [step]; try done.
  2:{ by destruct (io_use token sv). }
  destruct r as [name password uuid|name password token|auth|auth|auth|auth name|auth a'];
    cbn [handle].
  - unfold api_register. repeat case_match; try done. cbn [fst]. unfold unique_names in *.
    cbn [users set_users]. unfold users_set. cbn [id]. rewrite Hfresh.
    rewrite fmap_app. apply NoDup_app. split; [done|]. split; [|apply NoDup_singleton].
    intros x Hx Hx'. apply list_elem_of_singleton in Hx'. subst x. simpl in Hx.
    apply list_elem_of_fmap in Hx as (u & Hu & Hin).
    match goal with H : existsb _ _ = false |- _ => rename H into Hex end.
    assert (Htrue : existsb (fun u => bool_decide (toLowerCase (username u) = toLowerCase s))
                      (users sv) = true); [|congruence].
    apply existsb_exists. exists u. split; [by apply list_elem_of_In|].
    by apply bool_decide_eq_true_2.
  - unfold unique_names. by rewrite api_login_users.
  - unfold api_me. by repeat case_match.
  - unfold api_friends. by repeat case_match.
  - unfold api_requests. by repeat case_match.
  - unfold api_friend_request. repeat case_match; try done. cbn [fst].
    unfold unique_names. rewrite notify_users. by rewrite !names_update.
  - destruct (api_friend_accept_cases auth a' sv)
      as [(me & tok & a & requester & _ & _ & _ & _ & _ & ->)|(_ & _ & Hst)].
    + cbn [fst]. unfold unique_names. rewrite notify_users. by rewrite !names_update.
    + destruct Hst as [->|(me & tok & a & _ & _ & _ & ->)]; [done|].
      unfold unique_names. by rewrite names_update.
Qed.

(** X18.  User names stay unique, letter case apart: from a server where
    they are, along every run in which the UUIDs drawn for registrations
    are new.  So a login never has two records to choose from. *)
Theorem names_stay_unique (sv : server) (inputs : list input) :
  unique_names sv -> fresh_ids sv inputs -> unique_names (foldl step sv inputs).
Proof.
  revert sv. induction inputs as [|i inputs IH]; intros sv Hn Hfresh; [done|].
  destruct Hfresh as [Hi Hrest]. simpl. apply IH; [|done]. by apply unique_names_step.
Qed.

(** X19.  The socket handshake and the HTTP middleware accept the same
    tokens: a token that is not empty opens a socket as a user exactly
    when it authenticates that user as a Bearer token. *)
Theorem handshake_accepts_bearer_tokens (sv : server) (token : string) (user : User) :
  token <> "" ->
  io_use (Some token) sv = inr user
  <-> requireAuth (Some ("Bearer " +:+ token)) sv = inr (user, token).
Proof.
  intros Hne. rewrite requireAuth_inr. unfold io_use.
  rewrite (proj2 (truthy_Some (Some token) token)) by done.
  destruct (bearer_token token) as [Hpre Hsl]. split.
  - destruct (truthy (sessions sv !! token)) as [userId|] eqn:Ht; [|done].
    apply truthy_Some in Ht as [Hs Hu].
    destruct (users_get userId (users sv)) as [u|] eqn:Hget; [|done].
    intros [= ->]. exists ("Bearer " +:+ token), userId. by rewrite Hsl.
  - intros (h & userId & [= <-] & _ & _ & Hs & Hu & Hget).
    rewrite Hs.
    rewrite (proj2 (truthy_Some (Some userId) userId)) by done. by rewrite Hget.
Qed.
End server_properties.

Section server_runs.
Import Rest ToyServer.
#[local] Existing Instance toy_node.

(** Bob accepts Alice's request. *)
Lemma accept_makes_friends_bob :
  trusted (relay_state (api_friend_accept (Some "Bearer tok-b") (Some "id-a") server0).1)
    "id-a" "id-b".
Proof.
  apply (accept_makes_friends server0 (Some "Bearer tok-b") bob
           (with_outgoingRequests (fun _ => ["id-b"]) alice) "tok-b" "id-a").
  - reflexivity.
  - discriminate.
  - apply list_elem_of_here.
  - reflexivity.
Defined.

Lemma only_accept_makes_friends_bob :
  trusted (relay_state server0) "id-a" "id-b"
  \/ accepts server0 (Http (FriendAccept (Some "Bearer tok-b") (Some "id-a"))) "id-a" "id-b"
  \/ accepts server0 (Http (FriendAccept (Some "Bearer tok-b") (Some "id-a"))) "id-b" "id-a".
Proof.
  apply (only_accept_makes_friends server0).
  apply trusted_friends_of. vm_compute. apply list_elem_of_here.
Defined.

(** Nobody has a friend in [server0]; Carol registers, then Bob accepts
    Alice. *)
Lemma friendship_stays_mutual_server0 :
  mutual (foldl step server0
            [Http (Register (Some "Carol") (Some "pw-c") "id-c");
             Http (FriendAccept (Some "Bearer tok-b") (Some "id-a"))]).
Proof.
  apply (friendship_stays_mutual server0).
  - intros a b H. apply trusted_friends_of in H. exfalso. revert H.
    unfold friends_of, users_get. simpl.
    repeat (destruct (bool_decide _); simpl); by intros ?%elem_of_nil.
  - cbn [fresh_ids]. split; [reflexivity|]. split; exact I.
Defined.

Lemma register_login_authenticate_carol :
  io_use (Some "tok-c")
    (api_login (Some "CAROL") (Some "pw-c") "tok-c"
       (api_register (Some "Carol") (Some "pw-c") "id-c" server0).1).1
  = inr (mkUser "id-c" "Carol" (hashPassword "pw-c") [] [] []).
Proof.
  apply (register_login_authenticate server0 "Carol" "CAROL" "pw-c" "id-c" "tok-c");
    (discriminate || reflexivity).
Defined.

(** A login with a wrong password. *)
Lemma error_leaves_state_wrong_password :
  (handle (Login (Some "alice") (Some "guess") "tok-x") server0).1 = server0
  \/ exists authorization me token a,
       Login (Some "alice") (Some "guess") "tok-x" = FriendAccept authorization (Some a)
       /\ requireAuth authorization server0 = inr (me, token)
       /\ status (handle (Login (Some "alice") (Some "guess") "tok-x") server0).2 = 404
       /\ (handle (Login (Some "alice") (Some "guess") "tok-x") server0).1
          = update_user (id me) (with_incomingRequests (set_delete a)) server0.
Proof.
  apply (error_leaves_state (Login (Some "alice") (Some "guess") "tok-x") server0).
  simpl. lia.
Defined.

(** Alice's token after Bob logs in again and a socket goes away. *)
Lemma session_never_ends_alice :
  exists me',
    requireAuth (Some "Bearer tok-a")
      (foldl step server0
         [Http (Login (Some "bob") (Some "pw-b") "tok-b2");
          OnDisconnect (Relay.mkSocket 1 "id-a")])
    = inr (me', "tok-a")
    /\ id me' = id (with_outgoingRequests (fun _ => ["id-b"]) alice).
Proof.
  apply (session_never_ends server0
           [Http (Login (Some "bob") (Some "pw-b") "tok-b2");
            OnDisconnect (Relay.mkSocket 1 "id-a")]
           (Some "Bearer tok-a")).
  - reflexivity.
  - cbn [fresh_tokens]. split; [reflexivity|]. split; exact I.
Defined.

(** Bob asks Alice, who has no socket. *)
Lemma friend_request_effect_bob :
  incomingRequests
    <$> users_get "id-a"
          (users (api_friend_request (Some "Bearer tok-b") (Some "ALICE") server0).1)
  = Some ["id-b"].
Proof.
  apply (friend_request_effect server0 (Some "Bearer tok-b") "ALICE" "tok-b" bob
           (with_outgoingRequests (fun _ => ["id-b"]) alice)).
  - apply (bool_decide_unpack _). vm_compute. exact I.
  - reflexivity.
  - discriminate.
  - reflexivity.
  - discriminate.
  - by intros ?%elem_of_nil.
  - by intros ?%elem_of_nil.
Defined.

Lemma names_stay_unique_server0 :
  unique_names (foldl step server0 [Http (Register (Some "Carol") (Some "pw-c") "id-c")]).
Proof.
  apply (names_stay_unique server0).
  - apply (bool_decide_unpack _). vm_compute. exact I.
  - cbn [fresh_ids]. split; [reflexivity|exact I].
Defined.

Lemma handshake_accepts_bearer_tokens_alice :
  io_use (Some "tok-a") server0 = inr (with_outgoingRequests (fun _ => ["id-b"]) alice)
  <-> requireAuth (Some "Bearer tok-a") server0
      = inr (with_outgoingRequests (fun _ => ["id-b"]) alice, "tok-a").
Proof.
  apply (handshake_accepts_bearer_tokens server0 "tok-a"). discriminate.
Defined.
End server_runs.

(** ** The client: announces, key pairs, sending and receiving *)

Section client_ledger.
Context {wc : WebCrypto}.
Import Client.

#[local] Instance dh_ledger_refl : Reflexive dh_ledger.
Proof. intros c f. split; [lia|done]. Qed.

#[local] Instance dh_ledger_trans : Transitive dh_ledger.
Proof.
  intros c1 c2 c3 H12 H23 f. destruct (H12 f) as [Hb1 Hk1], (H23 f) as [Hb2 Hk2].
  split; [lia|]. intros kp Hkp. by apply Hk2, Hk1.
Qed.

Lemma dh_ledger_same c c' :
  sent c' = sent c -> sharedKeys c' = sharedKeys c -> dh_ledger c c'.
Proof.
  intros Hs Hk f. unfold announce_budget, dh_state. rewrite Hs, Hk. split; [lia|done].
Qed.


(** Writing a [DHState] that carries over the key pair and the mark. *)
Lemma dh_ledger_dh_write c friendId g :
  (forall s, keyPair (g s) = keyPair s /\ sentPublic (g s) = sentPublic s) ->
  dh_ledger c (update_sharedKeys (<[friendId := g (dh_state friendId c)]>) c).
Proof.
  intros Hg f. unfold announce_budget. rewrite dh_state_write. cbn [sent update_sharedKeys].
  destruct (decide (f = friendId)) as [->|Hne]; [|split; [lia|done]].
  destruct (Hg (dh_state friendId c)) as [-> ->]. split; [lia|done].
Qed.

Lemma dh_ledger_set_key c friendId key :
  dh_ledger c
    (update_sharedKeys
       (<[friendId := mkDH (keyPair (dh_state friendId c)) key
                           (sentPublic (dh_state friendId c))]>) c).
Proof.
  apply (dh_ledger_dh_write c friendId (fun s => mkDH (keyPair s) key (sentPublic s))).
  by intros [].
Qed.

Lemma announces_to_app friendId l1 l2 :
  announces_to friendId (l1 ++ l2) = announces_to friendId l1 + announces_to friendId l2.
Proof. unfold announces_to. by rewrite filter_app, length_app. Qed.

Lemma announces_to_singleton friendId o :
  announces_to friendId [o] = if decide (is_announce_to friendId o) then 1 else 0.
Proof.
  unfold announces_to. rewrite filter_cons, filter_nil. by destruct (decide _).
Qed.

Ltac ledger_modify :=
  first
    [ apply dh_ledger_set_key
    | match goal with
      | |- dh_ledger ?c (if socketRef ?c then _ else _) =>
          destruct (socketRef c); [|reflexivity];
          intros f; unfold announce_budget; rewrite dh_state_sent; cbn [sent update_sent];
          rewrite announces_to_app, announces_to_singleton, decide_False by (by intros []);
          split; [lia|done]
      end
    | apply dh_ledger_same; reflexivity ].

Lemma ensureDHState_ledger friendId : preserves dh_ledger (ensureDHState friendId).
Proof.
  intros c f. destruct (ensureDHState_spec friendId c) as (_ & Hdh & Hother & Hsent & _).
  unfold announce_budget. rewrite Hsent.
  destruct (decide (f = friendId)) as [->|Hne].
  - rewrite Hdh. simpl. split; [lia|]. by intros kp ->.
  - unfold dh_state. rewrite Hother by done. split; [lia|done].
Qed.


Lemma emitPublicKey_ledger friendId : preserves dh_ledger (emitPublicKey friendId).
Proof.
  intros c. rewrite emitPublicKey_run.
  pose proof (ensureDHState_ledger friendId c) as H1.
  set (c1 := (ensureDHState friendId c).1) in *.
  destruct (sentPublic (dh_state friendId c1)) eqn:Hsp; [done|].
  destruct (keyPair (dh_state friendId c1)) as [kp|] eqn:Hkp; [|done].
  cbn [fst]. etrans; [exact H1|]. clear H1.
  intros f. unfold announce_budget. rewrite dh_state_write.
  destruct (decide (f = friendId)) as [->|Hne].
  - rewrite Hsp. cbn [sentPublic keyPair]. split.
    + destruct (socketRef c1); cbn [sent update_sent update_sharedKeys];
        rewrite ?announces_to_app; [|lia].
      rewrite announces_to_singleton, decide_True by done. lia.
    + intros kp' Hkp'. by destruct (socketRef c1).
  - split.
    + destruct (socketRef c1); cbn [sent update_sent update_sharedKeys];
        rewrite ?announces_to_app, ?dh_state_sent; [|lia].
      rewrite announces_to_singleton, decide_False by (simpl; congruence). lia.
    + intros kp' Hkp'. by destruct (socketRef c1).
Qed.

Ltac ledger_call :=
  match goal with
  | |- preserves _ (ensureDHState _) => apply ensureDHState_ledger
  | |- preserves _ (emitPublicKey _) => apply emitPublicKey_ledger
  end.

Lemma decryptIncoming_ledger p : preserves dh_ledger (decryptIncoming p).
Proof.
  unfold decryptIncoming, queuePendingMessage, setStatus, setFlowStage, console_error,
    pushMessage.
  repeat first [ledger_call | frame_step ledger_modify].
Qed.

Lemma runPendingMessages_ledger friendId : preserves dh_ledger (runPendingMessages friendId).
Proof.
  unfold runPendingMessages.
  repeat first
    [ match goal with
      | |- preserves _ (for_of _ decryptIncoming) =>
          apply preserves_for_of; [typeclasses eauto..|apply decryptIncoming_ledger]
      end
    | frame_step ledger_modify ].
Qed.

Lemma deriveSharedSecret_ledger friendId jwk :
  preserves dh_ledger (deriveSharedSecret friendId jwk).
Proof.
  unfold deriveSharedSecret, dh_write, setStatus.
  repeat first
    [ ledger_call
    | match goal with
      | |- preserves _ (runPendingMessages _) => apply runPendingMessages_ledger
      end
    | frame_step ledger_modify ].
Qed.

Lemma handleSendMessage_ledger : preserves dh_ledger handleSendMessage.
Proof.
  unfold handleSendMessage, ensureSharedKey, setStatus, setFlowStage, console_error,
    pushMessage, socket_emit.
  repeat first [ledger_call | frame_step ledger_modify].
Qed.

Lemma call_ledger h : preserves dh_ledger (call h).
Proof.
  destruct h; cbn [call].
  - apply deriveSharedSecret_ledger.
  - apply decryptIncoming_ledger.
  - apply handleSendMessage_ledger.
  - apply emitPublicKey_ledger.
Qed.

Lemma after_ledger c hs : dh_ledger c (after c hs).
Proof.
  revert c. induction hs as [|h hs IH]; intros c; [reflexivity|].
  unfold after. simpl. etrans; [apply call_ledger|]. apply IH.
Qed.

(** X20.  Calls that do not overlap announce the public key to a peer at
    most once.  Along every run of the pipeline's handlers in which each
    call ends before the next starts, the announces to a peer do not exceed
    the budget the state started with; in particular, once [sentPublic] is
    set for a peer no further announce goes to it, and a client that starts
    with nothing emitted announces to each peer at most once. *)
Theorem announces_at_most_once (c : client) (hs : list handler) (friendId : string) :
  announce_budget friendId (after c hs) <= announce_budget friendId c
  /\ (sentPublic (dh_state friendId c) = true ->
      announces_to friendId (sent (after c hs)) <= announces_to friendId (sent c))
  /\ (sent c = [] -> announces_to friendId (sent (after c hs)) <= 1).
Proof.
  destruct (after_ledger c hs friendId) as [Hb _]. split; [done|].
  unfold announce_budget in Hb. split.
  - intros Hsp. rewrite Hsp in Hb. lia.
  - intros Hs. rewrite Hs in Hb. unfold announces_to at 2 in Hb. simpl in Hb.
    destruct (sentPublic (dh_state friendId c)); lia.
Qed.

(** X21.  Calls that do not overlap never replace a key pair: along every
    run of the pipeline's handlers in which each call ends before the next
    starts, a peer's state keeps the pair it has. *)
Theorem key_pair_never_replaced (c : client) (hs : list handler) (friendId : string)
    (kp : PrivateKey * PublicKey) :
  keyPair (dh_state friendId c) = Some kp ->
  keyPair (dh_state friendId (after c hs)) = Some kp.
Proof. intros Hkp. by apply (after_ledger c hs friendId). Qed.
End client_ledger.

(** One step of a run: reduce up to the next call into the codecs or the
    platform. *)
Ltac run_step H :=
  cbn -[Stego.embedTextInImage Stego.extractTextFromImage Crypto.bufferToBase64
        Crypto.base64ToBytes JS.TextEncoder_encode JS.TextDecoder_decode encrypt decrypt
        getRandomValues randomUUID] in H.

Section client_sending.
Context {wc : WebCrypto}.
Import Client.
Local Open Scope Z_scope.

(** The run of [handleSendMessage] when every step of the pipeline
    returns. *)
Lemma handleSendMessage_sends c selected tok key cipherBytes cipherBase64 stegoImage ivBase64 :
  truthy (token c) = Some tok ->
  truthy (selectedFriendId c) = Some selected ->
  JS.trim (draft c) <> [] ->
  sharedKey (dh_state selected c) = Some key ->
  encrypt key (getRandomValues (entropy c)) (JS.TextEncoder_encode (JS.trim (draft c)))
    = Return cipherBytes ->
  Crypto.bufferToBase64 cipherBytes = Return cipherBase64 ->
  Stego.embedTextInImage (canvas2d c) cipherBase64 = Return stegoImage ->
  Crypto.bufferToBase64 (getRandomValues (entropy c)) = Return ivBase64 ->
  let c' := (handleSendMessage c).1 in
  (handleSendMessage c).2 = Return tt
  /\ sent c'
     = sent c ++ (if socketRef c then [EmitSecureMessage selected stegoImage ivBase64] else [])
  /\ threadsRef c'
     = <[selected := default [] (threadsRef c !! selected)
                     ++ [mkMsg (randomUUID (S (entropy c))) (default "me" (user c))
                               (JS.trim (draft c)) stegoImage (now c) sent_status]]>
         (threadsRef c)
  /\ draft c' = []
  /\ status c' = "Encrypted message sent via image"
  /\ flowStage c' = finalFlowStageIndex
  /\ sharedKeys c' = sharedKeys c
  /\ pendingMessagesRef c' = pendingMessagesRef c
  /\ console c' = console c.
Proof.
  intros Htok Hsel Hdraft Hkey Henc Hb64 Himg Hiv c'. subst c'.
  destruct (handleSendMessage c) as [c' r] eqn:Hrun. cbn [fst snd].
  unfold handleSendMessage in Hrun.
  unfold mbind at 1 in Hrun. unfold M_bind at 1 in Hrun. unfold get at 1 in Hrun.
  rewrite Htok, Hsel in Hrun.
  destruct (JS.trim (draft c)) as [|x text] eqn:Htrim; [done|].
  unfold ensureSharedKey in Hrun.
  unfold mbind at 1 in Hrun. unfold M_bind at 1 in Hrun.
  unfold mbind at 1 in Hrun. unfold M_bind at 1 in Hrun. unfold get at 1 in Hrun.
  rewrite Hkey in Hrun.
  unfold Crypto.encryptWithKey, setFlowStage, setStatus, pushMessage, socket_emit,
    console_error, try_catch, fresh, modify, lift, get, mbind, M_bind, mret, M_ret in Hrun.
  run_step Hrun. rewrite Henc in Hrun.
  run_step Hrun. rewrite Hb64 in Hrun.
  run_step Hrun. rewrite Himg in Hrun.
  run_step Hrun.
  destruct (socketRef c) eqn:Hsock.
  - rewrite Hiv in Hrun. run_step Hrun. rewrite Hsock in Hrun.
    injection Hrun as <- <-. done.
  - run_step Hrun. injection Hrun as <- <-. cbn [sent update_sent]. by rewrite app_nil_r.
Qed.
End client_sending.

Section cipher_images.
Import JS Crypto Stego.
Local Open Scope Z_scope.

(** Base64 of bytes: total, inverted by [base64ToBytes], 7-bit. *)
Lemma bufferToBase64_returns bytes :
  Forall is_byte bytes ->
  exists encoded,
    bufferToBase64 bytes = Return encoded
    /\ base64ToBytes encoded = Return bytes
    /\ length encoded = (4 * ((length bytes + 2) / 3))%nat
    /\ Forall is_ascii encoded.
Proof.
  intros Hb. pose proof (atob_btoa bytes Hb) as Hround.
  rewrite bufferToBase64_btoa by done. rewrite btoa_bytes in * by done.
  change (Return ?a ≫= ?k) with (k a) in Hround.
  eexists. split; [reflexivity|]. split; [by apply base64ToBytes_atob|].
  pose proof (b64_groups_range bytes Hb) as Hg. split.
  - rewrite length_app, length_fmap, length_replicate. apply length_b64_groups.
  - apply Forall_app. split.
    + apply Forall_fmap. eapply Forall_impl; [exact Hg|]. intros g ?. by apply b64_char_text.
    + apply Forall_replicate. unfold is_ascii. lia.
Qed.

(** Up to 6141 bytes fit the cover as base64 text and come back. *)
Lemma cipher_image bytes :
  Forall is_byte bytes ->
  Z.of_nat (length bytes) <= 6141 ->
  exists encoded img,
    bufferToBase64 bytes = Return encoded
    /\ embedTextInImage true encoded = Return img
    /\ extractTextFromImage true img = Return encoded
    /\ base64ToBytes encoded = Return bytes.
Proof.
  intros Hb Hn. destruct (bufferToBase64_returns bytes Hb) as (e & He & Hd & Hlen & Hascii).
  destruct (ascii_text e Hascii) as (Henc & Hwf & Hwp).
  assert (Hex : embedTextInImage true e ≫= extractTextFromImage true = Return e).
  { rewrite extract_embed; [|done|rewrite Henc, Hlen; nlia].
    rewrite TextDecoder_TextEncoder_id; [done..|].
    destruct e as [|c ?]; [done|]. apply Forall_cons in Hascii as [Hc _].
    unfold is_ascii in Hc. simpl. intros [= ->]. lia. }
  destruct (embedTextInImage true e) as [img|err] eqn:Himg; [|discriminate].
  change (Return ?a ≫= ?k) with (k a) in Hex. by exists e, img.
Qed.

Lemma cipher_too_long bytes :
  Forall is_byte bytes ->
  6141 < Z.of_nat (length bytes) ->
  exists encoded,
    bufferToBase64 bytes = Return encoded
    /\ embedTextInImage true encoded = Throw capacity_error.
Proof.
  intros Hb Hn. destruct (bufferToBase64_returns bytes Hb) as (e & He & _ & Hlen & Hascii).
  destruct (ascii_text e Hascii) as (Henc & _). exists e. split; [done|].
  unfold embedTextInImage.
  destruct (embedTextInImage_run_cases e) as [[_ ->] | [Hfit _]]; [done|].
  rewrite Henc, Hlen in Hfit. nlia.
Qed.
End cipher_images.

Section client_pipeline.
Context {wc : WebCrypto}.
Import Client.
Local Open Scope Z_scope.

(** X22.  Sending with a key in place.  When encryption returns at most
    6141 bytes, the message goes out as one ['secure-message'] that
    carries the stego image and the base64 nonce, the thread of the friend
    gets the trimmed text with that image, the editor is cleared and the
    status reads "Encrypted message sent via image".  Without a socket the
    same happens except that nothing is emitted. *)
Theorem send_with_key (c : client) (selected tok : string) (key : CryptoKey)
    (cipherBytes : list Z) :
  truthy (token c) = Some tok ->
  truthy (selectedFriendId c) = Some selected ->
  JS.trim (draft c) <> [] ->
  sharedKey (dh_state selected c) = Some key ->
  canvas2d c = true ->
  encrypt key (getRandomValues (entropy c)) (JS.TextEncoder_encode (JS.trim (draft c)))
    = Return cipherBytes ->
  Forall is_byte cipherBytes ->
  Z.of_nat (length cipherBytes) <= 6141 ->
  Forall is_byte (getRandomValues (entropy c)) ->
  exists cipherBase64 stegoImage ivBase64,
    Crypto.bufferToBase64 cipherBytes = Return cipherBase64
    /\ Stego.embedTextInImage true cipherBase64 = Return stegoImage
    /\ Crypto.bufferToBase64 (getRandomValues (entropy c)) = Return ivBase64
    /\ (handleSendMessage c).2 = Return tt
    /\ sent (handleSendMessage c).1
       = sent c
         ++ (if socketRef c then [EmitSecureMessage selected stegoImage ivBase64] else [])
    /\ threadsRef (handleSendMessage c).1
       = <[selected := default [] (threadsRef c !! selected)
                       ++ [mkMsg (randomUUID (S (entropy c))) (default "me" (user c))
                                 (JS.trim (draft c)) stegoImage (now c) sent_status]]>
           (threadsRef c)
    /\ draft (handleSendMessage c).1 = []
    /\ status (handleSendMessage c).1 = "Encrypted message sent via image".
Proof.
  intros Htok Hsel Hdraft Hkey Hcanvas Henc Hbytes Hlen Hiv.
  destruct (cipher_image cipherBytes Hbytes Hlen) as (e & img & He & Himg & _ & _).
  destruct (bufferToBase64_returns _ Hiv) as (iv64 & Hiv64 & _).
  exists e, img, iv64. split; [done|]. split; [done|]. split; [done|].
  rewrite <- Hcanvas in Himg.
  destruct (handleSendMessage_sends c selected tok key cipherBytes e img iv64)
    as (H1 & H2 & H3 & H4 & H5 & _); done.
Qed.

(** X23.  Sending fails inside the pipeline when encryption throws, when
    the canvas gives no 2D context, or when the ciphertext has more than
    6141 bytes and its base64 text does not fit the cover.  Then
    [handleSendMessage] still returns: the error goes to the console, the
    status reads "Failed to send secure message", and nothing is emitted,
    no thread changes and the draft stays in the editor. *)
Theorem send_failure (c : client) (selected tok : string) (key : CryptoKey) :
  truthy (token c) = Some tok ->
  truthy (selectedFriendId c) = Some selected ->
  JS.trim (draft c) <> [] ->
  sharedKey (dh_state selected c) = Some key ->
  match encrypt key (getRandomValues (entropy c))
          (JS.TextEncoder_encode (JS.trim (draft c))) with
  | Throw _ => True
  | Return cipherBytes =>
      Forall is_byte cipherBytes
      /\ (canvas2d c = false \/ 6141 < Z.of_nat (length cipherBytes))
  end ->
  (handleSendMessage c).2 = Return tt
  /\ sent (handleSendMessage c).1 = sent c
  /\ threadsRef (handleSendMessage c).1 = threadsRef c
  /\ draft (handleSendMessage c).1 = draft c
  /\ status (handleSendMessage c).1 = "Failed to send secure message"
  /\ console (handleSendMessage c).1 = console c ++ ["send message error"]
  /\ sharedKeys (handleSendMessage c).1 = sharedKeys c
  /\ pendingMessagesRef (handleSendMessage c).1 = pendingMessagesRef c.
Proof.
  intros Htok Hsel Hdraft Hkey Hfail.
  destruct (handleSendMessage c) as [c' r] eqn:Hrun. cbn [fst snd].
  unfold handleSendMessage in Hrun.
  unfold mbind at 1 in Hrun. unfold M_bind at 1 in Hrun. unfold get at 1 in Hrun.
  rewrite Htok, Hsel in Hrun.
  destruct (JS.trim (draft c)) as [|x text] eqn:Htrim; [done|].
  unfold ensureSharedKey in Hrun.
  unfold mbind at 1 in Hrun. unfold M_bind at 1 in Hrun.
  unfold mbind at 1 in Hrun. unfold M_bind at 1 in Hrun. unfold get at 1 in Hrun.
  rewrite Hkey in Hrun.
  unfold Crypto.encryptWithKey, setFlowStage, setStatus, pushMessage, socket_emit,
    console_error, try_catch, fresh, modify, lift, get, mbind, M_bind, mret, M_ret in Hrun.
  run_step Hrun.
  destruct (encrypt key (getRandomValues (entropy c)) (JS.TextEncoder_encode (x :: text)))
    as [cipherBytes|e].
  - destruct Hfail as [Hbytes Hwhy].
    assert (Hembed : exists encoded err,
               Crypto.bufferToBase64 cipherBytes = Return encoded
               /\ Stego.embedTextInImage (canvas2d c) encoded = Throw err).
    { destruct (canvas2d c) eqn:Hcanvas.
      - destruct Hwhy as [|Hlong]; [done|].
        destruct (cipher_too_long cipherBytes Hbytes Hlong) as (enc & ? & ?).
        by exists enc, capacity_error.
      - destruct (bufferToBase64_returns cipherBytes Hbytes) as (enc & ? & _).
        exists enc, (Error "Canvas context unavailable"). split; [done|].
        by unfold Stego.embedTextInImage, Stego.embedTextInImage_run. }
    destruct Hembed as (enc & err & Henc & Herr).
    run_step Hrun. rewrite Henc in Hrun. run_step Hrun. rewrite Herr in Hrun.
    run_step Hrun. by injection Hrun as <- <-.
  - run_step Hrun. by injection Hrun as <- <-.
Qed.

(** The run of [decryptIncoming] when the key is in place and every step
    returns. *)
Lemma decryptIncoming_opens p c key stegoPayload cipherBytes ivBytes plainBytes :
  sharedKey (dh_state (payload_from p) c) = Some key ->
  Stego.extractTextFromImage (canvas2d c) (payload_imageDataUrl p) = Return stegoPayload ->
  Crypto.base64ToBytes stegoPayload = Return cipherBytes ->
  Crypto.base64ToBytes (payload_iv p) = Return ivBytes ->
  decrypt key ivBytes cipherBytes = Return plainBytes ->
  decryptIncoming p c
  = (update_flowStage (fun _ => finalFlowStageIndex)
       (update_messagesVersion S
          (update_threadsRef
             (<[payload_from p :=
                  default [] (threadsRef c !! payload_from p)
                  ++ [mkMsg (randomUUID (entropy c)) (payload_from p)
                            (JS.TextDecoder_decode plainBytes) (payload_imageDataUrl p)
                            (now c) received_status]]>)
             (update_entropy S c))),
     Return tt).
Proof.
  intros Hkey Hex Hcb Hiv Hdec. unfold decryptIncoming.
  unfold mbind at 1. unfold M_bind at 1. unfold get at 1. rewrite Hkey.
  unfold Crypto.decryptWithKey, setFlowStage, pushMessage, console_error, try_catch,
    fresh, modify, lift, get, mbind, M_bind, mret, M_ret.
  rewrite Hex. cbv beta iota. rewrite Hcb. cbv beta iota. rewrite Hiv. cbv beta iota.
  unfold completion_bind. rewrite Hdec. reflexivity.
Qed.

(** X24.  From one client to the other.  The sender has a key for the
    selected friend and a socket; the receiver has a key for the sender
    under which decryption inverts the sender's encryption.  Then the
    payload the sender emits, handed to the receiver's listener, is opened:
    the receiver's thread of the sender gets the text the sender's encoder
    and the receiver's decoder make of the trimmed draft, which is the
    trimmed draft itself when it has no unpaired surrogate. *)
Theorem sent_message_is_received (sender receiver : client) (selected tok from : string)
    (key key' : CryptoKey) (cipherBytes : list Z) :
  truthy (token sender) = Some tok ->
  truthy (selectedFriendId sender) = Some selected ->
  JS.trim (draft sender) <> [] ->
  sharedKey (dh_state selected sender) = Some key ->
  canvas2d sender = true ->
  socketRef sender = true ->
  encrypt key (getRandomValues (entropy sender))
    (JS.TextEncoder_encode (JS.trim (draft sender))) = Return cipherBytes ->
  Forall is_byte cipherBytes ->
  Z.of_nat (length cipherBytes) <= 6141 ->
  Forall is_byte (getRandomValues (entropy sender)) ->
  sharedKey (dh_state from receiver) = Some key' ->
  canvas2d receiver = true ->
  decrypt key' (getRandomValues (entropy sender)) cipherBytes
    = Return (JS.TextEncoder_encode (JS.trim (draft sender))) ->
  exists stegoImage ivBase64 received,
    sent (handleSendMessage sender).1
    = sent sender ++ [EmitSecureMessage selected stegoImage ivBase64]
    /\ (handleIncomingPayload (mkPayload from stegoImage ivBase64) receiver).2 = Return tt
    /\ threadsRef (handleIncomingPayload (mkPayload from stegoImage ivBase64) receiver).1
       = <[from := default [] (threadsRef receiver !! from)
                   ++ [mkMsg (randomUUID (entropy receiver)) from received stegoImage
                             (now receiver) received_status]]>
           (threadsRef receiver)
    /\ received = JS.TextDecoder_decode (JS.TextEncoder_encode (JS.trim (draft sender)))
    /\ (wf_string (JS.trim (draft sender)) ->
        well_paired (JS.trim (draft sender)) = true ->
        head (JS.trim (draft sender)) <> Some 0xFEFF ->
        received = JS.trim (draft sender)).
Proof.
  intros Htok Hsel Hdraft Hkey Hcanvas Hsock Henc Hbytes Hlen Hiv Hkey' Hcanvas' Hdec.
  destruct (cipher_image cipherBytes Hbytes Hlen) as (e & img & He & Himg & Hex & Hback).
  destruct (bufferToBase64_returns _ Hiv) as (iv64 & Hiv64 & Hivback & _).
  exists img, iv64, (JS.TextDecoder_decode (JS.TextEncoder_encode (JS.trim (draft sender)))).
  split; [|split; [|split; [|split]]].
  - rewrite <- Hcanvas in Himg.
    destruct (handleSendMessage_sends sender selected tok key cipherBytes e img iv64)
      as (_ & H2 & _); try done. by rewrite H2, Hsock.
  - unfold handleIncomingPayload.
    rewrite (decryptIncoming_opens _ receiver key' e cipherBytes
               (getRandomValues (entropy sender))
               (JS.TextEncoder_encode (JS.trim (draft sender)))); try done.
    by rewrite Hcanvas'.
  - unfold handleIncomingPayload.
    rewrite (decryptIncoming_opens _ receiver key' e cipherBytes
               (getRandomValues (entropy sender))
               (JS.TextEncoder_encode (JS.trim (draft sender)))); try done.
    by rewrite Hcanvas'.
  - done.
  - intros Hwf Hwp Hbom. by apply TextDecoder_TextEncoder_id.
Qed.


End client_pipeline.

Section key_exchange.
Context {wc : WebCrypto}.
Import Client.

Lemma runPendingMessages_none friendId c :
  pendingMessagesRef c !! friendId = None ->
  runPendingMessages friendId c = (c, Return tt).
Proof.
  intros H. unfold runPendingMessages. unfold mbind at 1. unfold M_bind at 1.
  unfold get at 1. by rewrite H.
Qed.

Lemma ensureDHState_key_pair friendId c :
  keyPair (dh_state friendId (ensureDHState friendId c).1) = Some (key_pair_for friendId c).
Proof.
  destruct (ensureDHState_spec friendId c) as (_ & -> & _). unfold key_pair_for. simpl.
  by destruct (keyPair (dh_state friendId c)).
Qed.

(** An announce that goes out: the mark is not set and there is a
    socket. *)
Lemma emitPublicKey_announce friendId c :
  sentPublic (dh_state friendId c) = false ->
  socketRef c = true ->
  let c' := (emitPublicKey friendId c).1 in
  sent c' = sent c ++ [EmitDhPublic friendId (exportKey (key_pair_for friendId c).2)]
  /\ dh_state friendId c'
     = mkDH (Some (key_pair_for friendId c)) (sharedKey (dh_state friendId c)) true
  /\ pendingMessagesRef c' = pendingMessagesRef c
  /\ socketRef c' = socketRef c.
Proof.
  intros Hsp Hsock c'. subst c'. rewrite emitPublicKey_run.
  pose proof (ensureDHState_key_pair friendId c) as Hkp.
  pose proof (ensureDHState_announces friendId c) as (_ & Hs & _).
  destruct (ensureDHState_spec friendId c) as (_ & Hdh & _ & Hsent & Hpend & _).
  set (c1 := (ensureDHState friendId c).1) in *.
  assert (Hsp1 : sentPublic (dh_state friendId c1) = false) by (by rewrite Hdh).
  rewrite Hsp1, Hkp, Hs, Hsock. cbn [fst].
  rewrite dh_state_write, decide_True by done.
  cbn [sent update_sharedKeys update_sent pendingMessagesRef socketRef].
  rewrite dh_state_sent, Hkp, Hsent, Hpend, Hs, Hsock. rewrite Hdh at 1. done.
Qed.

(** The run of [deriveSharedSecret] when import and derivation return and
    nothing is pending for the peer. *)
Lemma deriveSharedSecret_run friendId theirPublic c imported key :
  importKey theirPublic = Return imported ->
  deriveKey (key_pair_for friendId c).1 imported = Return key ->
  pendingMessagesRef c !! friendId = None ->
  let c1 := (ensureDHState friendId c).1 in
  let c2 :=
    update_status
      (fun _ => "Secure channel established with " +:+ getFriendName friendId c1)
      (update_keyVersion S
         (update_sharedKeys
            (<[friendId := mkDH (Some (key_pair_for friendId c)) (Some key)
                                (sentPublic (dh_state friendId c))]>) c1)) in
  deriveSharedSecret friendId theirPublic c
  = if sentPublic (dh_state friendId c) then (c2, Return tt) else emitPublicKey friendId c2.
Proof.
  intros Himp Hder Hpend c1 c2.
  pose proof (ensureDHState_key_pair friendId c) as Hkp.
  destruct (ensureDHState_spec friendId c) as (Hret & Hdh & _ & _ & Hpend1 & _).
  fold c1 in Hkp, Hdh, Hpend1, Hret.
  unfold deriveSharedSecret. unfold mbind at 1. unfold M_bind at 1.
  destruct (ensureDHState friendId c) as [c1' r1] eqn:Hens. cbn [fst snd] in *.
  subst c1 r1.
  unfold mbind at 1. unfold M_bind at 1. unfold lift at 1.
  unfold Crypto.importPublicKey. rewrite Himp.
  unfold mbind at 1. unfold M_bind at 1. unfold get at 1. rewrite Hkp.
  unfold mbind at 1. unfold M_bind at 1. unfold lift at 1.
  unfold Crypto.deriveSharedKey. rewrite Hder.
  unfold mbind at 1. unfold M_bind at 1. unfold dh_write at 1. unfold modify at 1.
  unfold mbind at 1. unfold M_bind at 1. unfold modify at 1.
  unfold mbind at 1. unfold M_bind at 1. unfold get at 1.
  unfold mbind at 1. unfold M_bind at 1. unfold setStatus at 1. unfold modify at 1.
  assert (Hsp : sentPublic (dh_state friendId c1') = sentPublic (dh_state friendId c))
    by (by rewrite Hdh).
  rewrite Hkp, Hsp. cbn [keyPair].
  change (getFriendName friendId (update_keyVersion S ?c)) with (getFriendName friendId c).
  change (getFriendName friendId (update_sharedKeys ?f ?c)) with (getFriendName friendId c).
  fold c2.
  unfold mbind at 1. unfold M_bind at 1.
  rewrite runPendingMessages_none by (subst c2; cbn; by rewrite Hpend1).
  unfold mbind at 1. unfold M_bind at 1. unfold get at 1.
  assert (Hsp2 : sentPublic (dh_state friendId c2) = sentPublic (dh_state friendId c)).
  { subst c2. unfold dh_state. cbn. by rewrite lookup_insert_eq. }
  rewrite Hsp2. by destruct (sentPublic (dh_state friendId c)).
Qed.

(** X26.  The key exchange, start to end.  Alice announces her key to Bob;
    Bob's listener takes it in and announces his own; Alice's listener
    takes that in.  When importing an exported key gives the key back and
    the two derivations agree on a key, both clients end with that key for
    each other, each has announced exactly once, and neither listener
    throws. *)
Theorem key_exchange_agrees (alice bob : client) (aliceId bobId : string) (key : CryptoKey) :
  let kpA := key_pair_for bobId alice in
  let kpB := key_pair_for aliceId bob in
  importKey (exportKey kpA.2) = Return kpA.2 ->
  importKey (exportKey kpB.2) = Return kpB.2 ->
  deriveKey kpA.1 kpB.2 = Return key ->
  deriveKey kpB.1 kpA.2 = Return key ->
  sentPublic (dh_state bobId alice) = false ->
  sentPublic (dh_state aliceId bob) = false ->
  socketRef alice = true ->
  socketRef bob = true ->
  pendingMessagesRef alice !! bobId = None ->
  pendingMessagesRef bob !! aliceId = None ->
  let alice1 := (emitPublicKey bobId alice).1 in
  let bob1 := (handleDhPayload aliceId (exportKey kpA.2) bob).1 in
  let alice2 := (handleDhPayload bobId (exportKey kpB.2) alice1).1 in
  sent alice1 = sent alice ++ [EmitDhPublic bobId (exportKey kpA.2)]
  /\ (handleDhPayload aliceId (exportKey kpA.2) bob).2 = Return tt
  /\ sent bob1 = sent bob ++ [EmitDhPublic aliceId (exportKey kpB.2)]
  /\ (handleDhPayload bobId (exportKey kpB.2) alice1).2 = Return tt
  /\ sent alice2 = sent alice1
  /\ sharedKey (dh_state bobId alice2) = Some key
  /\ sharedKey (dh_state aliceId bob1) = Some key.
Proof.
  intros kpA kpB HimpA HimpB HderA HderB HspA HspB HsockA HsockB HpendA HpendB
    alice1 bob1 alice2.
  destruct (emitPublicKey_announce bobId alice HspA HsockA) as (HsentA1 & HdhA1 & HpA1 & _).
  fold alice1 in HsentA1, HdhA1, HpA1. fold kpA in HsentA1, HdhA1.
  split; [done|].
  (* Bob takes Alice's key in and announces his own. *)
  assert (Hbob : handleDhPayload aliceId (exportKey kpA.2) bob
                 = emitPublicKey aliceId
                     (update_status
                        (fun _ => "Secure channel established with "
                                  +:+ getFriendName aliceId (ensureDHState aliceId bob).1)
                        (update_keyVersion S
                           (update_sharedKeys
                              (<[aliceId := mkDH (Some kpB) (Some key) false]>)
                              (ensureDHState aliceId bob).1)))).
  { unfold handleDhPayload.
    rewrite (deriveSharedSecret_run aliceId _ bob kpA.2 key) by done.
    by rewrite HspB. }
  set (bob0 := update_status _ _) in Hbob.
  assert (Hb0 : sentPublic (dh_state aliceId bob0) = false
                /\ socketRef bob0 = true
                /\ sent bob0 = sent bob
                /\ key_pair_for aliceId bob0 = kpB
                /\ sharedKey (dh_state aliceId bob0) = Some key).
  { pose proof (ensureDHState_announces aliceId bob) as (_ & Hs & _).
    destruct (ensureDHState_spec aliceId bob) as (_ & _ & _ & Hsent & _).
    subst bob0. unfold key_pair_for, dh_state. cbn. rewrite lookup_insert_eq. cbn.
    by rewrite Hs, Hsent. }
  destruct Hb0 as (Hsp0 & Hsock0 & Hsent0 & Hkp0 & Hkey0).
  destruct (emitPublicKey_announce aliceId bob0 Hsp0 Hsock0) as (HsentB1 & HdhB1 & _).
  pose proof (emitPublicKey_returns aliceId bob0) as HretB.
  subst bob1. rewrite Hbob. split; [done|].
  rewrite HsentB1, HdhB1, Hkp0, Hsent0, Hkey0. split; [done|].
  (* Alice takes Bob's key in; her mark is set, so she does not announce again. *)
  assert (HkpA1 : key_pair_for bobId alice1 = kpA).
  { unfold key_pair_for. by rewrite HdhA1. }
  assert (Halice : handleDhPayload bobId (exportKey kpB.2) alice1
                   = (update_status
                        (fun _ => "Secure channel established with "
                                  +:+ getFriendName bobId (ensureDHState bobId alice1).1)
                        (update_keyVersion S
                           (update_sharedKeys
                              (<[bobId := mkDH (Some kpA) (Some key) true]>)
                              (ensureDHState bobId alice1).1)),
                      Return tt)).
  { unfold handleDhPayload.
    rewrite (deriveSharedSecret_run bobId _ alice1 kpB.2 key);
      [|done|by rewrite HkpA1|by rewrite HpA1].
    by rewrite HdhA1, HkpA1. }
  subst alice2. rewrite Halice. cbn [fst snd]. split; [done|].
  destruct (ensureDHState_spec bobId alice1) as (_ & _ & _ & Hsent & _).
  split; [by cbn|]. split; [|done].
  unfold dh_state. cbn. by rewrite lookup_insert_eq.
Qed.
End key_exchange.

Section client_coverage_runs.
Import ToyPeers Client.
#[local] Existing Instance peers_crypto.
Local Open Scope Z_scope.

(** Alice's pair for Bob outlives a key from Bob and a send. *)
Lemma key_pair_never_replaced_alice :
  keyPair (dh_state "bob" (after alice_keyed [@HandleDhPayload peers_crypto "bob" 8; HandleSendMessage]))
  = Some (Toy.toy_generate 0).
Proof.
  apply (key_pair_never_replaced alice_keyed [@HandleDhPayload peers_crypto "bob" 8; HandleSendMessage]).
  reflexivity.
Defined.

(** Alice sends "hi": the cipher text is three bytes. *)
Lemma send_with_key_alice :
  status (handleSendMessage alice_keyed).1 = "Encrypted message sent via image".
Proof.
  destruct (send_with_key alice_keyed "bob" "token-a" 4 [108; 109; 4])
    as (cipherBase64 & stegoImage & ivBase64 & _ & _ & _ & _ & _ & _ & _ & H).
  - reflexivity.
  - reflexivity.
  - vm_compute. discriminate.
  - reflexivity.
  - reflexivity.
  - reflexivity.
  - repeat (constructor; [unfold is_byte; lia|]). constructor.
  - simpl. lia.
  - repeat (constructor; [unfold is_byte; lia|]). constructor.
  - exact H.
Defined.

Lemma send_failure_no_canvas :
  status (handleSendMessage alice_no_canvas).1 = "Failed to send secure message"
  /\ draft (handleSendMessage alice_no_canvas).1 = draft alice_no_canvas.
Proof.
  destruct (send_failure alice_no_canvas "bob" "token-a" 4) as (_ & _ & _ & Hd & Hs & _).
  - reflexivity.
  - reflexivity.
  - vm_compute. discriminate.
  - reflexivity.
  - change (Forall is_byte [108; 109; 4] /\ (false = false \/ 6141 < 3)).
    split; [|by left]. repeat (constructor; [unfold is_byte; lia|]). constructor.
  - split; [exact Hs|exact Hd].
Defined.

(** "hi" from Alice arrives at Bob. *)
Lemma sent_message_is_received_hi :
  exists stegoImage ivBase64 received,
    sent (handleSendMessage alice_keyed).1
    = sent alice_keyed ++ [EmitSecureMessage "bob" stegoImage ivBase64]
    /\ (handleIncomingPayload (mkPayload "alice" stegoImage ivBase64) bob_keyed).2
       = Return tt
    /\ received = [104; 105].
Proof.
  destruct (sent_message_is_received alice_keyed bob_keyed "bob" "token-a" "alice" 4 4
              [108; 109; 4])
    as (stegoImage & ivBase64 & received & H1 & H2 & _ & _ & H5).
  - reflexivity.
  - reflexivity.
  - vm_compute. discriminate.
  - reflexivity.
  - reflexivity.
  - reflexivity.
  - reflexivity.
  - repeat (constructor; [unfold is_byte; lia|]). constructor.
  - simpl. lia.
  - repeat (constructor; [unfold is_byte; lia|]). constructor.
  - reflexivity.
  - reflexivity.
  - reflexivity.
  - exists stegoImage, ivBase64, received. split; [exact H1|]. split; [exact H2|].
    apply H5.
    + repeat (constructor; [lia|]). constructor.
    + reflexivity.
    + discriminate.
Defined.


(** Alice and Bob, fresh: the pairs (1, 5) and (4, 4) agree on the key 4. *)
Lemma key_exchange_agrees_toy :
  sharedKey
    (dh_state "bob"
       (handleDhPayload "bob" (exportKey (key_pair_for "alice" bob).2)
          (emitPublicKey "bob" alice).1).1)
  = Some 4
  /\ sharedKey
       (dh_state "alice"
          (handleDhPayload "alice" (exportKey (key_pair_for "bob" alice).2) bob).1)
     = Some 4.
Proof.
  pose proof (key_exchange_agrees alice bob "alice" "bob" 4) as H. cbv zeta in H.
  destruct H as (_ & _ & _ & _ & _ & Ha & Hb); try reflexivity.
  split; [exact Ha|exact Hb].
Defined.
End client_coverage_runs.

(** ** The server: what the lists show after an accepted request *)

Section server_lists.
Context {node : Node}.
Import Rest.

Lemma elem_of_entries x n ids sv :
  (x, n) ∈ entries ids sv
  <-> x ∈ ids /\ exists u, users_get x (users sv) = Some u /\ username u = n.
Proof.
  unfold entries. rewrite list_elem_of_omap. split.
  - intros (userId & Hin & Hu).
    destruct (users_get userId (users sv)) as [u|] eqn:Hget; [|done].
    simpl in Hu. injection Hu as <- <-.
    rewrite (users_get_id _ _ _ Hget). split; [done|]. by exists u.
  - intros (Hin & u & Hget & <-). exists x. split; [done|].
    rewrite Hget. simpl. by rewrite (users_get_id _ _ _ Hget).
Qed.

(** X27.  After an accepted request the lists show it: [GET /api/friends]
    of the accepting user lists the requester under its id and name, and
    [GET /api/requests] no longer lists a request of that user. *)
Theorem accepted_friend_is_listed (sv : server) (authorization : option string)
    (me requester : User) (token a : string) :
  requireAuth authorization sv = inr (me, token) ->
  a <> "" ->
  a ∈ incomingRequests me ->
  users_get a (users sv) = Some requester ->
  exists listed incoming,
    (api_friends authorization (api_friend_accept authorization (Some a) sv).1).2
      = res_json (JFriends listed)
    /\ (a, username requester) ∈ listed
    /\ (api_requests authorization (api_friend_accept authorization (Some a) sv).1).2
       = res_json (JIncoming incoming)
    /\ forall name, (a, name) ∉ incoming.
Proof.
  intros Hauth Hne Hin Hreq.
  pose proof (requireAuth_me _ _ _ _ Hauth) as Hme.
  destruct (api_friend_accept_cases authorization (Some a) sv)
    as [(me0 & tok0 & a0 & requester0 & [= <-] & _ & Hauth0 & _ & Hreq0 & ->)
       |(_ & Hno & _)].
  2:{ exfalso. apply Hno. exists a, (id me), authorization, me, token.
      repeat split; try done; by eexists. }
  rewrite Hauth in Hauth0. rewrite Hreq in Hreq0. simplify_eq. cbn [fst].
  set (sv' := notify _ _ _ _).
  assert (Hget : forall x, users_get x (users sv')
                 = (if bool_decide (x = a)
                    then fmap (with_outgoingRequests (set_delete (id me0))) else fun o => o)
                     ((if bool_decide (x = a)
                       then fmap (with_friends (set_add (id me0))) else fun o => o)
                        ((if bool_decide (x = id me0)
                          then fmap (with_friends (set_add a)) else fun o => o)
                           ((if bool_decide (x = id me0)
                             then fmap (with_incomingRequests (set_delete a))
                             else fun o => o) (users_get x (users sv)))))).
  { intros x. subst sv'. rewrite notify_users. by rewrite !users_get_update. }
  assert (Hme' : exists me', users_get (id me0) (users sv') = Some me'
                             /\ a ∈ friends me' /\ a ∉ incomingRequests me').
  { rewrite Hget, Hme. rewrite (bool_decide_eq_true_2 (id me0 = id me0)) by done.
    destruct (bool_decide (id me0 = a)); simpl; eexists; (split; [reflexivity|]); simpl;
      rewrite ?elem_of_set_add, elem_of_set_delete; tauto. }
  destruct Hme' as (me' & Hme' & Hfr & Hinc).
  assert (Hreq' : exists requester', users_get a (users sv') = Some requester'
                                     /\ username requester' = username requester0).
  { rewrite Hget, Hreq. rewrite (bool_decide_eq_true_2 (a = a)) by done.
    destruct (bool_decide (a = id me0)); simpl; eexists; (split; done). }
  destruct Hreq' as (requester' & Hreq' & Hname).
  assert (Hauth' : requireAuth authorization sv' = inr (me', tok0)).
  { apply requireAuth_inr in Hauth as (h & userId & -> & Hpre & -> & Hs & Hu & Hg).
    apply requireAuth_inr. exists h, userId. repeat split; try done.
    - subst sv'. by rewrite notify_sessions.
    - by rewrite <- (users_get_id _ _ _ Hg). }
  exists (entries (friends me') sv'), (entries (incomingRequests me') sv').
  unfold api_friends, api_requests. rewrite Hauth'. cbn [snd].
  split; [done|]. split; [|split; [done|]].
  - apply elem_of_entries. split; [done|]. by exists requester'.
  - intros name [Habs _]%elem_of_entries. done.
Qed.
End server_lists.

Section server_lists_runs.
Import Rest ToyServer.
#[local] Existing Instance toy_node.

(** Bob accepts Alice: she is on his list. *)
Lemma accepted_friend_is_listed_bob :
  exists listed incoming,
    (api_friends (Some "Bearer tok-b")
       (api_friend_accept (Some "Bearer tok-b") (Some "id-a") server0).1).2
      = res_json (JFriends listed)
    /\ ("id-a", "Alice") ∈ listed
    /\ (api_requests (Some "Bearer tok-b")
          (api_friend_accept (Some "Bearer tok-b") (Some "id-a") server0).1).2
       = res_json (JIncoming incoming)
    /\ forall name, ("id-a", name) ∉ incoming.
Proof.
  apply (accepted_friend_is_listed server0 (Some "Bearer tok-b") bob
           (with_outgoingRequests (fun _ => ["id-b"]) alice) "tok-b" "id-a").
  - reflexivity.
  - discriminate.
  - apply list_elem_of_here.
  - reflexivity.
Defined.
End server_lists_runs.

(** ** The client: calls that overlap *)

Section client_overlap.
Context {wc : WebCrypto}.
Import Client.

(** The two halves make up the function. *)
Lemma ensureDHState_halves friendId c :
  ensureDHState friendId c
  = (x ← ensureDHState_begin friendId;
     match x with
     | Some kp => ensureDHState_resume friendId kp
     | None => mret tt
     end) c.
Proof.
  unfold ensureDHState, ensureDHState_begin, ensureDHState_resume, dh_write, fresh, get,
    modify, mbind, M_bind, mret, M_ret.
  destruct (sharedKeys c !! friendId) as [s|]; simpl.
  - by destruct (keyPair (dh_state friendId c)).
  - by destruct (keyPair (dh_state friendId _)).
Qed.

Lemma emitPublicKey_halves friendId c :
  emitPublicKey friendId c
  = (ensureDHState friendId;;
     x ← emitPublicKey_begin friendId;
     match x with
     | Some exported => emitPublicKey_resume friendId exported
     | None => mret tt
     end) c.
Proof.
  unfold emitPublicKey, emitPublicKey_begin, emitPublicKey_resume, mbind, M_bind, get, mret, M_ret.
  destruct (ensureDHState friendId c) as [c1 [[]|e]]; [|reflexivity].
  destruct (sentPublic (dh_state friendId c1)); [reflexivity|].
  destruct (keyPair (dh_state friendId c1)); reflexivity.
Qed.

(** X28.  Two calls of [emitPublicKey] that overlap announce twice:
    when a key pair is stored for the peer, the mark is not set and the
    socket is connected, a first call reaches its await of the exported key
    without changing anything, so a second call that starts before the first
    resumes passes the same test of the mark and exports the same key; when
    both have resumed the same [dh-public] event has been emitted twice. *)
Theorem overlapping_calls_announce_twice (c : client) (friendId : string)
    (kp : PrivateKey * PublicKey) :
  keyPair (dh_state friendId c) = Some kp ->
  sentPublic (dh_state friendId c) = false ->
  socketRef c = true ->
  emitPublicKey_begin friendId c = (c, Return (Some (Crypto.exportPublicKey kp.2)))
  /\ sent (emitPublicKey_resume friendId (Crypto.exportPublicKey kp.2)
             (emitPublicKey_resume friendId (Crypto.exportPublicKey kp.2) c).1).1
     = sent c ++ [EmitDhPublic friendId (Crypto.exportPublicKey kp.2);
                  EmitDhPublic friendId (Crypto.exportPublicKey kp.2)].
Proof.
  intros Hkp Hmark Hsock. split.
  - unfold emitPublicKey_begin, get, mbind, M_bind. by rewrite Hkp, Hmark.
  - unfold emitPublicKey_resume, socket_emit, dh_write, modify, mbind, M_bind.
    destruct c; cbn in *. subst. cbn. by rewrite <- app_assoc.
Qed.

(** X29.  Two calls of [ensureDHState] that overlap replace the key
    pair: when the peer has no entry, the first call creates it and reaches
    its await of a generated pair; a second call that starts before the
    first resumes finds the entry without a pair and awaits a pair of its
    own; the first to resume stores its pair and the second then overwrites
    it with the other. *)
Theorem overlapping_calls_replace_key_pair (c : client) (friendId : string) :
  sharedKeys c !! friendId = None ->
  (ensureDHState_begin friendId c).2 = Return (Some (Crypto.createKeyPair (entropy c)))
  /\ (ensureDHState_begin friendId (ensureDHState_begin friendId c).1).2
     = Return (Some (Crypto.createKeyPair (S (entropy c))))
  /\ keyPair (dh_state friendId
       (ensureDHState_resume friendId (Crypto.createKeyPair (entropy c))
          (ensureDHState_begin friendId (ensureDHState_begin friendId c).1).1).1)
     = Some (Crypto.createKeyPair (entropy c))
  /\ keyPair (dh_state friendId
       (ensureDHState_resume friendId (Crypto.createKeyPair (S (entropy c)))
          (ensureDHState_resume friendId (Crypto.createKeyPair (entropy c))
             (ensureDHState_begin friendId (ensureDHState_begin friendId c).1).1).1).1)
     = Some (Crypto.createKeyPair (S (entropy c))).
Proof.
  intros Hs.
  unfold ensureDHState_begin, ensureDHState_resume, dh_write, fresh, get, modify,
    mbind, M_bind, mret, M_ret.
  rewrite Hs. cbn. unfold dh_state. cbn. rewrite !lookup_insert_eq. cbn.
  rewrite !lookup_insert_eq. cbn. rewrite !lookup_insert_eq. done.
Qed.
End client_overlap.

Section overlap_runs.
Import ToyPeers Client.
Existing Instance peers_crypto.

Lemma overlapping_calls_announce_twice_alice :
  keyPair (dh_state "bob" (ensureDHState "bob" alice).1) = Some (Toy.toy_generate 0)
  /\ sentPublic (dh_state "bob" (ensureDHState "bob" alice).1) = false
  /\ socketRef (ensureDHState "bob" alice).1 = true
  /\ sent (emitPublicKey_resume "bob" (Crypto.exportPublicKey (Toy.toy_generate 0).2)
             (emitPublicKey_resume "bob" (Crypto.exportPublicKey (Toy.toy_generate 0).2)
                (ensureDHState "bob" alice).1).1).1
     = [EmitDhPublic "bob" (Crypto.exportPublicKey (Toy.toy_generate 0).2);
        EmitDhPublic "bob" (Crypto.exportPublicKey (Toy.toy_generate 0).2)].
Proof.
  split; [reflexivity|]. split; [reflexivity|]. split; [reflexivity|].
  apply (overlapping_calls_announce_twice (ensureDHState "bob" alice).1 "bob"
           (Toy.toy_generate 0)); reflexivity.
Defined.

Lemma overlapping_calls_replace_key_pair_alice :
  sharedKeys alice !! "bob" = None
  /\ Toy.toy_generate 0 <> Toy.toy_generate 1
  /\ keyPair (dh_state "bob"
       (ensureDHState_resume "bob" (Toy.toy_generate 0)
          (ensureDHState_begin "bob" (ensureDHState_begin "bob" alice).1).1).1)
     = Some (Toy.toy_generate 0)
  /\ keyPair (dh_state "bob"
       (ensureDHState_resume "bob" (Toy.toy_generate 1)
          (ensureDHState_resume "bob" (Toy.toy_generate 0)
             (ensureDHState_begin "bob" (ensureDHState_begin "bob" alice).1).1).1).1)
     = Some (Toy.toy_generate 1).
Proof.
  split; [reflexivity|]. split; [by vm_compute|].
  apply (overlapping_calls_replace_key_pair alice "bob"). reflexivity.
Defined.
End overlap_runs.
